(** * The seed script and the serverless entry point of the
      employee-management platform, embedded in Rocq.

    The first part models the values and the built-in operations of the
    JavaScript runtime that the two programs use; the second part embeds the
    programs themselves, function by function; the last part states and
    proves their properties. *)

From Stdlib Require Import ZArith List String Ascii Bool Lia.
From Stdlib Require Import Floats.SpecFloat.
From stdpp Require Import gmap strings list.
Open Scope Z_scope.

Definition number := spec_float.
Definition prec : Z := 53.
Definition emax : Z := 1024.

Definition NaN : number := S754_nan.

Definition number_eqb (x y : number) : bool :=
  match x, y with
  | S754_zero a, S754_zero b => Bool.eqb a b
  | S754_infinity a, S754_infinity b => Bool.eqb a b
  | S754_nan, S754_nan => true
  | S754_finite a m e, S754_finite b n f => Bool.eqb a b && Pos.eqb m n && Z.eqb e f
  | _, _ => false
  end.

(** The Number value for a mathematical integer. *)
Definition Z2num (z : Z) : number := binary_normalize prec emax z 0 false.

(** The Number value for [s * 10^e] with [0 <= s]; [neg] is the sign. *)
Definition dec2num (neg : bool) (s e : Z) : number :=
  if s =? 0 then S754_zero neg
  else if 0 <=? e then binary_normalize prec emax (cond_Zopp neg (s * 10 ^ e)) 0 false
  else
    let '(q, e', l) := SFdiv_core_binary prec emax s 0 (10 ^ (- e)) 0 in
    binary_round_aux prec emax neg q e' l.

(** The mathematical value of an integral Number. *)
Definition num2Z (x : number) : option Z :=
  match x with
  | S754_zero _ => Some 0
  | S754_finite s m e =>
      if 0 <=? e then Some (cond_Zopp s (Zpos m * 2 ^ e))
      else if (Zpos m mod 2 ^ (- e)) =? 0 then Some (cond_Zopp s (Zpos m / 2 ^ (- e)))
      else None
  | _ => None
  end.

Definition digit_char (d : Z) : ascii := ascii_of_nat (Z.to_nat (48 + d)).

Fixpoint digits_of (fuel : nat) (z : Z) (acc : list ascii) : list ascii :=
  match fuel with
  | O => acc
  | S f => if z <? 10 then digit_char z :: acc
           else digits_of f (z / 10) (digit_char (z mod 10) :: acc)
  end.

(** Decimal digits of a non-negative integer. *)
Definition decimal (z : Z) : list ascii := digits_of (S (Z.to_nat (Z.log2 z))) z [].

Section Shortest.
Variables (N D : Z).

Definition below_pow10 (n : Z) : bool :=
  if 0 <=? n then N <? D * 10 ^ n else N * 10 ^ (- n) <? D.

Fixpoint find_exponent (fuel : nat) (n : Z) : Z :=
  match fuel with
  | O => n
  | S f => if below_pow10 n then n else find_exponent f (n + 1)
  end.

Definition scaled_floor (p : Z) : Z :=
  if 0 <=? p then (N * 10 ^ p) / D else N / (D * 10 ^ (- p)).

(* is N/D * 10^p strictly below / equal to the midpoint (a + b) / 2 ? *)
Definition cmp_mid (p a b : Z) : comparison :=
  if 0 <=? p then (2 * N * 10 ^ p) ?= (a + b) * D
  else (2 * N) ?= (a + b) * D * 10 ^ (- p).

Fixpoint shortest (x : number) (n0 : Z) (fuel : nat) (k : Z) : Z * Z * Z :=
  let lo := scaled_floor (k - n0) in
  let hi := lo + 1 in
  let '(hs, hn) := if hi <? 10 ^ k then (hi, n0) else (10 ^ (k - 1), n0 + 1) in
  match fuel with
  | O => (lo, k, n0)
  | S f =>
      let lo_ok := number_eqb (dec2num false lo (n0 - k)) x in
      let hi_ok := number_eqb (dec2num false hs (hn - k)) x in
      match lo_ok, hi_ok with
      | true, false => (lo, k, n0)
      | false, true => (hs, k, hn)
      | true, true =>
          match cmp_mid (k - n0) lo hi with
          | Lt => (lo, k, n0)
          | Gt => (hs, k, hn)
          | Eq => if Z.even lo then (lo, k, n0) else (hs, k, hn)
          end
      | false, false => shortest x n0 f (k + 1)
      end
  end.
End Shortest.

Definition zeros (n : Z) : list ascii := repeat "0"%char (Z.to_nat n).

(** Number::toString(x) in radix 10. *)
Definition Number_toString (x : number) : list ascii :=
  match x with
  | S754_nan => list_ascii_of_string "NaN"
  | S754_zero _ => list_ascii_of_string "0"
  | S754_infinity s => (if s then ["-"%char] else []) ++ list_ascii_of_string "Infinity"
  | S754_finite sg m e =>
      let '(N, D) := if 0 <=? e then (Zpos m * 2 ^ e, 1) else (Zpos m, 2 ^ (- e)) in
      let n0 := find_exponent N D 700 (-330) in
      let '(s, k, n) := shortest N D (S754_finite false m e) n0 17 1 in
      let ds := decimal s in
      let body :=
        if (k <=? n) && (n <=? 21) then ds ++ zeros (n - k)
        else if (0 <? n) && (n <=? 21) then
          take (Z.to_nat n) ds ++ "."%char :: drop (Z.to_nat n) ds
        else if (-6 <? n) && (n <=? 0) then
          "0"%char :: "."%char :: zeros (- n) ++ ds
        else
          let ex := n - 1 in
          let tail := "e"%char :: (if ex <? 0 then "-"%char else "+"%char) :: decimal (Z.abs ex) in
          match ds with
          | [] => tail
          | d :: [] => d :: tail
          | d :: rest => d :: "."%char :: rest ++ tail
          end in
      (if sg then ["-"%char] else []) ++ body
  end.



(** * Strings *)

Definition chars (s : string) : list ascii := list_ascii_of_string s.
Definition str (l : list ascii) : string := string_of_list_ascii l.
Definition byte (n : nat) : ascii := ascii_of_nat n.

(** WhiteSpace and LineTerminator code points, as UTF-8 byte sequences. *)
Definition white_space : list (list ascii) :=
  map (map byte)
    ([ [9]; [10]; [11]; [12]; [13]; [32]; [194; 160]; [225; 154; 128] ]
     ++ map (fun c => [226; 128; c]) [128; 129; 130; 131; 132; 133; 134; 135; 136; 137; 138]
     ++ [ [226; 128; 168]; [226; 128; 169]; [226; 128; 175]; [226; 129; 159];
          [227; 128; 128]; [239; 187; 191] ])%nat.

Fixpoint strip_prefix (p s : list ascii) : option (list ascii) :=
  match p, s with
  | [], _ => Some s
  | a :: p', b :: s' => if Ascii.eqb a b then strip_prefix p' s' else None
  | _ :: _, [] => None
  end.

Fixpoint strip_any (ps : list (list ascii)) (s : list ascii) : option (list ascii) :=
  match ps with
  | [] => None
  | p :: ps' => match strip_prefix p s with Some r => Some r | None => strip_any ps' s end
  end.

Fixpoint trim_start_fuel (fuel : nat) (ws : list (list ascii)) (s : list ascii) : list ascii :=
  match fuel with
  | O => s
  | S f => match strip_any ws s with
           | Some r => trim_start_fuel f ws r
           | None => s
           end
  end.

Definition trim_start (s : list ascii) : list ascii :=
  trim_start_fuel (length s) white_space s.

Definition trim_end (s : list ascii) : list ascii :=
  rev (trim_start_fuel (length s) (map (@rev ascii) white_space) (rev s)).

(** String.prototype.trim *)
Definition trim (s : string) : string := str (trim_end (trim_start (chars s))).

Definition is_digit (c : ascii) : bool :=
  let n := nat_of_ascii c in (48 <=? n)%nat && (n <=? 57)%nat.

Definition digit_val (c : ascii) : Z := Z.of_nat (nat_of_ascii c) - 48.

Fixpoint take_digits (s : list ascii) : list ascii :=
  match s with
  | c :: r => if is_digit c then c :: take_digits r else []
  | [] => []
  end.

Definition digits_value (ds : list ascii) : Z :=
  fold_left (fun acc c => acc * 10 + digit_val c) ds 0.

(** parseInt(string, 10) on a String argument. *)
Definition parseInt_string (s : string) : number :=
  let s1 := trim_start (chars s) in
  let '(neg, s2) :=
    match s1 with
    | "-"%char :: r => (true, r)
    | "+"%char :: r => (false, r)
    | _ => (false, s1)
    end in
  match take_digits s2 with
  | [] => NaN
  | ds => let n := digits_value ds in
          if n =? 0 then S754_zero neg else Z2num (cond_Zopp neg n)
  end.


(** * Values *)

Inductive prototype (A : Type) : Type :=
| ObjectPrototype          (* %Object.prototype%, the prototype of every object literal *)
| NullPrototype
| ProtoValue (o : A).
Arguments ObjectPrototype {A}.
Arguments NullPrototype {A}.
Arguments ProtoValue {A} o.

Unset Elimination Schemes.
Inductive jsval : Type :=
| VUndefined
| VNull
| VBool (b : bool)
| VNum (x : number)
| VStr (s : string)
| VDate (arg : jsval)                       (* the Date built by [new Date(arg)] *)
| VArr (elems : list jsval)
| VObj (proto : prototype jsval) (members : list (string * jsval)).
Set Elimination Schemes.

Section value_ind.
Variable P : jsval -> Prop.
Hypothesis Hundef : P VUndefined.
Hypothesis Hnull : P VNull.
Hypothesis Hbool : forall b, P (VBool b).
Hypothesis Hnum : forall x, P (VNum x).
Hypothesis Hstr : forall s, P (VStr s).
Hypothesis Hdate : forall a, P a -> P (VDate a).
Hypothesis Harr : forall l, Forall P l -> P (VArr l).
Hypothesis Hobj : forall p ms,
  match p with ProtoValue o => P o | _ => True end ->
  Forall (fun km => P (snd km)) ms -> P (VObj p ms).

Fixpoint value_ind (v : jsval) : P v :=
  match v with
  | VUndefined => Hundef
  | VNull => Hnull
  | VBool b => Hbool b
  | VNum x => Hnum x
  | VStr s => Hstr s
  | VDate a => Hdate a (value_ind a)
  | VArr l =>
      Harr l ((fix go (l : list jsval) : Forall P l :=
                 match l with
                 | [] => @List.Forall_nil _ P
                 | x :: r => @List.Forall_cons _ P x r (value_ind x) (go r)
                 end) l)
  | VObj p ms =>
      Hobj p ms
        (match p as p0 return match p0 with ProtoValue o => P o | _ => True end with
         | ProtoValue o => value_ind o
         | _ => I
         end)
        ((fix go (ms : list (string * jsval)) : Forall (fun km => P (snd km)) ms :=
            match ms with
            | [] => @List.Forall_nil _ _
            | km :: r => @List.Forall_cons _ (fun km => P (snd km)) km r (value_ind (snd km)) (go r)
            end) ms)
  end.
End value_ind.

Fixpoint value_eqb (a b : jsval) {struct a} : bool :=
  match a, b with
  | VUndefined, VUndefined => true
  | VNull, VNull => true
  | VBool x, VBool y => Bool.eqb x y
  | VNum x, VNum y => number_eqb x y
  | VStr x, VStr y => String.eqb x y
  | VDate x, VDate y => value_eqb x y
  | VArr l, VArr m =>
      (fix go (l m : list jsval) : bool :=
         match l, m with
         | [], [] => true
         | x :: l', y :: m' => value_eqb x y && go l' m'
         | _, _ => false
         end) l m
  | VObj p l, VObj q m =>
      match p, q with
      | ObjectPrototype, ObjectPrototype => true
      | NullPrototype, NullPrototype => true
      | ProtoValue x, ProtoValue y => value_eqb x y
      | _, _ => false
      end &&
      (fix go (l m : list (string * jsval)) : bool :=
         match l, m with
         | [], [] => true
         | (k, x) :: l', (j, y) :: m' => String.eqb k j && value_eqb x y && go l' m'
         | _, _ => false
         end) l m
  | _, _ => false
  end.


(** * Exceptions *)

Inductive result (A : Type) : Type :=
| Ok (a : A)
| Throw (e : jsval).
Arguments Ok {A} a.
Arguments Throw {A} e.

Definition result_bind {A B} (r : result A) (f : A -> result B) : result B :=
  match r with
  | Ok a => f a
  | Throw e => Throw e
  end.

Definition result_map {A B} (f : A -> B) (r : result A) : result B :=
  result_bind r (fun a => Ok (f a)).

(** An Error instance: an object with a name and a message. *)
Definition mkError (name message : string) : jsval :=
  VObj ObjectPrototype [("name", VStr name); ("message", VStr message)].

Definition TypeError (message : string) : jsval := mkError "TypeError" message.
Definition SyntaxError (message : string) : jsval := mkError "SyntaxError" message.

(** * Operations on values *)

(** ToBoolean *)
Definition truthy (v : jsval) : bool :=
  match v with
  | VUndefined | VNull => false
  | VBool b => b
  | VNum (S754_zero _) | VNum S754_nan => false
  | VNum _ => true
  | VStr s => negb (String.eqb s EmptyString)
  | VDate _ | VArr _ | VObj _ _ => true
  end.

(** [typeof v === "object"] *)
Definition typeof_object (v : jsval) : bool :=
  match v with
  | VNull | VDate _ | VArr _ | VObj _ _ => true
  | _ => false
  end.

Definition isArray (v : jsval) : bool :=
  match v with VArr _ => true | _ => false end.

Fixpoint lookup_member (k : string) (ms : list (string * jsval)) : option jsval :=
  match ms with
  | [] => None
  | (j, x) :: r => if String.eqb j k then Some x else lookup_member k r
  end.

Fixpoint set_member (k : string) (x : jsval) (ms : list (string * jsval)) :
  list (string * jsval) :=
  match ms with
  | [] => [(k, x)]
  | (j, y) :: r => if String.eqb j k then (j, x) :: r else (j, y) :: set_member k x r
  end.

(** [v[k]] on an object, along the prototype chain.  The programs read only
    members named in their own text, none of which names a built-in member
    (length, an index, toString, ...); for such names an array, a Date and
    the built-in prototypes have nothing to offer. *)
Fixpoint get_member (v : jsval) (k : string) : jsval :=
  match v with
  | VObj p ms =>
      match lookup_member k ms with
      | Some x => x
      | None => match p with ProtoValue o => get_member o k | _ => VUndefined end
      end
  | _ => VUndefined
  end.

(** [v.k]: reading a member of null or undefined is a TypeError. *)
Definition get (v : jsval) (k : string) : result jsval :=
  match v with
  | VUndefined => Throw (TypeError ("Cannot read properties of undefined (reading '" ++ k ++ "')"))
  | VNull => Throw (TypeError ("Cannot read properties of null (reading '" ++ k ++ "')"))
  | _ => Ok (get_member v k)
  end.

(** [k in v] on an object *)
Fixpoint has_property (k : string) (v : jsval) : bool :=
  match v with
  | VObj p ms =>
      match lookup_member k ms with
      | Some _ => true
      | None => match p with ProtoValue o => has_property k o | _ => false end
      end
  | _ => false
  end.

(** Where the search for a method ends when no data member shadows it. *)
Inductive chain_end : Type :=
| Shadowed                 (* a data member of that name: not callable *)
| AtObject                 (* %Object.prototype% *)
| AtNull
| AtArray (elems : list jsval)
| AtDate.

Fixpoint find_method (k : string) (v : jsval) : chain_end :=
  match v with
  | VObj p ms =>
      match lookup_member k ms with
      | Some _ => Shadowed
      | None =>
          match p with
          | ObjectPrototype => AtObject
          | NullPrototype => AtNull
          | ProtoValue o => find_method k o
          end
      end
  | VArr l => AtArray l
  | VDate _ => AtDate
  | _ => AtObject
  end.

(** Does ToPrimitive(v) throw?  Values that come from JSON text hold no
    function, so a member named toString or valueOf hides the inherited
    method and the conversion of that object fails.  (Where an array is the
    prototype of an object, its join runs over the elements of the array;
    members of the object that shadow length or an index are not followed.) *)
Fixpoint toPrimitive_throws (v : jsval) : bool :=
  let elem_throws (x : jsval) :=
    match x with
    | VUndefined | VNull => false
    | _ => toPrimitive_throws x
    end in
  match v with
  | VArr l => existsb elem_throws l
  | VObj p ms =>
      match lookup_member "toString" ms with
      | Some _ => true
      | None =>
          match p with
          | ObjectPrototype => false
          | NullPrototype => true
          | ProtoValue o =>
              match find_method "toString" o with
              | Shadowed | AtNull | AtDate => true
              | AtObject => false
              | AtArray _ =>
                  match find_method "join" v with
                  | Shadowed => false
                  | _ => toPrimitive_throws o
                  end
              end
          end
      end
  | _ => false
  end.

Definition toPrimitive_error : jsval :=
  TypeError "Cannot convert object to primitive value".

(** [new Date(v)].  A Date is kept as the argument it was built from: the
    copy of a Date is that Date, and any other argument is first converted
    to a primitive. *)
Definition new_Date (v : jsval) : result jsval :=
  match v with
  | VDate a => Ok (VDate a)
  | _ => if toPrimitive_throws v then Throw toPrimitive_error else Ok (VDate v)
  end.

(** [new Date()] when the system clock reads [t] milliseconds. *)
Definition Date_at (t : Z) : jsval := VDate (VNum (Z2num t)).

(** [parseInt(v, 10)]: the argument is converted to a string first.  The
    string of undefined, null, a boolean, a Date or an object starts with a
    letter or a bracket; the string of an array starts with the string of
    its first element, followed by a comma. *)
Fixpoint parseInt (v : jsval) : number :=
  match v with
  | VStr s => parseInt_string s
  | VNum x => parseInt_string (str (Number_toString x))
  | VArr (x :: _) => parseInt x
  | _ => NaN
  end.

Definition parseInt10 (v : jsval) : result jsval :=
  if toPrimitive_throws v then Throw toPrimitive_error else Ok (VNum (parseInt v)).

(** * JSON.parse *)

Definition json_ws (c : ascii) : bool :=
  let n := nat_of_ascii c in
  ((n =? 9) || (n =? 10) || (n =? 13) || (n =? 32))%nat.

Fixpoint skip_ws (s : list ascii) : list ascii :=
  match s with
  | c :: r => if json_ws c then skip_ws r else s
  | [] => []
  end.

Definition hex_val (c : ascii) : option Z :=
  let n := Z.of_nat (nat_of_ascii c) in
  if (48 <=? n) && (n <=? 57) then Some (n - 48)
  else if (65 <=? n) && (n <=? 70) then Some (n - 55)
  else if (97 <=? n) && (n <=? 102) then Some (n - 87)
  else None.

Definition hex4 (a b c d : ascii) : option Z :=
  match hex_val a, hex_val b, hex_val c, hex_val d with
  | Some x, Some y, Some z, Some w => Some (((x * 16 + y) * 16 + z) * 16 + w)
  | _, _, _, _ => None
  end.

Definition dquote : ascii := byte 34.
Definition backslash : ascii := byte 92.

Definition zbyte (z : Z) : ascii := ascii_of_nat (Z.to_nat z).

(** UTF-8 bytes of a code point (a lone surrogate is written out the same way). *)
Definition utf8 (cp : Z) : list ascii :=
  if cp <? 128 then [zbyte cp]
  else if cp <? 2048 then [zbyte (192 + cp / 64); zbyte (128 + cp mod 64)]
  else if cp <? 65536 then
    [zbyte (224 + cp / 4096); zbyte (128 + (cp / 64) mod 64); zbyte (128 + cp mod 64)]
  else
    [zbyte (240 + cp / 262144); zbyte (128 + (cp / 4096) mod 64);
     zbyte (128 + (cp / 64) mod 64); zbyte (128 + cp mod 64)].

Definition is_high_surrogate (u : Z) : bool := (55296 <=? u) && (u <=? 56319).
Definition is_low_surrogate (u : Z) : bool := (56320 <=? u) && (u <=? 57343).

(** The characters of a string literal after its opening quote. *)
Fixpoint json_string (s : list ascii) (acc : list ascii) {struct s} :
  option (list ascii * list ascii) :=
  match s with
  | [] => None
  | c :: r =>
      if Ascii.eqb c dquote then Some (rev acc, r)
      else if Ascii.eqb c backslash then
        match r with
        | [] => None
        | e :: r1 =>
            let simple (b : ascii) := json_string r1 (b :: acc) in
            if Ascii.eqb e dquote then simple dquote
            else if Ascii.eqb e backslash then simple backslash
            else if Ascii.eqb e "/" then simple "/"%char
            else if Ascii.eqb e "b" then simple (byte 8)
            else if Ascii.eqb e "f" then simple (byte 12)
            else if Ascii.eqb e "n" then simple (byte 10)
            else if Ascii.eqb e "r" then simple (byte 13)
            else if Ascii.eqb e "t" then simple (byte 9)
            else if Ascii.eqb e "u" then
              match r1 with
              | h1 :: h2 :: h3 :: h4 :: r2 =>
                  match hex4 h1 h2 h3 h4 with
                  | None => None
                  | Some u =>
                      let single := json_string r2 (rev (utf8 u) ++ acc) in
                      if is_high_surrogate u then
                        match r2 with
                        | b1 :: b2 :: g1 :: g2 :: g3 :: g4 :: r3 =>
                            if Ascii.eqb b1 backslash && Ascii.eqb b2 "u" then
                              match hex4 g1 g2 g3 g4 with
                              | Some w =>
                                  if is_low_surrogate w then
                                    json_string r3
                                      (rev (utf8 (65536 + (u - 55296) * 1024 + (w - 56320))) ++ acc)
                                  else single
                              | None => single
                              end
                            else single
                        | _ => single
                        end
                      else single
                  end
              | _ => None
              end
            else None
        end
      else if (nat_of_ascii c <? 32)%nat then None
      else json_string r (c :: acc)
  end.

Definition json_number (s : list ascii) : option (number * list ascii) :=
  let '(neg, s0) := match s with
                    | c :: r => if Ascii.eqb c "-" then (true, r) else (false, s)
                    | [] => (false, s)
                    end in
  let ip := take_digits s0 in
  let s1 := drop (length ip) s0 in
  let leading_zero := match ip with
                      | c :: _ :: _ => Ascii.eqb c "0"
                      | _ => false
                      end in
  let '(fp, s2, frac_ok) :=
    match s1 with
    | c :: r => if Ascii.eqb c "."
                then let f := take_digits r in (f, drop (length f) r, negb (length f =? 0)%nat)
                else ([], s1, true)
    | [] => ([], s1, true)
    end in
  let '(ex, s3, exp_ok) :=
    match s2 with
    | c :: r =>
        if Ascii.eqb c "e" || Ascii.eqb c "E" then
          let '(eneg, r1) := match r with
                             | d :: r' => if Ascii.eqb d "-" then (true, r')
                                          else if Ascii.eqb d "+" then (false, r')
                                          else (false, r)
                             | [] => (false, r)
                             end in
          let ed := take_digits r1 in
          (cond_Zopp eneg (digits_value ed), drop (length ed) r1, negb (length ed =? 0)%nat)
        else (0, s2, true)
    | [] => (0, s2, true)
    end in
  if (length ip =? 0)%nat || leading_zero || negb frac_ok || negb exp_ok then None
  else Some (dec2num neg (digits_value (ip ++ fp)) (ex - Z.of_nat (length fp)), s3).

(** A JSON value at the head of the text.  Every call uses up one unit of
    fuel; a text of n characters needs fewer than 2n + 2. *)
Fixpoint json_value (fuel : nat) (s : list ascii) {struct fuel} :
  option (jsval * list ascii) :=
  match fuel with
  | O => None
  | S f =>
      match skip_ws s with
      | [] => None
      | c :: r =>
          if Ascii.eqb c "n" then
            option_map (fun r' => (VNull, r')) (strip_prefix (chars "ull") r)
          else if Ascii.eqb c "t" then
            option_map (fun r' => (VBool true, r')) (strip_prefix (chars "rue") r)
          else if Ascii.eqb c "f" then
            option_map (fun r' => (VBool false, r')) (strip_prefix (chars "alse") r)
          else if Ascii.eqb c dquote then
            option_map (fun '(k, r') => (VStr (str k), r')) (json_string r [])
          else if Ascii.eqb c "[" then
            match skip_ws r with
            | d :: r' => if Ascii.eqb d "]" then Some (VArr [], r')
                         else json_elements f (skip_ws r) []
            | [] => None
            end
          else if Ascii.eqb c "{" then
            match skip_ws r with
            | d :: r' => if Ascii.eqb d "}" then Some (VObj ObjectPrototype [], r')
                         else json_members f (skip_ws r) []
            | [] => None
            end
          else
            option_map (fun '(x, r') => (VNum x, r')) (json_number (c :: r))
      end
  end
with json_elements (fuel : nat) (s : list ascii) (acc : list jsval) {struct fuel} :
  option (jsval * list ascii) :=
  match fuel with
  | O => None
  | S f =>
      match json_value f s with
      | None => None
      | Some (v, r) =>
          match skip_ws r with
          | c :: r' => if Ascii.eqb c "," then json_elements f r' (v :: acc)
                       else if Ascii.eqb c "]" then Some (VArr (rev (v :: acc)), r')
                       else None
          | [] => None
          end
      end
  end
with json_members (fuel : nat) (s : list ascii) (acc : list (string * jsval)) {struct fuel} :
  option (jsval * list ascii) :=
  match fuel with
  | O => None
  | S f =>
      match skip_ws s with
      | q :: r0 =>
          if Ascii.eqb q dquote then
            match json_string r0 [] with
            | None => None
            | Some (k, r1) =>
                match skip_ws r1 with
                | c :: r2 =>
                    if Ascii.eqb c ":" then
                      match json_value f r2 with
                      | None => None
                      | Some (v, r3) =>
                          let acc' := set_member (str k) v acc in
                          match skip_ws r3 with
                          | d :: r4 => if Ascii.eqb d "," then json_members f r4 acc'
                                       else if Ascii.eqb d "}"
                                       then Some (VObj ObjectPrototype acc', r4)
                                       else None
                          | [] => None
                          end
                      end
                    else None
                | [] => None
                end
            end
          else None
      | [] => None
      end
  end.

(** [JSON.parse(text)].  Every object it builds is an ordinary object; a
    repeated member name keeps its first place and its last value.  (The
    members stay in the order of the text.) *)
Definition JSON_parse (text : string) : result jsval :=
  let s := chars text in
  match json_value (2 * length s + 2) s with
  | Some (v, r) =>
      match skip_ws r with
      | [] => Ok v
      | _ :: _ => Throw (SyntaxError "Unexpected non-whitespace character after JSON")
      end
  | None => Throw (SyntaxError "Unexpected token in JSON")
  end.

(** * The seed script: MongoDB Extended JSON helpers *)

(** Does assigning to [__proto__] on an object whose prototype is [p] reach
    the accessor of %Object.prototype%? *)
Definition reaches_proto_setter (p : prototype jsval) : bool :=
  match p with
  | ObjectPrototype => true
  | NullPrototype => false
  | ProtoValue o => match find_method "__proto__" o with
                    | Shadowed | AtNull => false
                    | _ => true
                    end
  end.

(** [newObj[key] = x] on an object built by the script.  Under the name
    [__proto__] the assignment runs the inherited setter: an object or null
    becomes the prototype, anything else is dropped. *)
Definition assign (newObj : jsval) (key : string) (x : jsval) : jsval :=
  match newObj with
  | VObj p ms =>
      if String.eqb key "__proto__" && reaches_proto_setter p then
        match x with
        | VNull => VObj NullPrototype ms
        | VDate _ | VArr _ | VObj _ _ => VObj (ProtoValue x) ms
        | _ => newObj
        end
      else VObj p (set_member key x ms)
  | _ => newObj
  end.

Fixpoint parseMongoDBExtendedJSON (value : jsval) : result jsval :=
  if truthy value && typeof_object value then
    (* { "$date": "2024-10-04T19:48:57.118Z" } *)
    if has_property "$date" value then
      new_Date (get_member value "$date")
    (* { "$numberLong": "1728074791" } *)
    else if has_property "$numberLong" value then
      parseInt10 (get_member value "$numberLong")
    (* { "$numberInt": "5" } *)
    else if has_property "$numberInt" value then
      parseInt10 (get_member value "$numberInt")
    (* { "$oid": "6915278f2ea0c14829bb978a" } *)
    else if has_property "$oid" value then
      Ok (get_member value "$oid")
    else
      match value with
      | VArr elems =>
          (* value.map(parseMongoDBExtendedJSON) *)
          result_map VArr
            ((fix map (l : list jsval) : result (list jsval) :=
                match l with
                | [] => Ok []
                | x :: r =>
                    result_bind (parseMongoDBExtendedJSON x) (fun y =>
                    result_bind (map r) (fun ys => Ok (y :: ys)))
                end) elems)
      | VObj _ members =>
          (* for (const key in value) if own: newObj[key] = parse(value[key]) *)
          (fix each (ms : list (string * jsval)) (newObj : jsval) :
             result jsval :=
             match ms with
             | [] => Ok newObj
             | (key, x) :: r =>
                 result_bind (parseMongoDBExtendedJSON x) (fun y =>
                 each r (assign newObj key y))
             end) members (VObj ObjectPrototype [])
      | _ => Ok (VObj ObjectPrototype [])
      end
  else Ok value.

(** * The world of the seed script *)

(** A path names nothing, a file that can be read, or something that exists
    and cannot be read as a file (a directory, a file without permission). *)
Inductive file : Type :=
| Readable (content : string)
| Unreadable (error : jsval).

(** A template literal once evaluated: text, and the strings of the values
    interpolated in it (kept as the value when it is not a string). *)
Inductive piece : Type :=
| Lit (s : string)
| Interp (v : jsval).

Inductive level : Type := Log | Warn | Error.

Record line : Type := Line {
  line_level : level;
  line_text : list piece;
  line_value : option jsval        (* the error passed as a second argument *)
}.

(** A call to the driver, with what it sent and whether it went through. *)
Inductive driver_event : Type :=
| EvConnect (ok : bool)
| EvUpdateOne (collection : string * string) (filter set : list (string * jsval)) (ok : bool)
| EvClose.

(** A stored document: its fields and their values. *)
Abbreviation document := (gmap string jsval).

(** What the script cannot know of the driver and the server it talks to:
    the connection strings with a valid scheme that the driver still rejects,
    the database names without a dot that it rejects, whether a field (absent
    or present) satisfies an expression of query operators, and whether two
    Dates are the same instant. *)
Record mongodb : Type := MongoDB {
  rejects_url : string -> option jsval;
  rejects_name : string -> option jsval;
  operator_matches : list (string * jsval) -> option jsval -> bool;
  same_instant : jsval -> jsval -> bool
}.

Record world : Type := World {
  env : gmap string string;                        (* process.env *)
  files : gmap string file;                        (* the file system *)
  clock : nat -> Z;                                (* the n-th reading of the system clock *)
  clock_reads : nat;
  faults : nat -> option jsval;                    (* the error the n-th driver call meets, if any *)
  store : gmap (string * string) (list document);  (* database, collection |-> documents *)
  trace : list driver_event;                       (* the driver calls made so far *)
  console : list line;
  exit_code : option Z;
  mongo : mongodb
}.

(** Programs: state passing, with exceptions. *)
Definition ST (S A : Type) : Type := S -> result A * S.

Definition ret {S A} (a : A) : ST S A := fun w => (Ok a, w).
Definition throw {S A} (e : jsval) : ST S A := fun w => (Throw e, w).
Definition lift {S A} (r : result A) : ST S A := fun w => (r, w).

Definition bind {S A B} (m : ST S A) (f : A -> ST S B) : ST S B :=
  fun w => match m w with
           | (Ok a, w') => f a w'
           | (Throw e, w') => (Throw e, w')
           end.

#[global] Instance ST_ret {S} : MRet (ST S) := @ret S.
#[global] Instance ST_bind {S} : MBind (ST S) := fun A B f m => bind m f.

(** [try { body } catch (error) { handler }] *)
Definition try_catch {S A} (body : ST S A) (handler : jsval -> ST S A) : ST S A :=
  fun w => match body w with
           | (Ok a, w') => (Ok a, w')
           | (Throw e, w') => handler e w'
           end.

(** [try { body } finally { cleanup }] *)
Definition try_finally {S A} (body : ST S A) (cleanup : ST S unit) : ST S A :=
  fun w => match body w with
           | (r, w') => match cleanup w' with
                        | (Ok _, w'') => (r, w'')
                        | (Throw e, w'') => (Throw e, w'')
                        end
           end.

(** [for (const x of xs) { acc = body x acc }] *)
Fixpoint for_of {S A B} (xs : list A) (acc : B) (body : A -> B -> ST S B) : ST S B :=
  match xs with
  | [] => ret acc
  | x :: rest => acc' ← body x acc; for_of rest acc' body
  end.

Abbreviation M := (ST world).

Definition set_console (c : list line) (w : world) : world :=
  World (env w) (files w) (clock w) (clock_reads w) (faults w) (store w) (trace w) c
        (exit_code w) (mongo w).

Definition set_clock_reads (n : nat) (w : world) : world :=
  World (env w) (files w) (clock w) n (faults w) (store w) (trace w) (console w)
        (exit_code w) (mongo w).

Definition set_store (s : gmap (string * string) (list document)) (w : world) : world :=
  World (env w) (files w) (clock w) (clock_reads w) (faults w) s (trace w) (console w)
        (exit_code w) (mongo w).

Definition set_trace (t : list driver_event) (w : world) : world :=
  World (env w) (files w) (clock w) (clock_reads w) (faults w) (store w) t (console w)
        (exit_code w) (mongo w).

Definition set_exit_code (c : Z) (w : world) : world :=
  World (env w) (files w) (clock w) (clock_reads w) (faults w) (store w) (trace w)
        (console w) (Some c) (mongo w).

Definition print (l : level) (text : list piece) (v : option jsval) : M unit :=
  fun w => (Ok tt, set_console (console w ++ [Line l text v]) w).

Definition console_log (text : list piece) : M unit := print Log text None.
Definition console_warn (text : list piece) : M unit := print Warn text None.
Definition console_error (text : list piece) (e : jsval) : M unit := print Error text (Some e).

(** The string of a value inside a template literal. *)
Definition interpolate (v : jsval) : result piece :=
  match v with
  | VStr s => Ok (Lit s)
  | _ => if toPrimitive_throws v then Throw toPrimitive_error else Ok (Interp v)
  end.

Definition count (n : nat) : piece := Interp (VNum (Z2num (Z.of_nat n))).

(** [new Date()] *)
Definition Date_now : M jsval :=
  fun w => (Ok (Date_at (clock w (clock_reads w))), set_clock_reads (S (clock_reads w)) w).

Definition fs_existsSync (path : string) : M bool :=
  fun w => (Ok (bool_decide (is_Some (files w !! path))), w).

Definition ENOENT (path : string) : jsval :=
  mkError "Error" ("ENOENT: no such file or directory, open '" ++ path ++ "'").

Definition fs_readFileSync (path : string) : M string :=
  fun w => match files w !! path with
           | Some (Readable content) => (Ok content, w)
           | Some (Unreadable e) => (Throw e, w)
           | None => (Throw (ENOENT path), w)
           end.

Definition path_join (dir name : string) : string := dir ++ "/" ++ name.

Definition JSON_DIR : string :=
  "/Users/arnob_t78/Papers/Project Doc/db-migration/employee-management".

Fixpoint mapM {A B} (f : A -> result B) (l : list A) : result (list B) :=
  match l with
  | [] => Ok []
  | x :: r => result_bind (f x) (fun y => result_bind (mapM f r) (fun ys => Ok (y :: ys)))
  end.

Definition parseJSON (filePath : string) : M (list jsval) :=
  found ← fs_existsSync filePath;
  if negb found then
    console_warn [Lit "⚠️  JSON file not found: "; Lit filePath];;
    ret []
  else
    content ← fs_readFileSync filePath;
    if negb (truthy (VStr (trim content))) then
      console_warn [Lit "⚠️  JSON file is empty: "; Lit filePath];;
      ret []
    else
      try_catch
        (data ← lift (JSON_parse content);
         let array := match data with VArr elems => elems | _ => [data] end in
         (* Parse MongoDB extended JSON format *)
         lift (mapM parseMongoDBExtendedJSON array))
        (fun error =>
           console_error [Lit "❌ Error parsing JSON file "; Lit filePath; Lit ":"] error;;
           ret []).

(** * The MongoDB driver *)

(** What the driver writes for a value: undefined is written as null, and of
    an object only its own members. *)
Fixpoint toBSON (v : jsval) : jsval :=
  match v with
  | VUndefined => VNull
  | VArr elems => VArr (map toBSON elems)
  | VObj _ members =>
      VObj ObjectPrototype
        ((fix each (ms : list (string * jsval)) : list (string * jsval) :=
            match ms with
            | [] => []
            | (k, x) :: r => (k, toBSON x) :: each r
            end) members)
  | _ => v
  end.

Definition serialize (fields : list (string * jsval)) : list (string * jsval) :=
  map (fun '(k, v) => (k, toBSON v)) fields.

(** A field that a document lacks reads as null in a filter. *)
Definition field (d : document) (k : string) : jsval := default VNull (d !! k).

(** An equality filter [{ k: v, ... }]. *)
Definition matches (filter : list (string * jsval)) (d : document) : bool :=
  forallb (fun '(k, v) => value_eqb (field d k) v) filter.

(** [$set] *)
Definition apply_set (set : list (string * jsval)) (d : document) : document :=
  list_to_map set ∪ d.

(** [$set] with [upsert: true]: the first document that matches the filter
    is updated; when none matches, a document is made of the fields of the
    filter, updated and inserted. *)
Fixpoint upsert (filter set : list (string * jsval)) (docs : list document) :
  list document :=
  match docs with
  | [] => [apply_set set (list_to_map filter)]
  | d :: rest => if matches filter d then apply_set set d :: rest
                 else d :: upsert filter set rest
  end.

Definition documents (w : world) (collection : string * string) : list document :=
  default [] (store w !! collection).

Definition driver_call (ev : bool -> driver_event) (effect : world -> world) : M unit :=
  fun w =>
    match faults w (length (trace w)) with
    | Some e => (Throw e, set_trace (trace w ++ [ev false]) w)
    | None => (Ok tt, effect (set_trace (trace w ++ [ev true]) w))
    end.

(** [collection.updateOne(filter, { $set: set }, { upsert: true })] *)
Definition updateOne (collection : string * string) (filter set : list (string * jsval)) :
  M unit :=
  driver_call (EvUpdateOne collection (serialize filter) (serialize set))
    (fun w => set_store (<[collection := upsert (serialize filter) (serialize set)
                                                (documents w collection)]> (store w)) w).

(** [client.connect()] *)
Definition client_connect : M unit := driver_call EvConnect (fun w => w).

(** [client.close()] *)
Definition client_close : M unit :=
  fun w => (Ok tt, set_trace (trace w ++ [EvClose]) w).

(** * The seed functions *)

(** The initialiser of a field [f] of a [$set] literal, out of the record [r]. *)
Inductive init : Type :=
| Member                     (* f: r.f *)
| MemberOr (d : jsval)       (* f: r.f || d *)
| DateOrNull                 (* f: r.f ? new Date(r.f) : null *)
| DateOrNow                  (* f: r.f ? new Date(r.f) : new Date() *)
| DefinedOr (d : jsval).     (* f: r.f !== undefined ? r.f : d *)

Definition OrNull : init := MemberOr VNull.
Definition OrEmpty : init := MemberOr (VArr []).
Definition OrDraft : init := MemberOr (VStr "draft").

Definition is_undefined (v : jsval) : bool :=
  match v with VUndefined => true | _ => false end.

Definition eval_init (r : jsval) (f : string) (i : init) : M jsval :=
  v ← lift (get r f);
  match i with
  | Member => ret v
  | MemberOr d => ret (if truthy v then v else d)
  | DateOrNull => if truthy v then lift (new_Date v) else ret VNull
  | DateOrNow => if truthy v then lift (new_Date v) else Date_now
  | DefinedOr d => ret (if negb (is_undefined v) then v else d)
  end.

(** An object literal whose fields are initialised out of [r], in order. *)
Fixpoint literal (r : jsval) (fields : list (string * init)) : M (list (string * jsval)) :=
  match fields with
  | [] => ret []
  | (f, i) :: rest =>
      v ← eval_init r f i;
      vs ← literal r rest;
      ret ((f, v) :: vs)
  end.

(** The [$set] literal of [seedCounter]. *)
Definition Counter_set : list (string * init) :=
  [
    ("_id", Member);
    ("key", Member);
    ("value", Member);
    ("createdAt", DateOrNow);
    ("updatedAt", DateOrNow)
  ].

Definition seedCounter (db : string) : M unit :=
  console_log [Lit "🌱 Seeding Counter..."];;
  counters ← parseJSON (path_join JSON_DIR "Counter.json");
  if (length counters =? 0)%nat then
    console_log [Lit "⚠️  No counters to seed"]
  else
    let collection := (db, "Counter") in
    successCount ← for_of counters 0%nat (fun counter successCount =>
      try_catch
        (filter ← literal counter [("key", Member)];
         set ← literal counter Counter_set;
         updateOne collection filter set;;
         ret (S successCount))
        (fun error =>
           key ← lift (get counter "key");
           text ← lift (interpolate key);
           console_error [Lit "❌ Error seeding counter "; text; Lit ":"] error;;
           ret successCount));
    console_log [Lit "✅ Seeded "; count successCount; Lit "/"; count (length counters);
                 Lit " counters"].

(** The [$set] literal of [seedDepartmentParent]. *)
Definition DepartmentParent_set : list (string * init) :=
  [
    ("_id", Member);
    ("departmentId", Member);
    ("departmentName", Member);
    ("departmentLogo", OrNull);
    ("description", OrNull);
    ("leadContact", OrNull);
    ("leadEmail", OrNull);
    ("leadPhone", OrNull);
    ("createdAt", DateOrNow);
    ("updatedAt", DateOrNow)
  ].

Definition seedDepartmentParent (db : string) : M unit :=
  console_log [Lit "🌱 Seeding DepartmentParent..."];;
  departments ← parseJSON (path_join JSON_DIR "DepartmentParent.json");
  if (length departments =? 0)%nat then
    console_log [Lit "⚠️  No department parents to seed"]
  else
    let collection := (db, "DepartmentParent") in
    successCount ← for_of departments 0%nat (fun dept successCount =>
      try_catch
        (filter ← literal dept [("departmentId", Member)];
         set ← literal dept DepartmentParent_set;
         updateOne collection filter set;;
         ret (S successCount))
        (fun error =>
           departmentId ← lift (get dept "departmentId");
           text ← lift (interpolate departmentId);
           console_error [Lit "❌ Error seeding department parent "; text; Lit ":"] error;;
           ret successCount));
    console_log [Lit "✅ Seeded "; count successCount; Lit "/"; count (length departments);
                 Lit " department parents"].

(** The [$set] literal of [seedDepartmentChild]. *)
Definition DepartmentChild_set : list (string * init) :=
  [
    ("_id", Member);
    ("childDeptId", Member);
    ("departmentName", Member);
    ("parentDeptId", Member);
    ("description", OrNull);
    ("createdAt", DateOrNow);
    ("updatedAt", DateOrNow)
  ].

Definition seedDepartmentChild (db : string) : M unit :=
  console_log [Lit "🌱 Seeding DepartmentChild..."];;
  departments ← parseJSON (path_join JSON_DIR "DepartmentChild.json");
  if (length departments =? 0)%nat then
    console_log [Lit "⚠️  No department children to seed"]
  else
    let collection := (db, "DepartmentChild") in
    successCount ← for_of departments 0%nat (fun dept successCount =>
      try_catch
        (filter ← literal dept [("childDeptId", Member)];
         set ← literal dept DepartmentChild_set;
         updateOne collection filter set;;
         ret (S successCount))
        (fun error =>
           childDeptId ← lift (get dept "childDeptId");
           text ← lift (interpolate childDeptId);
           console_error [Lit "❌ Error seeding department child "; text; Lit ":"] error;;
           ret successCount));
    console_log [Lit "✅ Seeded "; count successCount; Lit "/"; count (length departments);
                 Lit " department children"].

(** The [$set] literal of [seedEmployee]. *)
Definition Employee_set : list (string * init) :=
  [
    ("_id", Member);
    ("employeeId", Member);
    ("employeeName", Member);
    ("contactNo", OrNull);
    ("emailId", OrNull);
    ("deptId", OrNull);
    ("department", OrNull);
    ("password", OrNull);
    ("gender", OrNull);
    ("role", OrNull);
    ("title", OrNull);
    ("avatarUrl", OrNull);
    ("location", OrNull);
    ("timezone", OrNull);
    ("employmentType", OrNull);
    ("managerId", OrNull);
    ("hireDate", DateOrNull);
    ("bio", OrNull);
    ("about", OrNull);
    ("notes", OrNull);
    ("tags", OrEmpty);
    ("skills", OrEmpty);
    ("certifications", OrEmpty);
    ("interests", OrEmpty);
    ("languages", OrEmpty);
    ("socialLinks", OrNull);
    ("workPreferences", OrNull);
    ("availability", OrNull);
    ("preferences", OrNull);
    ("performanceSnapshot", OrNull);
    ("documents", OrNull);
    ("customFields", OrNull);
    ("createdAt", DateOrNow);
    ("updatedAt", DateOrNow);
    ("isActive", DefinedOr (VBool true));
    ("lastActiveAt", DateOrNull)
  ].

Definition seedEmployee (db : string) : M unit :=
  console_log [Lit "🌱 Seeding Employee..."];;
  employees ← parseJSON (path_join JSON_DIR "Employee.json");
  if (length employees =? 0)%nat then
    console_log [Lit "⚠️  No employees to seed"]
  else
    let collection := (db, "Employee") in
    successCount ← for_of employees 0%nat (fun emp successCount =>
      try_catch
        (filter ← literal emp [("employeeId", Member)];
         set ← literal emp Employee_set;
         updateOne collection filter set;;
         ret (S successCount))
        (fun error =>
           employeeId ← lift (get emp "employeeId");
           text ← lift (interpolate employeeId);
           console_error [Lit "❌ Error seeding employee "; text; Lit ":"] error;;
           ret successCount));
    console_log [Lit "✅ Seeded "; count successCount; Lit "/"; count (length employees);
                 Lit " employees"].

(** The [$set] literal of [seedProject]. *)
Definition Project_set : list (string * init) :=
  [
    ("_id", Member);
    ("projectId", Member);
    ("projectName", Member);
    ("clientName", OrNull);
    ("clientIndustry", OrNull);
    ("startDate", DateOrNull);
    ("endDate", DateOrNull);
    ("leadByEmpId", OrNull);
    ("sponsorEmpId", OrNull);
    ("contactPerson", OrNull);
    ("contactNo", OrNull);
    ("emailId", OrNull);
    ("contactTitle", OrNull);
    ("contactNotes", OrNull);
    ("overview", OrNull);
    ("scope", OrNull);
    ("successMetrics", OrNull);
    ("status", OrDraft);
    ("statusReason", OrNull);
    ("statusHistory", OrNull);
    ("timeline", OrNull);
    ("milestones", OrNull);
    ("categories", OrEmpty);
    ("tags", OrEmpty);
    ("focusAreas", OrEmpty);
    ("blockers", OrNull);
    ("risks", OrNull);
    ("riskRegister", OrNull);
    ("budget", OrNull);
    ("financials", OrNull);
    ("resourcesPlan", OrNull);
    ("readinessChecklist", OrNull);
    ("readinessScore", OrNull);
    ("approvalStatus", OrDraft);
    ("approvalRequestedAt", DateOrNull);
    ("approvalRequestedBy", OrNull);
    ("approvalResolvedAt", DateOrNull);
    ("approvalResolvedBy", OrNull);
    ("approvalReason", OrNull);
    ("approvalNotes", OrNull);
    ("reviewerComments", OrNull);
    ("progress", OrNull);
    ("health", OrNull);
    ("documents", OrNull);
    ("externalLinks", OrNull);
    ("aiGeneratedInsights", OrNull);
    ("cmsContentRefs", OrEmpty);
    ("lastSyncedAt", DateOrNull);
    ("stageGate", OrNull);
    ("governance", OrNull);
    ("communicationPlan", OrNull);
    ("createdAt", DateOrNow);
    ("updatedAt", DateOrNow);
    ("archivedAt", DateOrNull)
  ].

Definition seedProject (db : string) : M unit :=
  console_log [Lit "🌱 Seeding Project..."];;
  projects ← parseJSON (path_join JSON_DIR "Project.json");
  if (length projects =? 0)%nat then
    console_log [Lit "⚠️  No projects to seed"]
  else
    let collection := (db, "Project") in
    successCount ← for_of projects 0%nat (fun project successCount =>
      try_catch
        (filter ← literal project [("projectId", Member)];
         set ← literal project Project_set;
         updateOne collection filter set;;
         ret (S successCount))
        (fun error =>
           projectId ← lift (get project "projectId");
           text ← lift (interpolate projectId);
           console_error [Lit "❌ Error seeding project "; text; Lit ":"] error;;
           ret successCount));
    console_log [Lit "✅ Seeded "; count successCount; Lit "/"; count (length projects);
                 Lit " projects"].

(** The [$set] literal of [seedProjectEmployee]. *)
Definition ProjectEmployee_set : list (string * init) :=
  [
    ("_id", Member);
    ("empProjectId", Member);
    ("projectId", Member);
    ("empId", Member);
    ("assignedDate", DateOrNull);
    ("role", OrNull);
    ("isActive", DefinedOr (VBool true));
    ("allocationPct", OrNull);
    ("billable", DefinedOr VNull);
    ("billingRate", OrNull);
    ("costRate", OrNull);
    ("notes", OrNull);
    ("responsibilities", OrEmpty);
    ("skillsApplied", OrEmpty);
    ("toolsUsed", OrEmpty);
    ("schedule", OrNull);
    ("contribution", OrNull);
    ("createdAt", DateOrNow);
    ("updatedAt", DateOrNow);
    ("unassignedAt", DateOrNull)
  ].

Definition seedProjectEmployee (db : string) : M unit :=
  console_log [Lit "🌱 Seeding ProjectEmployee..."];;
  projectEmployees ← parseJSON (path_join JSON_DIR "ProjectEmployee.json");
  if (length projectEmployees =? 0)%nat then
    console_log [Lit "⚠️  No project employees to seed"]
  else
    let collection := (db, "ProjectEmployee") in
    successCount ← for_of projectEmployees 0%nat (fun projEmp successCount =>
      try_catch
        (filter ← literal projEmp [("empProjectId", Member)];
         set ← literal projEmp ProjectEmployee_set;
         updateOne collection filter set;;
         ret (S successCount))
        (fun error =>
           empProjectId ← lift (get projEmp "empProjectId");
           text ← lift (interpolate empProjectId);
           console_error [Lit "❌ Error seeding project employee "; text; Lit ":"] error;;
           ret successCount));
    console_log [Lit "✅ Seeded "; count successCount; Lit "/"; count (length projectEmployees);
                 Lit " project employees"].

(** The six seed functions differ in their texts, their file, their
    collection, their business key and their [$set] literal only. *)
Record step : Type := Step {
  step_start : string;
  step_file : string;
  step_none : string;
  step_collection : string;
  step_key : string;
  step_set : list (string * init);
  step_failed : string;
  step_seeded : string;
  step_what : string
}.

(** One turn of the loop of a seed function. *)
Definition seed_record (s : step) (collection : string * string) (r : jsval)
  (successCount : nat) : M nat :=
  try_catch
    (filter ← literal r [(step_key s, Member)];
     set ← literal r (step_set s);
     updateOne collection filter set;;
     ret (S successCount))
    (fun error =>
       key ← lift (get r (step_key s));
       text ← lift (interpolate key);
       console_error [Lit (step_failed s); text; Lit ":"] error;;
       ret successCount).

Definition seed (s : step) (db : string) : M unit :=
  console_log [Lit (step_start s)];;
  records ← parseJSON (path_join JSON_DIR (step_file s));
  if (length records =? 0)%nat then
    console_log [Lit (step_none s)]
  else
    let collection := (db, step_collection s) in
    successCount ← for_of records 0%nat (seed_record s collection);
    console_log [Lit (step_seeded s); count successCount; Lit "/"; count (length records);
                 Lit (step_what s)].

Definition Counter_step : step :=
  Step "🌱 Seeding Counter..." "Counter.json" "⚠️  No counters to seed" "Counter" "key" Counter_set
       "❌ Error seeding counter " "✅ Seeded " " counters".

Definition DepartmentParent_step : step :=
  Step "🌱 Seeding DepartmentParent..." "DepartmentParent.json" "⚠️  No department parents to seed" "DepartmentParent" "departmentId" DepartmentParent_set
       "❌ Error seeding department parent " "✅ Seeded " " department parents".

Definition DepartmentChild_step : step :=
  Step "🌱 Seeding DepartmentChild..." "DepartmentChild.json" "⚠️  No department children to seed" "DepartmentChild" "childDeptId" DepartmentChild_set
       "❌ Error seeding department child " "✅ Seeded " " department children".

Definition Employee_step : step :=
  Step "🌱 Seeding Employee..." "Employee.json" "⚠️  No employees to seed" "Employee" "employeeId" Employee_set
       "❌ Error seeding employee " "✅ Seeded " " employees".

Definition Project_step : step :=
  Step "🌱 Seeding Project..." "Project.json" "⚠️  No projects to seed" "Project" "projectId" Project_set
       "❌ Error seeding project " "✅ Seeded " " projects".

Definition ProjectEmployee_step : step :=
  Step "🌱 Seeding ProjectEmployee..." "ProjectEmployee.json" "⚠️  No project employees to seed" "ProjectEmployee" "empProjectId" ProjectEmployee_set
       "❌ Error seeding project employee " "✅ Seeded " " project employees".

Definition steps : list step :=
  [Counter_step; DepartmentParent_step; DepartmentChild_step; Employee_step; Project_step;
   ProjectEmployee_step].

(** * main *)

Definition nl : string := String (byte 10) EmptyString.

(** The text after the last [sep] of [s]: [s.split(sep).pop()] *)
Fixpoint last_segment (sep : ascii) (s acc : list ascii) : list ascii :=
  match s with
  | [] => rev acc
  | c :: r => if Ascii.eqb c sep then last_segment sep r [] else last_segment sep r (c :: acc)
  end.

(** The text before the first [sep] of [s]: [s.split(sep)[0]] *)
Fixpoint first_segment (sep : ascii) (s : list ascii) : list ascii :=
  match s with
  | [] => []
  | c :: r => if Ascii.eqb c sep then [] else c :: first_segment sep r
  end.

(** [DATABASE_URL.split("/").pop()?.split("?")[0] || "employee_management_db"] *)
Definition database_name (DATABASE_URL : string) : string :=
  let name := str (first_segment "?" (last_segment "/" (chars DATABASE_URL) [])) in
  if truthy (VStr name) then name else "employee_management_db".

Definition main (DATABASE_URL : string) : M unit :=
  console_log [Lit ("🚀 Starting database seed..." ++ nl)];;
  try_finally
    (try_catch
       ((* Connect to MongoDB *)
        client_connect;;
        console_log [Lit ("✅ Connected to MongoDB" ++ nl)];;
        let dbName := database_name DATABASE_URL in
        let db := dbName in
        (* Seed in order to maintain relationships *)
        seedCounter db;;
        seedDepartmentParent db;;
        seedDepartmentChild db;;
        seedEmployee db;;
        seedProject db;;
        seedProjectEmployee db;;
        console_log [Lit (nl ++ "✨ Database seeded successfully!")])
       (fun error =>
          console_error [Lit "❌ Error seeding database:"] error;;
          throw error))
    client_close.

(** The script as a whole, once dotenv has filled in [process.env]. *)
Definition script : M unit :=
  fun w =>
    match env w !! "DATABASE_URL" with
    | Some DATABASE_URL =>
        if truthy (VStr DATABASE_URL) then
          try_catch (main DATABASE_URL)
            (fun error w' => (Ok tt, set_exit_code 1 (set_console (console w' ++ [Line Error [] (Some error)]) w'))) w
        else (Throw (mkError "Error" "DATABASE_URL environment variable is not set"), w)
    | None => (Throw (mkError "Error" "DATABASE_URL environment variable is not set"), w)
    end.

(** * The serverless entry point *)

(** What the entry point reads of the Node.js request. *)
Record request : Type := Request {
  url : jsval;
  method : jsval;
  headers : jsval
}.

(** The Node.js response.  [head] holds the status line and the headers once
    they have been written out; from then on they cannot change. *)
Record response : Type := Response {
  statusCode : Z;
  pending : list (string * string);
  head : option (Z * list (string * string));
  body : list (list piece);              (* the chunks written, in order *)
  finished : bool
}.

Record server : Type := Server {
  res : response;
  output : list line
}.

Abbreviation H := (ST server).

Definition server_log (text : list piece) (v : option jsval) (l : level) : H unit :=
  fun s => (Ok tt, Server (res s) (output s ++ [Line l text v])).

Definition update_res (f : response -> response) : H unit :=
  fun s => (Ok tt, Server (f (res s)) (output s)).

(** [res.statusCode = code] *)
Definition res_set_statusCode (code : Z) : H unit :=
  update_res (fun r => Response code (pending r) (head r) (body r) (finished r)).

Definition ERR_HTTP_HEADERS_SENT : jsval :=
  mkError "Error" "Cannot set headers after they are sent to the client".

Definition lower (s : string) : string :=
  str (map (fun c => let n := nat_of_ascii c in
                     if (65 <=? n)%nat && (n <=? 90)%nat then ascii_of_nat (n + 32) else c)
           (chars s)).

(** Header names are compared without regard to case. *)
Definition same_header (a b : string) : bool := String.eqb (lower a) (lower b).

Definition header (name : string) (hs : list (string * string)) : option string :=
  option_map snd (find (fun kv => same_header (fst kv) name) hs).

(** [res.setHeader(name, value)] *)
Definition res_setHeader (name value : string) : H unit :=
  fun s =>
    match head (res s) with
    | Some _ => (Throw ERR_HTTP_HEADERS_SENT, s)
    | None =>
        update_res (fun r => Response (statusCode r)
                                      (List.filter (fun kv => negb (same_header (fst kv) name)) (pending r)
                                         ++ [(name, value)])
                                      (head r) (body r) (finished r)) s
    end.

(** [res.end(data)]: writes the head out if it has not been yet, then the
    data; a response that has ended already takes nothing more. *)
Definition res_end (data : list piece) : H unit :=
  update_res (fun r =>
    if finished r then r
    else Response (statusCode r) (pending r)
                  (match head r with
                   | Some h => Some h
                   | None => Some (statusCode r, pending r)
                   end)
                  (body r ++ [data]) true).

Definition hex_digit (n : Z) : ascii :=
  if n <? 10 then zbyte (48 + n) else zbyte (87 + n).

(** QuoteJSONString *)
Definition json_quote (s : string) : string :=
  let escape (c : ascii) : list ascii :=
    let n := Z.of_nat (nat_of_ascii c) in
    if n =? 34 then [backslash; dquote]
    else if n =? 92 then [backslash; backslash]
    else if n =? 8 then [backslash; "b"%char]
    else if n =? 12 then [backslash; "f"%char]
    else if n =? 10 then [backslash; "n"%char]
    else if n =? 13 then [backslash; "r"%char]
    else if n =? 9 then [backslash; "t"%char]
    else if n <? 32 then
      [backslash; "u"%char; "0"%char; "0"%char; hex_digit (n / 16); hex_digit (n mod 16)]
    else [c] in
  str (dquote :: concat (map escape (chars s)) ++ [dquote]).

(** The JSON text of a member that is not a string is kept as the value. *)
Definition json_member (k : string) (v : jsval) : list piece :=
  match v with
  | VStr s => [Lit (json_quote k ++ ":" ++ json_quote s)]
  | _ => [Lit (json_quote k ++ ":"); Interp v]
  end.

(** [JSON.stringify({ error: "Internal server error", message: m })]: a
    member that is undefined is left out. *)
Definition error_body (m : jsval) : list piece :=
  [Lit "{"] ++ json_member "error" (VStr "Internal server error")
  ++ match m with
     | VUndefined => []
     | _ => Lit "," :: json_member "message" m
     end
  ++ [Lit "}"].

(** The string that a text without a kept value stands for. *)
Fixpoint flatten (ps : list piece) : option string :=
  match ps with
  | [] => Some EmptyString
  | Lit s :: r => option_map (String.append s) (flatten r)
  | Interp _ :: _ => None
  end.

Section Handler.

(** [handleEmployeeManagementRequest] of [./handler.mjs]: it is handed the
    request and the response, may write to the response, and returns or
    throws. *)
Variable handleEmployeeManagementRequest : request -> H jsval.

Definition handler (req : request) : H jsval :=
  server_log [Lit "[Vercel Handler] Called with URL:"] (Some (url req)) Log;;
  server_log [Lit "[Vercel Handler] Method:"] (Some (method req)) Log;;
  server_log [Lit "[Vercel Handler] Headers:"; Interp (headers req)] None Log;;
  try_catch
    (handleEmployeeManagementRequest req)
    (fun error =>
       server_log [Lit "[Vercel Handler] Error:"] (Some error) Error;;
       res_set_statusCode 500;;
       res_setHeader "Content-Type" "application/json";;
       message ← lift (get error "message");
       res_end (error_body message);;
       ret VUndefined).

End Handler.

(** * Vocabulary of the properties *)

(** The state in which the wrapped handler is called: the three lines of the
    entry point have been printed. *)
Definition announced (req : request) (s : server) : server :=
  Server (res s)
    (output s ++ [Line Log [Lit "[Vercel Handler] Called with URL:"] (Some (url req));
                  Line Log [Lit "[Vercel Handler] Method:"] (Some (method req));
                  Line Log [Lit "[Vercel Handler] Headers:"; Interp (headers req)] None]).

(** The text [{ "error": "Internal server error", "message": msg }]. *)
Definition error_text (msg : string) : string :=
  "{" ++ json_quote "error" ++ ":" ++ json_quote "Internal server error" ++ ","
      ++ json_quote "message" ++ ":" ++ json_quote msg ++ "}".

(** The [try { ... } catch (error) { ... }] of [main], without its [finally]. *)
Definition main_try (DATABASE_URL : string) : M unit :=
  try_catch
    (client_connect;;
     console_log [Lit ("✅ Connected to MongoDB" ++ nl)];;
     let dbName := database_name DATABASE_URL in
     let db := dbName in
     seedCounter db;;
     seedDepartmentParent db;;
     seedDepartmentChild db;;
     seedEmployee db;;
     seedProject db;;
     seedProjectEmployee db;;
     console_log [Lit (nl ++ "✨ Database seeded successfully!")])
    (fun error =>
       console_error [Lit "❌ Error seeding database:"] error;;
       throw error).

(** The driver calls of a stretch of a run other than [close]. *)
Definition no_close (evs : list driver_event) : Prop :=
  Forall (fun ev => ev <> EvClose) evs.

Definition extends_trace (w w' : world) : Prop :=
  exists evs, trace w' = trace w ++ evs /\ no_close evs.

(** The value [x] that the initialiser [i] of the field [f] yields out of the
    record [r], in a stretch of a run that goes from [w] to [w']. *)
Definition yields (w w' : world) (r : jsval) (f : string) (i : init) (x : jsval) : Prop :=
  let v := get_member r f in
  match i with
  | Member => x = v
  | MemberOr d => x = if truthy v then v else d
  | DateOrNull => if truthy v then new_Date v = Ok x else x = VNull
  | DateOrNow =>
      if truthy v then new_Date v = Ok x
      else exists n, (clock_reads w <= n < clock_reads w')%nat /\ x = Date_at (clock w n)
  | DefinedOr d => x = if negb (is_undefined v) then v else d
  end.

Definition nullish (v : jsval) : bool :=
  match v with VUndefined | VNull => true | _ => false end.

(** The business keys of the documents of a collection. *)
Definition keys_of (key : string) (docs : list document) : list jsval :=
  map (fun d => field d key) docs.

(** Each business key identifies at most one document of its collection, in
    every database. *)
Definition unique_keys (st : gmap (string * string) (list document)) : Prop :=
  forall s db, In s steps ->
    NoDup (keys_of (step_key s) (default [] (st !! (db, step_collection s)))).

(** Any number of runs of [main], whatever becomes of the files, the clock
    and the network in between. *)
Inductive after_runs (st : gmap (string * string) (list document)) :
  gmap (string * string) (list document) -> Prop :=
| no_run : after_runs st st
| one_more_run w url : after_runs st (store w) -> after_runs st (store (snd (main url w))).

(** A JSON text written with apostrophes for its double quotes. *)
Definition text (s : string) : string :=
  str (map (fun c => if Ascii.eqb c "'" then dquote else c) (chars s)).

(** A driver and a server that reject nothing more than they must, with no
    field satisfying an operator expression, and Dates the same instant when
    they were built from the same value. *)
Definition lenient : mongodb :=
  MongoDB (fun _ => None) (fun _ => None) (fun _ _ => false) value_eqb.

(** A world at the start of a run: the named export files in place, an
    empty database, a network without failures, and a clock that moves on by
    a millisecond from one reading to the next. *)
Definition world_of (exports : list (string * string)) : world :=
  World {[ "DATABASE_URL" := "mongodb://localhost:27017/hr" ]}
        (list_to_map (map (fun '(name, content) =>
                             (path_join JSON_DIR name, Readable (text content))) exports))
        (fun n => 1767225600000 + Z.of_nat n) 0 (fun _ => None) ∅ [] [] None lenient.

(** A record of Employee.json that leaves most fields out. *)
Definition ada : jsval :=
  VObj ObjectPrototype
    [("employeeId", VNum (Z2num 7)); ("employeeName", VStr "Ada"); ("isActive", VBool false);
     ("contactNo", VStr EmptyString)].

Definition created_at (collection : string * string)
  (st : gmap (string * string) (list document)) : list (option jsval) :=
  map (fun d : document => d !! "createdAt") (default [] (st !! collection)).

(** The lines [parseJSON] prints about a file it cannot use. *)
Definition not_found (path : string) : line :=
  Line Warn [Lit "⚠️  JSON file not found: "; Lit path] None.

Definition is_empty (path : string) : line :=
  Line Warn [Lit "⚠️  JSON file is empty: "; Lit path] None.

Definition not_parsed (path : string) (e : jsval) : line :=
  Line Error [Lit "❌ Error parsing JSON file "; Lit path; Lit ":"] (Some e).

Definition say (l : line) (w : world) : world := set_console (console w ++ [l]) w.

(** A path that names no file, a file of white space, or a file whose text
    JSON.parse rejects with [e]. *)
Inductive unusable (w : world) (path : string) : line -> Prop :=
| file_missing :
    files w !! path = None -> unusable w path (not_found path)
| file_blank content :
    files w !! path = Some (Readable content) -> trim content = EmptyString ->
    unusable w path (is_empty path)
| file_malformed content e :
    files w !! path = Some (Readable content) -> trim content <> EmptyString ->
    JSON_parse content = Throw e ->
    unusable w path (not_parsed path e).

(** A world whose Counter.json is a directory. *)
Definition world_with_directory : world :=
  World ∅ {[ path_join JSON_DIR "Counter.json" :=
               Unreadable (mkError "Error" "EISDIR: illegal operation on a directory, read") ]}
        (fun n => 1767225600000 + Z.of_nat n) 0 (fun _ => None) ∅ [] [] None lenient.

(** The wrappers of MongoDB Extended JSON that the script knows. *)
Definition wrapper (key payload : string) : jsval :=
  VObj ObjectPrototype [(key, VStr payload)].

(** The decimal text of an integer. *)
Definition decimal_text (n : Z) : string :=
  if n <? 0 then String "-" (str (decimal (- n))) else str (decimal n).

Definition wrapper_keys : list string := ["$date"; "$numberLong"; "$numberInt"; "$oid"].

(** The native value of the wrapper [{ key: payload }]. *)
Definition native (key payload : string) : jsval :=
  if String.eqb key "$date" then VDate (VStr payload)
  else if String.eqb key "$oid" then VStr payload
  else VNum (parseInt_string payload).

(** A way down into a value: through the member of an object, or through
    the element of an array. *)
Inductive hop : Type :=
| Under (key : string)
| At (index : nat).

Fixpoint at_path (v : jsval) (p : list hop) : option jsval :=
  match p with
  | [] => Some v
  | Under key :: p' =>
      match v with
      | VObj _ ms => match lookup_member key ms with
                     | Some x => at_path x p'
                     | None => None
                     end
      | _ => None
      end
  | At index :: p' =>
      match v with
      | VArr elems => match nth_error elems index with
                      | Some x => at_path x p'
                      | None => None
                      end
      | _ => None
      end
  end.

Definition has_wrapper_key (v : jsval) : bool :=
  existsb (fun key => has_property key v) wrapper_keys.

(** A way down on which every object passed has none of the four keys and
    distinct member names, and no member passed is named [__proto__]. *)
Fixpoint plain_path (v : jsval) (p : list hop) : Prop :=
  match p with
  | [] => True
  | Under key :: p' =>
      match v with
      | VObj _ ms =>
          has_wrapper_key v = false /\ key <> "__proto__" /\ NoDup (map fst ms) /\
          match lookup_member key ms with
          | Some x => plain_path x p'
          | None => False
          end
      | _ => False
      end
  | At index :: p' =>
      match v with
      | VArr elems => match nth_error elems index with
                      | Some x => plain_path x p'
                      | None => False
                      end
      | _ => False
      end
  end.

(** The loop of [parseMongoDBExtendedJSON] over the members of an object. *)
Fixpoint each_member (ms : list (string * jsval)) (newObj : jsval) : result jsval :=
  match ms with
  | [] => Ok newObj
  | (key, x) :: r =>
      result_bind (parseMongoDBExtendedJSON x) (fun y => each_member r (assign newObj key y))
  end.

(** The members of an object, whatever its prototype. *)
Definition own (v : jsval) (k : string) : option jsval :=
  match v with VObj _ ms => lookup_member k ms | _ => None end.

Definition is_obj (v : jsval) : bool :=
  match v with VObj _ _ => true | _ => false end.

Definition keeps_unique (w w' : world) : Prop :=
  unique_keys (store w) -> unique_keys (store w').

Fixpoint distinct (l : list string) : bool :=
  match l with
  | [] => true
  | x :: r => negb (existsb (String.eqb x) r) && distinct r
  end.

(** A wrapped handler that has started a 200 response and then fails. *)
Definition streaming_then_failing : request -> H jsval :=
  fun _ s =>
    (Throw (mkError "Error" "boom"),
     Server (Response 200 [] (Some (200, [])) [[Lit "partial"]] false) (output s)).

Definition fresh_server : server := Server (Response 200 [] None [] false) [].
Definition some_request : request := Request (VStr "/api") (VStr "GET") (VObj ObjectPrototype []).

(** A document of an export, as JSON.parse returns it. *)
Definition exported_employee : jsval :=
  VObj ObjectPrototype
    [("_id", wrapper "$oid" "6915278f2ea0c14829bb978a");
     ("employeeId", wrapper "$numberInt" "5");
     ("history", VArr [VObj ObjectPrototype [("at", wrapper "$date" "2024-10-04T19:48:57.118Z")]])].

(** An object that has the key [$oid] and another member. *)
Definition oid_with_more : jsval :=
  VObj ObjectPrototype [("$oid", VStr "6915278f2ea0c14829bb978a"); ("count", wrapper "$numberInt" "5")].

(** What a driver call that went through did to the database. *)
Definition apply_call (ev : driver_event) (st : gmap (string * string) (list document)) :
  gmap (string * string) (list document) :=
  match ev with
  | EvUpdateOne coll filter set true =>
      <[coll := upsert filter set (default [] (st !! coll))]> st
  | _ => st
  end.

Definition replay (evs : list driver_event) (st : gmap (string * string) (list document)) :
  gmap (string * string) (list document) :=
  fold_left (fun st ev => apply_call ev st) evs st.

(** The writes of the seed loops: a filter on the business key of the
    collection, and the fields of its [$set] literal, the key among them. *)
Definition keyed (ev : driver_event) : Prop :=
  match ev with
  | EvUpdateOne coll filter set true =>
      exists s v, In s steps /\ snd coll = step_collection s /\
                  filter = [(step_key s, v)] /\
                  (list_to_map set : document) !! step_key s = Some v /\
                  map fst set = map fst (step_set s)
  | _ => True
  end.

(** The document that a write is about is there already. *)
Definition present (ev : driver_event) (st : gmap (string * string) (list document)) : Prop :=
  match ev with
  | EvUpdateOne coll filter _ true =>
      match filter with
      | (key, v) :: _ => In v (keys_of key (default [] (st !! coll)))
      | [] => True
      end
  | _ => True
  end.

(** Two writes about the same document. *)
Definition same_target (a b : driver_event) : Prop :=
  match a, b with
  | EvUpdateOne ca fa _ true, EvUpdateOne cb fb _ true => ca = cb /\ fa = fb
  | _, _ => False
  end.

(** No call to the driver fails. *)
Definition quiet (w : world) : Prop := forall n, faults w n = None.

(** A record that brings its own createdAt and updatedAt: no field of the
    [$set] literal falls back on the clock. *)
Definition stamped (s : step) (r : jsval) : Prop :=
  forall f, In (f, DateOrNow) (step_set s) -> truthy (get_member r f) = true.

(** Every record of every export file is stamped. *)
Definition all_stamped (fs : gmap string file) : Prop :=
  forall s w records w',
    In s steps -> files w = fs ->
    parseJSON (path_join JSON_DIR (step_file s)) w = (Ok records, w') ->
    Forall (stamped s) records.

(** What [parseJSON] returns and prints, out of the files alone. *)
Definition read_export (fs : gmap string file) (path : string) :
  result (list jsval) * list line :=
  match fs !! path with
  | None => (Ok [], [not_found path])
  | Some (Unreadable e) => (Throw e, [])
  | Some (Readable content) =>
      if negb (truthy (VStr (trim content))) then (Ok [], [is_empty path])
      else
        match result_bind (JSON_parse content)
                (fun data => mapM parseMongoDBExtendedJSON
                               match data with VArr elems => elems | _ => [data] end) with
        | Ok records => (Ok records, [])
        | Throw e => (Ok [], [not_parsed path e])
        end
  end.

(** [stamped] and [all_stamped] as checks. *)
Definition stampedb (s : step) (r : jsval) : bool :=
  forallb (fun fi : string * init =>
             match snd fi with
             | DateOrNow => truthy (get_member r (fst fi))
             | _ => true
             end) (step_set s).

Definition all_stampedb (fs : gmap string file) : bool :=
  forallb (fun s => match fst (read_export fs (path_join JSON_DIR (step_file s))) with
                    | Ok records => forallb (stampedb s) records
                    | Throw _ => true
                    end) steps.

(** An export whose one counter brings both of its dates. *)
Definition stamped_exports : list (string * string) :=
  [("Counter.json",
    "[{'key':'emp','value':1,'createdAt':{'$date':'2024-01-01T00:00:00.000Z'},'updatedAt':{'$date':'2024-01-02T00:00:00.000Z'}}]")].

(** ** Vocabulary of the further properties *)

(** A value with nothing to convert: no Date, and only objects made by an
    object literal or by JSON.parse, with distinct member names, none of
    them one of the four wrapper keys or [__proto__]. *)
Fixpoint plain (v : jsval) : bool :=
  match v with
  | VDate _ => false
  | VArr elems => forallb plain elems
  | VObj ObjectPrototype members =>
      negb (has_wrapper_key v)
      && negb (existsb (String.eqb "__proto__") (map fst members))
      && distinct (map fst members)
      && (fix each (ms : list (string * jsval)) : bool :=
            match ms with
            | [] => true
            | (_, x) :: r => plain x && each r
            end) members
  | VObj _ _ => false
  | _ => true
  end.

(** A record whose turn of a seed loop can be reported: it is not null or
    undefined, and its business key can be written into a message. *)
Definition printable (s : step) (r : jsval) : Prop :=
  nullish r = false /\ toPrimitive_throws (get_member r (step_key s)) = false.

(** A driver call that went through and wrote. *)
Definition accepted (ev : driver_event) : bool :=
  match ev with EvUpdateOne _ _ _ true => true | _ => false end.

(** The line the catch clause of a seed loop prints about one of the records. *)
Definition failure_line (s : step) (records : list jsval) (l : line) : Prop :=
  exists r t e, In r records /\ interpolate (get_member r (step_key s)) = Ok t /\
                l = Line Error [Lit (step_failed s); t; Lit ":"] (Some e).

(** A world in which the first call to the driver fails. *)
Definition first_call_fails (w : world) : world :=
  World (env w) (files w) (clock w) (clock_reads w)
        (fun n => if (n =? 0)%nat then Some (mkError "MongoNetworkError" "connection reset")
                  else None)
        (store w) (trace w) (console w) (exit_code w) (mongo w).

Definition two_counters : list (string * string) :=
  [("Counter.json", "[{'key':'emp','value':1},{'key':'proj','value':7}]")].

Definition counter (key : string) (value : Z) : jsval :=
  VObj ObjectPrototype [("key", VStr key); ("value", VNum (Z2num value))].

(** A call that asks for an update of the collection [coll]. *)
Definition writes_to (coll : string * string) (ev : driver_event) : Prop :=
  match ev with EvUpdateOne c _ _ _ => c = coll | _ => False end.

(** Calls that go collection by collection, in the order of [ss]: those on
    the collection of the first step, then those on the collection of the
    second, and so on. *)
Fixpoint in_order (db : string) (ss : list step) (evs : list driver_event) : Prop :=
  match ss with
  | [] => evs = []
  | s :: ss' =>
      exists e1 e2, evs = e1 ++ e2 /\
                    Forall (writes_to (db, step_collection s)) e1 /\
                    in_order db ss' e2
  end.

(** What a stretch of a run has done, told by the calls it has added: the
    database is the one before with the accepted calls applied. *)
Definition journal (allowed : list driver_event -> Prop) (a b : world) : Prop :=
  exists evs, trace b = trace a ++ evs /\ store b = replay evs (store a) /\ allowed evs.

(** The calls of a run before its last: the connection, and when it is made
    the updates, collection by collection in the order of the seed steps. *)
Definition connected_then (db : string) (evs : list driver_event) : Prop :=
  exists ok rest, evs = EvConnect ok :: rest /\ in_order db steps rest /\
                  (ok = false -> rest = []).

(** The calls of a whole run. *)
Definition run_calls (db : string) (evs : list driver_event) : Prop :=
  exists ok rest, evs = EvConnect ok :: rest ++ [EvClose] /\ in_order db steps rest /\
                  (ok = false -> rest = []).

(** The six collections of the database [db]. *)
Definition seeded_collections (db : string) : list (string * string) :=
  map (fun s => (db, step_collection s)) steps.

(** Every document of [a] is still there in [b], at its place in its
    collection, with every field it had; and a field that no [$set] literal
    for that collection names has the value it had. *)
Definition keeps_documents (a b : world) : Prop :=
  forall c (i : nat) d, documents a c !! i = Some d ->
    exists d', documents b c !! i = Some d' /\
      (forall f, is_Some (d !! f) -> is_Some (d' !! f)) /\
      (forall f, (forall s, In s steps -> snd c = step_collection s ->
                            ~ In f (map fst (step_set s))) ->
                 d' !! f = d !! f).

(** A counter that is in the database already, with a field of its own. *)
Definition noted_counter : document :=
  {[ "key" := VStr "emp"; "note" := VStr "reviewed" ]}.

Definition with_store (st : gmap (string * string) (list document)) (w : world) : world :=
  World (env w) (files w) (clock w) (clock_reads w) (faults w) st (trace w) (console w)
        (exit_code w) (mongo w).

(** The last line of a run that went through, and of one that did not. *)
Definition seeded_line : line :=
  Line Log [Lit (nl ++ "✨ Database seeded successfully!")] None.

Definition failed_line (e : jsval) : line :=
  Line Error [Lit "❌ Error seeding database:"] (Some e).

Definition starting_line : line :=
  Line Log [Lit ("🚀 Starting database seed..." ++ nl)] None.

Definition connected_line : line :=
  Line Log [Lit ("✅ Connected to MongoDB" ++ nl)] None.

(** The error of a script that finds no [DATABASE_URL]. *)
Definition no_DATABASE_URL : jsval :=
  mkError "Error" "DATABASE_URL environment variable is not set".

(** What stays of the process through a run of [main]. *)
Definition same_process (a b : world) : Prop :=
  env b = env a /\ files b = files a /\ clock b = clock a /\ faults b = faults a /\
  exit_code b = exit_code a.

(** The three lines of a seed function that finds no file. *)
Definition nothing_to_seed (s : step) : list line :=
  [Line Log [Lit (step_start s)] None;
   not_found (path_join JSON_DIR (step_file s));
   Line Log [Lit (step_none s)] None].

(** A wrapped handler that sets two headers and then fails. *)
Definition failing_with_headers : request -> H jsval :=
  fun _ =>
    res_setHeader "Access-Control-Allow-Origin" "*";;
    res_setHeader "content-type" "text/html";;
    throw (mkError "Error" "boom").

(** A wrapped handler that throws a string, and one that throws null. *)
Definition throwing_a_string : request -> H jsval := fun _ => throw (VStr "boom").
Definition throwing_null : request -> H jsval := fun _ => throw VNull.

(** The line the entry point prints about what the wrapped handler threw. *)
Definition handler_error_line (e : jsval) : line :=
  Line Error [Lit "[Vercel Handler] Error:"] (Some e).

(** The text [{ "error": "Internal server error" }]. *)
Definition bare_error_text : string :=
  "{" ++ json_quote "error" ++ ":" ++ json_quote "Internal server error" ++ "}".

(** * Equality of values *)

Lemma number_eqb_eq x y : number_eqb x y = true <-> x = y.
Proof.
  destruct x, y; simpl; try (split; [discriminate | congruence]);
    try (rewrite Bool.eqb_true_iff; split; congruence).
  - tauto.
  - rewrite !andb_true_iff, Bool.eqb_true_iff, Pos.eqb_eq, Z.eqb_eq.
    split; [intros [[-> ->] ->]; reflexivity | intros [= -> -> ->]; auto].
Qed.

Lemma value_eqb_eq a : forall b, value_eqb a b = true <-> a = b.
Proof.
  induction a as [| | x | x | s | a IH | l IH | p ms IHp IH] using value_ind;
    intros b; destruct b; simpl; try (split; [discriminate | congruence]); try tauto.
  - rewrite Bool.eqb_true_iff. split; congruence.
  - rewrite number_eqb_eq. split; congruence.
  - rewrite String.eqb_eq. split; congruence.
  - rewrite IH. split; congruence.
  - revert elems. induction IH as [| x l Hx _ IHl]; intros [| y m];
      try (split; [discriminate | congruence]); [tauto |].
    rewrite andb_true_iff, Hx, IHl. split; [intros [-> [= ->]]; reflexivity | intros [= -> ->]; auto].
  - rewrite andb_true_iff.
    assert (Hp : match p, proto with
                 | ObjectPrototype, ObjectPrototype => true
                 | NullPrototype, NullPrototype => true
                 | ProtoValue x, ProtoValue y => value_eqb x y
                 | _, _ => false
                 end = true <-> p = proto).
    { destruct p, proto; try (split; [discriminate | congruence]); try tauto.
      rewrite IHp. split; congruence. }
    rewrite Hp. clear Hp IHp.
    assert (Hm : forall m,
      (fix go (l m : list (string * jsval)) : bool :=
         match l, m with
         | [], [] => true
         | (k, x) :: l', (j, y) :: m' => String.eqb k j && value_eqb x y && go l' m'
         | _, _ => false
         end) ms m = true <-> ms = m).
    { induction IH as [| [k x] l Hx _ IHl]; intros [| [j y] m];
        try (split; [discriminate | congruence]); [tauto |].
      rewrite !andb_true_iff, String.eqb_eq, IHl. simpl in Hx. rewrite Hx.
      split; [intros [[-> ->] ->]; reflexivity | intros [= -> -> ->]; auto]. }
    rewrite Hm. split; [intros [-> ->]; reflexivity | intros [= -> ->]; auto].
Qed.

#[global] Instance value_eq_dec : EqDecision jsval.
Proof.
  intros a b. destruct (value_eqb a b) eqn:E.
  - left. apply value_eqb_eq, E.
  - right. intros H. apply value_eqb_eq in H. congruence.
Defined.

(** * Properties of the serverless entry point *)

Lemma handler_calls inner req s :
  handler inner req s =
  try_catch (inner req)
    (fun error =>
       server_log [Lit "[Vercel Handler] Error:"] (Some error) Error;;
       res_set_statusCode 500;;
       res_setHeader "Content-Type" "application/json";;
       message ← lift (get error "message");
       res_end (error_body message);;
       ret VUndefined) (announced req s).
Proof.
  unfold handler, announced, mbind, ST_bind, bind, server_log. simpl.
  rewrite <- !app_assoc. reflexivity.
Qed.

Lemma flatten_error_body msg :
  flatten (error_body (VStr msg)) = Some (error_text msg).
Proof. reflexivity. Qed.

Lemma header_set name value hs :
  header name (List.filter (fun kv => negb (same_header (fst kv) name)) hs ++ [(name, value)])
  = Some value.
Proof.
  unfold header. induction hs as [| [k v] hs IH]; simpl.
  - unfold same_header. rewrite String.eqb_refl. reflexivity.
  - destruct (same_header k name) eqn:E; simpl; [exact IH |].
    rewrite E. exact IH.
Qed.

(** C8, as amended: when the wrapped handler throws a value whose message is
    a string, and it has neither written the head of the response out nor
    ended the response, the entry point answers with status 500, a
    Content-Type of application/json and the JSON text of
    [{ error: "Internal server error", message }] as the one chunk it adds;
    when the wrapped handler returns, its result and the response come back
    as they are. *)
Theorem handler_reports_error inner req s :
  (forall e s1 msg,
      inner req (announced req s) = (Throw e, s1) ->
      get e "message" = Ok (VStr msg) ->
      head (res s1) = None ->
      finished (res s1) = false ->
      exists s2 hs chunk,
        handler inner req s = (Ok VUndefined, s2) /\
        head (res s2) = Some (500, hs) /\
        header "Content-Type" hs = Some "application/json" /\
        body (res s2) = body (res s1) ++ [chunk] /\
        flatten chunk = Some (error_text msg) /\
        finished (res s2) = true) /\
  (forall v s1,
      inner req (announced req s) = (Ok v, s1) ->
      handler inner req s = (Ok v, s1)).
Proof.
  split.
  - intros e s1 msg Hin Hmsg Hhead Hfin.
    rewrite handler_calls. unfold try_catch. rewrite Hin.
    destruct s1 as [[code hs hd bd fin] out]. simpl in Hhead, Hfin. subst hd fin.
    unfold mbind, ST_bind, bind, server_log, res_set_statusCode, res_setHeader,
      update_res, res_end, lift, ret. simpl.
    rewrite Hmsg. simpl.
    eexists _, _, _. split; [reflexivity |]. simpl.
    repeat split; try reflexivity. apply header_set.
  - intros v s1 Hin. rewrite handler_calls. unfold try_catch. rewrite Hin. reflexivity.
Qed.

(** C8 does not hold as stated: the wrapped handler throws an Error after it
    has written the head of a 200 response; the entry point then throws
    itself, out of [setHeader], and the response keeps its status 200 and
    never gets the JSON body. *)
Lemma handler_after_head_sent :
  exists s2,
    handler streaming_then_failing some_request fresh_server
      = (Throw ERR_HTTP_HEADERS_SENT, s2) /\
    head (res s2) = Some (200, []) /\
    body (res s2) = [[Lit "partial"]] /\
    finished (res s2) = false.
Proof. eexists. split; [reflexivity |]. repeat split. Qed.

(** The amended statement at work: a wrapped handler that fails at once. *)
Lemma handler_reports_error_witness :
  exists s2 hs chunk,
    handler (fun _ s => (Throw (mkError "Error" "boom"), s)) some_request fresh_server
      = (Ok VUndefined, s2) /\
    head (res s2) = Some (500, hs) /\
    header "Content-Type" hs = Some "application/json" /\
    body (res s2) = [] ++ [chunk] /\
    flatten chunk = Some (error_text "boom") /\
    finished (res s2) = true.
Proof.
  apply (proj1 (handler_reports_error (fun _ s => (Throw (mkError "Error" "boom"), s))
                  some_request fresh_server)
           (mkError "Error" "boom") (announced some_request fresh_server) "boom");
    reflexivity.
Defined.

(** * How the seed script moves the world *)

Lemma seedCounter_seed : seedCounter = seed Counter_step.
Proof. reflexivity. Qed.

Lemma seedDepartmentParent_seed : seedDepartmentParent = seed DepartmentParent_step.
Proof. reflexivity. Qed.

Lemma seedDepartmentChild_seed : seedDepartmentChild = seed DepartmentChild_step.
Proof. reflexivity. Qed.

Lemma seedEmployee_seed : seedEmployee = seed Employee_step.
Proof. reflexivity. Qed.

Lemma seedProject_seed : seedProject = seed Project_step.
Proof. reflexivity. Qed.

Lemma seedProjectEmployee_seed : seedProjectEmployee = seed ProjectEmployee_step.
Proof. reflexivity. Qed.

Lemma bind_run {S A B} (m : ST S A) (f : A -> ST S B) w :
  (m ≫= f) w = match m w with
               | (Ok a, w') => f a w'
               | (Throw e, w') => (Throw e, w')
               end.
Proof. reflexivity. Qed.

Ltac case_if :=
  match goal with |- context [if ?c then _ else _] => destruct c end.

Section Respects.

(** A relation between the world before and the world after that every
    step of the script keeps. *)
Variable R : world -> world -> Prop.
Hypothesis R_refl : forall w, R w w.
Hypothesis R_trans : forall a b c, R a b -> R b c -> R a c.
Hypothesis R_console : forall c w, R w (set_console c w).
Hypothesis R_clock : forall n w, R w (set_clock_reads n w).

Definition respects {A} (m : M A) : Prop := forall w, R w (snd (m w)).

Lemma respects_ret {A} (a : A) : respects (ret a).
Proof. intros w. apply R_refl. Qed.

Lemma respects_throw {A} e : respects (@throw world A e).
Proof. intros w. apply R_refl. Qed.

Lemma respects_lift {A} (r : result A) : respects (lift r).
Proof. intros w. apply R_refl. Qed.

Lemma respects_bind {A B} (m : M A) (f : A -> M B) :
  respects m -> (forall a, respects (f a)) -> respects (m ≫= f).
Proof.
  intros Hm Hf w. rewrite bind_run. specialize (Hm w).
  destruct (m w) as [[a | e] w1]; simpl in *; [| exact Hm].
  eapply R_trans; [exact Hm | apply Hf].
Qed.

Lemma respects_try_catch {A} (m : M A) (h : jsval -> M A) :
  respects m -> (forall e, respects (h e)) -> respects (try_catch m h).
Proof.
  intros Hm Hh w. unfold try_catch. specialize (Hm w).
  destruct (m w) as [[a | e] w1]; simpl in *; [exact Hm |].
  eapply R_trans; [exact Hm | apply Hh].
Qed.

Lemma respects_for_of {A B} (xs : list A) (body : A -> B -> M B) :
  (forall x acc, In x xs -> respects (body x acc)) ->
  forall acc, respects (for_of xs acc body).
Proof.
  induction xs as [| x xs IH]; intros Hb acc; simpl.
  - apply respects_ret.
  - apply respects_bind; [apply Hb; left; reflexivity |].
    intros acc'. apply IH. intros y b Hy. apply Hb. right. exact Hy.
Qed.

Lemma respects_print l text v : respects (print l text v).
Proof. intros w. apply R_console. Qed.

Lemma respects_Date_now : respects Date_now.
Proof. intros w. apply R_clock. Qed.

Lemma respects_eval_init r f i : respects (eval_init r f i).
Proof.
  unfold eval_init. apply respects_bind; [apply respects_lift |].
  intros v. destruct i; try apply respects_ret;
    destruct (truthy v); try apply respects_lift; try apply respects_ret.
  apply respects_Date_now.
Qed.

Lemma respects_literal r fields : respects (literal r fields).
Proof.
  induction fields as [| [f i] rest IH]; simpl; [apply respects_ret |].
  apply respects_bind; [apply respects_eval_init |]. intros v.
  apply respects_bind; [exact IH |]. intros vs. apply respects_ret.
Qed.

Lemma respects_parseJSON path : respects (parseJSON path).
Proof.
  unfold parseJSON. apply respects_bind; [intros w; apply R_refl |].
  intros found. case_if.
  - apply respects_bind; [apply respects_print |]. intros _. apply respects_ret.
  - apply respects_bind.
    + intros w. unfold fs_readFileSync. destruct (files w !! path) as [[c | e] |]; apply R_refl.
    + intros content. case_if.
      * apply respects_bind; [apply respects_print |]. intros _. apply respects_ret.
      * apply respects_try_catch.
        -- apply respects_bind; [apply respects_lift |]. intros d. apply respects_lift.
        -- intros e. apply respects_bind; [apply respects_print |]. intros _. apply respects_ret.
Qed.

(** What remains to be known of the relation: that it is kept by the one
    write a turn of a seed loop makes. *)
Hypothesis R_updateOne : forall s db r filter set w1 w2 w3,
  In s steps ->
  literal r [(step_key s, Member)] w1 = (Ok filter, w2) ->
  literal r (step_set s) w2 = (Ok set, w3) ->
  R w3 (snd (updateOne (db, step_collection s) filter set w3)).

Lemma respects_seed_record s db r n :
  In s steps -> respects (seed_record s (db, step_collection s) r n).
Proof.
  intros Hs w. unfold seed_record, try_catch.
  match goal with |- R w (snd (match ?body w with _ => _ end)) =>
    assert (Hbody : R w (snd (body w))) end.
  { rewrite bind_run.
    pose proof (respects_literal r [(step_key s, Member)] w) as H1.
    destruct (literal r [(step_key s, Member)] w) as [[filter | e] w2] eqn:E1;
      simpl in *; [| exact H1].
    rewrite bind_run.
    pose proof (respects_literal r (step_set s) w2) as H2.
    destruct (literal r (step_set s) w2) as [[set | e] w3] eqn:E2; simpl in *;
      [| eapply R_trans; eassumption].
    rewrite bind_run.
    pose proof (R_updateOne s db r filter set w w2 w3 Hs E1 E2) as H3.
    destruct (updateOne (db, step_collection s) filter set w3) as [[[] | e] w4];
      simpl in *; eapply R_trans; try eassumption; eapply R_trans; eassumption. }
  match goal with |- R w (snd (match ?x with _ => _ end)) =>
    destruct x as [[a | e] w1] end; simpl in *; [exact Hbody |].
  eapply R_trans; [exact Hbody |].
  apply respects_bind; [apply respects_lift |]. intros k.
  apply respects_bind; [apply respects_lift |]. intros t.
  apply respects_bind; [apply respects_print |]. intros _. apply respects_ret.
Qed.

Lemma respects_seed s db : In s steps -> respects (seed s db).
Proof.
  intros Hs. unfold seed.
  apply respects_bind; [apply respects_print |]. intros _.
  apply respects_bind; [apply respects_parseJSON |]. intros records.
  destruct (length records =? 0)%nat; [apply respects_print |].
  apply respects_bind; [| intros n; apply respects_print].
  apply respects_for_of. intros r n _. apply respects_seed_record. exact Hs.
Qed.

Hypothesis R_connect : respects client_connect.

Lemma respects_main_try url : respects (main_try url).
Proof.
  unfold main_try. apply respects_try_catch.
  - rewrite seedCounter_seed, seedDepartmentParent_seed, seedDepartmentChild_seed,
      seedEmployee_seed, seedProject_seed, seedProjectEmployee_seed.
    apply respects_bind; [exact R_connect |]. intros _.
    apply respects_bind; [apply respects_print |]. intros _. cbv zeta.
    repeat (apply respects_bind;
            [apply respects_seed; unfold steps; simpl; tauto | intros _]).
    apply respects_print.
  - intros e. apply respects_bind; [apply respects_print |]. intros _.
    apply respects_throw.
Qed.

End Respects.

Lemma main_run url w :
  main url w =
  try_finally (main_try url) client_close
    (set_console (console w ++ [Line Log [Lit ("🚀 Starting database seed..." ++ nl)] None]) w).
Proof. reflexivity. Qed.

(** ** The connection is released on every path *)

Lemma extends_trace_refl w : extends_trace w w.
Proof. exists []. split; [symmetry; apply app_nil_r | constructor]. Qed.

Lemma extends_trace_trans a b c :
  extends_trace a b -> extends_trace b c -> extends_trace a c.
Proof.
  intros [e1 [H1 N1]] [e2 [H2 N2]]. exists (e1 ++ e2). split.
  - rewrite H2, H1, app_assoc. reflexivity.
  - apply Forall_app. split; assumption.
Qed.

Lemma extends_trace_driver_call ev effect w :
  (forall ok, ev ok <> EvClose) ->
  (forall w0, trace (effect w0) = trace w0) ->
  extends_trace w (snd (driver_call ev effect w)).
Proof.
  intros Hev Heff. unfold driver_call.
  destruct (faults w (length (trace w))); simpl.
  - exists [ev false]. split; [reflexivity | repeat constructor; apply Hev].
  - exists [ev true]. split; [rewrite Heff; reflexivity | repeat constructor; apply Hev].
Qed.

Lemma main_try_extends_trace url w : extends_trace w (snd (main_try url w)).
Proof.
  apply respects_main_try.
  - exact extends_trace_refl.
  - exact extends_trace_trans.
  - intros c w0. exact (extends_trace_refl w0).
  - intros n w0. exact (extends_trace_refl w0).
  - intros s db r filter set w1 w2 w3 _ _ _. unfold updateOne.
    apply extends_trace_driver_call; [discriminate | reflexivity].
  - intros w0. apply extends_trace_driver_call; [discriminate | reflexivity].
Qed.


(** ** What an object literal evaluates to *)

Lemma get_not_nullish r f : nullish r = false -> get r f = Ok (get_member r f).
Proof. destruct r; simpl; intros H; try discriminate; reflexivity. Qed.

Lemma get_nullish r f : nullish r = true -> exists e, get r f = Throw e.
Proof. destruct r; simpl; intros H; try discriminate; eexists; reflexivity. Qed.

Lemma eval_init_spec r f i w x w' :
  eval_init r f i w = (Ok x, w') ->
  nullish r = false /\ yields w w' r f i x /\
  w' = set_clock_reads (clock_reads w') w /\ (clock_reads w <= clock_reads w')%nat.
Proof.
  unfold eval_init. rewrite bind_run. unfold lift.
  destruct (nullish r) eqn:Hr.
  { destruct (get_nullish r f Hr) as [e ->]. discriminate. }
  rewrite (get_not_nullish r f Hr). unfold yields.
  assert (Hw : w = set_clock_reads (clock_reads w) w) by (destruct w; reflexivity).
  destruct i; try destruct (truthy (get_member r f)) eqn:Ht; unfold ret, Date_now.
  all: intros [= <- <-].
  all: repeat split; try rewrite Ht; auto.
  - exists (clock_reads w). simpl. split; [lia | reflexivity].
  - simpl. lia.
Qed.

Lemma set_clock_reads_twice n m w :
  set_clock_reads n (set_clock_reads m w) = set_clock_reads n w.
Proof. reflexivity. Qed.

Lemma yields_mono w1 w2 w3 w4 r f i x :
  clock w2 = clock w1 ->
  (clock_reads w1 <= clock_reads w2)%nat -> (clock_reads w3 <= clock_reads w4)%nat ->
  yields w2 w3 r f i x -> yields w1 w4 r f i x.
Proof.
  intros Hc H12 H34. unfold yields. destruct i; auto.
  destruct (truthy (get_member r f)); auto.
  intros [n [Hn ->]]. exists n. rewrite Hc. split; [lia | reflexivity].
Qed.

Lemma literal_spec r fields : forall w set w',
  literal r fields w = (Ok set, w') ->
  Forall2 (fun fi fx => fst fx = fst fi /\ yields w w' r (fst fi) (snd fi) (snd fx)) fields set /\
  w' = set_clock_reads (clock_reads w') w /\ (clock_reads w <= clock_reads w')%nat /\
  (fields <> [] -> nullish r = false).
Proof.
  induction fields as [| [f i] rest IH]; intros w set w'; simpl.
  - intros [= <- <-]. repeat split; [constructor | destruct w; reflexivity | lia | congruence].
  - rewrite bind_run.
    destruct (eval_init r f i w) as [[x | e] w1] eqn:E1; [| discriminate].
    rewrite bind_run.
    destruct (literal r rest w1) as [[xs | e] w2] eqn:E2; [| discriminate].
    intros [= <- <-].
    apply eval_init_spec in E1 as [Hr [Hy [Hw1 Hle1]]].
    apply IH in E2 as [Hall [Hw2 [Hle2 _]]].
    assert (Hc : clock w1 = clock w) by (rewrite Hw1; reflexivity).
    repeat split; auto; try lia.
    + constructor.
      * split; [reflexivity |]. simpl.
        eapply yields_mono; [reflexivity | | | exact Hy]; lia.
      * eapply Forall2_impl; [exact Hall |]. intros [g j] [h y] [Hg Hy']. split; [exact Hg |].
        eapply yields_mono; [exact Hc | | | exact Hy']; lia.
    + rewrite Hw2, Hw1. reflexivity.
Qed.

Lemma literal_names r fields w set w' :
  literal r fields w = (Ok set, w') -> map fst set = map fst fields.
Proof.
  intros H. apply literal_spec in H as [H _].
  induction H as [| [f i] [g x] fs xs [Hg _] _ IH]; simpl; [reflexivity |].
  simpl in Hg. rewrite Hg, IH. reflexivity.
Qed.

Lemma literal_member r fields w set w' f i :
  literal r fields w = (Ok set, w') -> In (f, i) fields ->
  exists x, In (f, x) set /\ yields w w' r f i x.
Proof.
  intros H. apply literal_spec in H as [H _].
  induction H as [| [g j] [h y] fs xs [Hh Hy] _ IH]; simpl; [tauto |].
  simpl in Hh, Hy. subst h. intros [[= -> ->] | Hin].
  - exists y. split; [left; reflexivity | exact Hy].
  - destruct (IH Hin) as [x [Hx Hyx]]. exists x. split; [right; exact Hx | exact Hyx].
Qed.

Lemma literal_key r key w filter w' :
  literal r [(key, Member)] w = (Ok filter, w') ->
  filter = [(key, get_member r key)] /\ w' = w /\ nullish r = false.
Proof.
  intros H. pose proof (literal_spec _ _ _ _ _ H) as [Hall [Hw [_ Hr]]].
  inversion Hall as [| [f i] [g x] fs xs [Hg Hy] Hnil]; subst.
  inversion Hnil; subst. simpl in Hg, Hy. subst g. unfold yields in Hy. subst x.
  split; [reflexivity |]. split; [| apply Hr; discriminate].
  simpl in H. rewrite bind_run in H.
  destruct (eval_init r key Member w) as [[x | e] w1] eqn:E; [| discriminate].
  unfold eval_init in E. rewrite bind_run in E. unfold lift in E.
  destruct (get r key); [| discriminate]. unfold ret in E. injection E as _ <-.
  simpl in H. injection H as _ <-. reflexivity.
Qed.

Lemma distinct_NoDup l : distinct l = true -> NoDup l.
Proof.
  induction l as [| x r IH]; simpl; [constructor |].
  rewrite andb_true_iff, negb_true_iff. intros [Hx Hr]. constructor; [| auto].
  intros Hin. apply list_elem_of_In in Hin.
  assert (existsb (String.eqb x) r = true); [| congruence].
  apply existsb_exists. exists x. split; [exact Hin | apply String.eqb_refl].
Qed.

Lemma steps_distinct s : In s steps -> NoDup (map fst (step_set s)).
Proof.
  intros Hs. apply distinct_NoDup. unfold steps in Hs. simpl in Hs.
  repeat (destruct Hs as [<- | Hs]; [vm_compute; reflexivity |]). destruct Hs.
Qed.

Lemma steps_key s : In s steps -> In (step_key s, Member) (step_set s).
Proof.
  intros Hs. unfold steps in Hs. simpl in Hs.
  repeat (destruct Hs as [<- | Hs]; [simpl; tauto |]). destruct Hs.
Qed.

Lemma serialize_names set : map fst (serialize set) = map fst set.
Proof.
  unfold serialize. induction set as [| [k v] r IH]; simpl; [reflexivity |].
  rewrite IH. reflexivity.
Qed.

Lemma literal_lookup r fields w set w' f i :
  NoDup (map fst fields) ->
  literal r fields w = (Ok set, w') -> In (f, i) fields ->
  exists x, (list_to_map (serialize set) : document) !! f = Some (toBSON x) /\
            yields w w' r f i x.
Proof.
  intros Hnd H Hin. destruct (literal_member _ _ _ _ _ _ _ H Hin) as [x [Hx Hy]].
  exists x. split; [| exact Hy].
  apply elem_of_list_to_map_1.
  - change (NoDup (map fst (serialize set))).
    rewrite serialize_names, (literal_names _ _ _ _ _ H). exact Hnd.
  - unfold serialize. apply list_elem_of_In. apply in_map_iff. exists (f, x).
    split; [reflexivity | exact Hx].
Qed.

(** ** Business keys stay unique *)

Lemma matches_key key v d : matches [(key, v)] d = true <-> field d key = v.
Proof. unfold matches. simpl. rewrite andb_true_r. apply value_eqb_eq. Qed.

Lemma field_apply_set set d key x :
  (list_to_map set : document) !! key = Some x -> field (apply_set set d) key = x.
Proof.
  intros H. unfold field, apply_set.
  rewrite (lookup_union_Some_l _ d key x H). reflexivity.
Qed.

Lemma keys_upsert key v set docs :
  (list_to_map set : document) !! key = Some v ->
  forall k, In k (keys_of key (upsert [(key, v)] set docs)) ->
            k = v \/ In k (keys_of key docs).
Proof.
  intros Hset. unfold keys_of. induction docs as [| d rest IH]; intros k.
  - simpl. intros [H | H]; [| contradiction]. left. rewrite <- H.
    apply field_apply_set. exact Hset.
  - cbn [upsert]. destruct (matches [(key, v)] d) eqn:Hm; simpl.
    + intros [H | Hin]; [| right; right; exact Hin].
      left. rewrite <- H. apply field_apply_set. exact Hset.
    + intros [H | Hin]; [right; left; exact H |].
      destruct (IH k Hin) as [-> | H]; [left; reflexivity | right; right; exact H].
Qed.

Lemma upsert_unique key v set docs :
  (list_to_map set : document) !! key = Some v ->
  NoDup (keys_of key docs) -> NoDup (keys_of key (upsert [(key, v)] set docs)).
Proof.
  intros Hset. induction docs as [| d rest IH]; intros Hnd.
  - apply NoDup_singleton.
  - change (keys_of key (d :: rest)) with (field d key :: keys_of key rest) in Hnd.
    apply NoDup_cons in Hnd as [Hd Hrest].
    cbn [upsert]. destruct (matches [(key, v)] d) eqn:Hm.
    + apply matches_key in Hm.
      change (NoDup (field (apply_set set d) key :: keys_of key rest)).
      rewrite (field_apply_set set d key v Hset), <- Hm.
      apply NoDup_cons. split; assumption.
    + change (NoDup (field d key :: keys_of key (upsert [(key, v)] set rest))).
      apply NoDup_cons. split; [| apply IH; exact Hrest].
      intros Hin. apply list_elem_of_In in Hin.
      destruct (keys_upsert key v set rest Hset _ Hin) as [Heq | Hold].
      * apply matches_key in Heq. congruence.
      * apply Hd. apply list_elem_of_In. exact Hold.
Qed.

(** Two of the six steps that write to the same collection are the same step. *)
Lemma steps_collection s t :
  In s steps -> In t steps -> step_collection s = step_collection t -> s = t.
Proof.
  unfold steps. simpl. intros Hs Ht.
  repeat (destruct Hs as [<- | Hs]);
    repeat (destruct Ht as [<- | Ht]); try tauto; simpl; intros; try discriminate; reflexivity.
Qed.

Lemma updateOne_store coll filter set w :
  store (snd (updateOne coll filter set w)) = store w \/
  store (snd (updateOne coll filter set w)) =
    <[coll := upsert (serialize filter) (serialize set) (documents w coll)]> (store w).
Proof.
  unfold updateOne, driver_call. destruct (faults w (length (trace w))); simpl; auto.
Qed.

Lemma keyed_update_keeps_unique s db r filter set w1 w2 w3 :
  In s steps ->
  literal r [(step_key s, Member)] w1 = (Ok filter, w2) ->
  literal r (step_set s) w2 = (Ok set, w3) ->
  keeps_unique w3 (snd (updateOne (db, step_collection s) filter set w3)).
Proof.
  intros Hs Hf Hset Huniq.
  destruct (updateOne_store (db, step_collection s) filter set w3) as [-> | ->]; [exact Huniq |].
  apply literal_key in Hf as [-> [_ _]].
  destruct (literal_lookup _ _ _ _ _ _ _ (steps_distinct s Hs) Hset (steps_key s Hs))
    as [x [Hx Hy]].
  unfold yields in Hy. subst x.
  intros t db' Ht.
  destruct (decide ((db', step_collection t) = (db, step_collection s))) as [Heq | Hne].
  - injection Heq as -> Hc. apply (steps_collection t s Ht Hs) in Hc. subst t.
    rewrite lookup_insert_eq. simpl.
    apply upsert_unique; [exact Hx |]. apply Huniq. exact Hs.
  - rewrite lookup_insert_ne; [| congruence]. apply Huniq. exact Ht.
Qed.

Lemma main_try_keeps_unique url w : keeps_unique w (snd (main_try url w)).
Proof.
  apply respects_main_try.
  - intros w0 H. exact H.
  - intros a b c Hab Hbc H. auto.
  - intros c w0 H. exact H.
  - intros n w0 H. exact H.
  - apply keyed_update_keeps_unique.
  - intros w0. unfold client_connect, driver_call.
    destruct (faults w0 (length (trace w0))); intros H; exact H.
Qed.

Lemma main_keeps_unique url w : keeps_unique w (snd (main url w)).
Proof.
  rewrite main_run. unfold try_finally.
  match goal with |- context [main_try url ?w0] =>
    pose proof (main_try_keeps_unique url w0) as H;
    destruct (main_try url w0) as [r w1] end.
  exact H.
Qed.


(** The collections and their business keys, as [unique_keys] takes them. *)
Lemma business_key_of_each_collection :
  map (fun s => (step_collection s, step_key s)) steps =
    [("Counter", "key"); ("DepartmentParent", "departmentId");
     ("DepartmentChild", "childDeptId"); ("Employee", "employeeId");
     ("Project", "projectId"); ("ProjectEmployee", "empProjectId")].
Proof. reflexivity. Qed.

Lemma unique_keys_empty : unique_keys ∅.
Proof. intros s db _. rewrite lookup_empty. constructor. Qed.


(** ** What a seeded record leaves in the database *)

Lemma upsert_stores filter set docs :
  exists d0, In (apply_set set d0) (upsert filter set docs).
Proof.
  induction docs as [| d rest [d0 IH]]; simpl.
  - eexists. left. reflexivity.
  - destruct (matches filter d).
    + exists d. left. reflexivity.
    + exists d0. right. exact IH.
Qed.

Lemma apply_set_lookup set d f x :
  (list_to_map set : document) !! f = Some x -> apply_set set d !! f = Some x.
Proof. intros H. unfold apply_set. apply lookup_union_Some_l. exact H. Qed.

(** A turn of the loop that counts its record has evaluated the filter and
    the [$set] literal and has had its write accepted. *)
Lemma seed_record_counted s coll r n w w' :
  seed_record s coll r n w = (Ok (S n), w') ->
  exists set w3,
    literal r (step_set s) w = (Ok set, w3) /\
    updateOne coll [(step_key s, get_member r (step_key s))] set w3 = (Ok tt, w').
Proof.
  unfold seed_record, try_catch. rewrite bind_run.
  destruct (literal r [(step_key s, Member)] w) as [[filter | e] w2] eqn:E1.
  - destruct (literal_key _ _ _ _ _ E1) as [-> [-> Hr]].
    rewrite bind_run.
    destruct (literal r (step_set s) w) as [[set | e] w3] eqn:E2.
    + rewrite bind_run.
      destruct (updateOne coll [(step_key s, get_member r (step_key s))] set w3)
        as [[[] | e] w4] eqn:E3.
      * unfold ret. intros [= <-]. exists set, w3. split; [reflexivity | exact E3].
      * rewrite !bind_run. unfold lift.
        destruct (get r (step_key s)); [| discriminate].
        destruct (interpolate a); [| discriminate].
        unfold console_error, print, ret. intros [= Hn _]. lia.
    + rewrite !bind_run. unfold lift.
      destruct (get r (step_key s)); [| discriminate].
      destruct (interpolate a); [| discriminate].
      unfold console_error, print, ret. intros [= Hn _]. lia.
  - rewrite !bind_run. unfold lift.
    destruct (get r (step_key s)); [| discriminate].
    destruct (interpolate a); [| discriminate].
    unfold console_error, print, ret. intros [= Hn _]. lia.
Qed.

Lemma updateOne_accepted coll filter set w w' :
  updateOne coll filter set w = (Ok tt, w') ->
  documents w' coll = upsert (serialize filter) (serialize set) (documents w coll) /\
  clock w' = clock w /\ clock_reads w' = clock_reads w.
Proof.
  unfold updateOne, driver_call. destruct (faults w (length (trace w))); [discriminate |].
  intros [= <-]. unfold documents. simpl. rewrite lookup_insert_eq. auto.
Qed.

Lemma seeded_record s db r n w w' :
  In s steps ->
  seed_record s (db, step_collection s) r n w = (Ok (S n), w') ->
  exists d,
    In d (documents w' (db, step_collection s)) /\
    field d (step_key s) = toBSON (get_member r (step_key s)) /\
    forall f i, In (f, i) (step_set s) ->
      exists x, d !! f = Some (toBSON x) /\ yields w w' r f i x.
Proof.
  intros Hs H. destruct (seed_record_counted _ _ _ _ _ _ H) as [set [w3 [Hset Hup]]].
  apply updateOne_accepted in Hup as [Hdocs [Hclock Hreads]].
  destruct (upsert_stores (serialize [(step_key s, get_member r (step_key s))])
              (serialize set) (documents w3 (db, step_collection s))) as [d0 Hd].
  exists (apply_set (serialize set) d0). split; [rewrite Hdocs; exact Hd |].
  assert (Hall : forall f i, In (f, i) (step_set s) ->
            exists x, apply_set (serialize set) d0 !! f = Some (toBSON x) /\ yields w w' r f i x);
    [| split; [| exact Hall];
       destruct (Hall _ _ (steps_key s Hs)) as [x [Hx Hy]]; unfold yields in Hy; subst x;
       unfold field; rewrite Hx; reflexivity].
  intros f i Hin.
  destruct (literal_lookup _ _ _ _ _ _ _ (steps_distinct s Hs) Hset Hin) as [x [Hx Hy]].
  exists x. split; [apply apply_set_lookup; exact Hx |].
  eapply yields_mono; [reflexivity | | | exact Hy]; lia.
Qed.


(** The defaults of the six literals are written as they are. *)
Lemma steps_defaults s f i :
  In s steps -> In (f, i) (step_set s) ->
  match i with MemberOr d | DefinedOr d => toBSON d = d | _ => True end.
Proof.
  intros Hs Hin.
  assert (H : Forall (fun fi => match snd fi with
                                | MemberOr d | DefinedOr d => toBSON d = d
                                | _ => True
                                end) (step_set s)).
  { unfold steps in Hs. simpl in Hs.
    repeat (destruct Hs as [<- | Hs]; [repeat constructor |]). destruct Hs. }
  rewrite Forall_forall in H. apply list_elem_of_In in Hin. exact (H _ Hin).
Qed.

(** The fields of the six literals that are left alone unless undefined. *)
Lemma fields_defaulted_when_undefined :
  concat (map (fun s => omap (fun fi => match snd fi with
                                         | DefinedOr d => Some (step_collection s, fst fi, d)
                                         | _ => None
                                         end) (step_set s)) steps) =
  [("Employee", "isActive", VBool true);
   ("ProjectEmployee", "isActive", VBool true);
   ("ProjectEmployee", "billable", VNull)].
Proof. reflexivity. Qed.

(** Some of the fields of the six literals that fall back with [||]. *)
Lemma fields_defaulted_when_falsy :
  In ("tags", MemberOr (VArr [])) (step_set Employee_step) /\
  In ("contactNo", MemberOr VNull) (step_set Employee_step) /\
  In ("allocationPct", MemberOr VNull) (step_set ProjectEmployee_step) /\
  In ("readinessScore", MemberOr VNull) (step_set Project_step) /\
  In ("status", MemberOr (VStr "draft")) (step_set Project_step).
Proof. simpl. tauto. Qed.


Lemma run_counted {A} (m : M A) w a : fst (m w) = Ok a -> m w = (Ok a, snd (m w)).
Proof. destruct (m w) as [r w']. simpl. intros ->. reflexivity. Qed.




(** ** A record that is null *)

(** C5 fails on the code: Counter.json holds [null] and then a counter.  The
    turn of the loop for [null] throws a TypeError when it reads the key for
    the filter; the catch clause reads the key again for its message and
    throws in its turn.  The error leaves [seedCounter]: the counter after
    it is never written, and no count is printed. *)
Theorem seedCounter_stops_at_null_record :
  let w := world_of [("Counter.json", "[null, {'key':'emp','value':1}]")] in
  let w' := snd (seedCounter "hr" w) in
  fst (seedCounter "hr" w) = Throw (TypeError "Cannot read properties of null (reading 'key')") /\
  documents w' ("hr", "Counter") = [] /\
  trace w' = [] /\
  console w' = [Line Log [Lit "🌱 Seeding Counter..."] None].
Proof. repeat split; vm_compute; reflexivity. Qed.

(** The same file with the two records in the other order: the counter is
    written, and the run still ends at the null record, without a count. *)
Lemma seedCounter_stops_after_first_record :
  let w := world_of [("Counter.json", "[{'key':'emp','value':1}, null]")] in
  let w' := snd (seedCounter "hr" w) in
  fst (seedCounter "hr" w) = Throw (TypeError "Cannot read properties of null (reading 'key')") /\
  map (fun d : document => d !! "key") (documents w' ("hr", "Counter")) = [Some (VStr "emp")] /\
  console w' = [Line Log [Lit "🌱 Seeding Counter..."] None].
Proof. repeat split; vm_compute; reflexivity. Qed.

(** ** Running the script again *)


(** ** Export files that cannot be used *)

Lemma truthy_trim content :
  truthy (VStr (trim content)) = false <-> trim content = EmptyString.
Proof.
  simpl. rewrite negb_false_iff. apply String.eqb_eq.
Qed.

Lemma parseJSON_unusable w path l :
  unusable w path l -> parseJSON path w = (Ok [], say l w).
Proof.
  intros H. unfold parseJSON. rewrite bind_run. unfold fs_existsSync.
  destruct H as [Hnone | content Hsome Hblank | content e Hsome Hfull Hbad].
  - rewrite Hnone. rewrite bool_decide_eq_false_2; [reflexivity |].
    intros [x Hx]. discriminate.
  - rewrite Hsome. rewrite bool_decide_eq_true_2; [| eexists; reflexivity].
    cbn [negb]. rewrite bind_run. unfold fs_readFileSync. rewrite Hsome.
    apply truthy_trim in Hblank. rewrite Hblank. reflexivity.
  - rewrite Hsome. rewrite bool_decide_eq_true_2; [| eexists; reflexivity].
    cbn [negb]. rewrite bind_run. unfold fs_readFileSync. rewrite Hsome.
    destruct (truthy (VStr (trim content))) eqn:Ht.
    + cbn [negb]. unfold try_catch. rewrite bind_run. unfold lift. rewrite Hbad. reflexivity.
    + apply truthy_trim in Ht. contradiction.
Qed.

Lemma parseJSON_returns w path :
  (forall e, files w !! path <> Some (Unreadable e)) ->
  exists records w', parseJSON path w = (Ok records, w').
Proof.
  intros Hread. unfold parseJSON. rewrite bind_run. unfold fs_existsSync.
  destruct (files w !! path) as [[content | e] |] eqn:Hf.
  - rewrite bool_decide_eq_true_2; [| eexists; reflexivity].
    cbn [negb]. rewrite bind_run. unfold fs_readFileSync. rewrite Hf.
    destruct (truthy (VStr (trim content))); cbn [negb].
    + unfold try_catch. rewrite bind_run. unfold lift.
      destruct (JSON_parse content) as [data | e]; [| eexists _, _; reflexivity].
      destruct (mapM parseMongoDBExtendedJSON _); eexists _, _; reflexivity.
    + eexists _, _. reflexivity.
  - exfalso. exact (Hread e eq_refl).
  - rewrite bool_decide_eq_false_2; [| intros [x Hx]; discriminate].
    eexists _, _. reflexivity.
Qed.

Lemma seed_unusable s db w l :
  unusable w (path_join JSON_DIR (step_file s)) l ->
  seed s db w = (Ok tt, say (Line Log [Lit (step_none s)] None)
                          (say l (say (Line Log [Lit (step_start s)] None) w))).
Proof.
  intros H. unfold seed. rewrite bind_run. unfold console_log at 1. unfold print at 1.
  rewrite bind_run.
  assert (H' : unusable (say (Line Log [Lit (step_start s)] None) w)
                 (path_join JSON_DIR (step_file s)) l).
  { destruct H; econstructor; eassumption. }
  fold (say (Line Log [Lit (step_start s)] None) w).
  rewrite (parseJSON_unusable _ _ _ H'). reflexivity.
Qed.

(** C4, as amended: on a path that is not something unreadable, [parseJSON]
    does not throw.  When the path names no file, when the file holds white
    space only, and when JSON.parse rejects its text, [parseJSON] prints a
    line about it (a warning in the first two cases, the error in the
    third) and returns the empty list; the seed function of that file then
    prints that there is nothing to seed and returns, the database and the
    driver untouched. *)
Theorem parseJSON_tolerates_unusable_files w path :
  (forall e, files w !! path <> Some (Unreadable e)) ->
  (exists records w', parseJSON path w = (Ok records, w')) /\
  (forall l, unusable w path l ->
     parseJSON path w = (Ok [], say l w) /\
     line_level l <> Log /\
     forall s db, path = path_join JSON_DIR (step_file s) ->
       exists w', seed s db w = (Ok tt, w') /\ store w' = store w /\ trace w' = trace w /\
                  last (console w') = Some (Line Log [Lit (step_none s)] None)).
Proof.
  intros Hread. split; [apply parseJSON_returns; exact Hread |].
  intros l Hl. split; [apply parseJSON_unusable; exact Hl |].
  split; [destruct Hl; discriminate |].
  intros s db ->. eexists. split; [apply seed_unusable; exact Hl |].
  repeat split. simpl. apply last_snoc.
Qed.

(** The amended C4 where there is no Counter.json. *)
Lemma parseJSON_tolerates_unusable_files_witness :
  parseJSON (path_join JSON_DIR "Counter.json") (world_of [])
  = (Ok [], say (not_found (path_join JSON_DIR "Counter.json")) (world_of [])).
Proof.
  apply (proj2 (parseJSON_tolerates_unusable_files (world_of [])
                  (path_join JSON_DIR "Counter.json")
                  ltac:(intros e H; vm_compute in H; discriminate))).
  apply file_missing. reflexivity.
Defined.

(** C4 does not hold as stated: where Counter.json is a directory, the path
    exists and reading it fails, outside of the try of [parseJSON]; the
    error leaves [parseJSON], and [seedCounter] with it. *)
Lemma parseJSON_throws_on_directory :
  let path := path_join JSON_DIR "Counter.json" in
  let e := mkError "Error" "EISDIR: illegal operation on a directory, read" in
  fst (parseJSON path world_with_directory) = Throw e /\
  fst (seedCounter "hr" world_with_directory) = Throw e.
Proof. split; vm_compute; reflexivity. Qed.

(** ** Numbers wrapped as [$numberLong] *)

Lemma digits2_pos_size m : digits2_pos m = Pos.size m.
Proof. induction m; simpl; congruence. Qed.

Lemma digits2_pos_bound m : Zpos m < 2 ^ 53 -> 1 <= Zpos (digits2_pos m) <= 53.
Proof.
  intros H. rewrite digits2_pos_size. split; [lia |].
  pose proof (Pos.size_le m) as Hle.
  assert (Hz : 2 ^ Zpos (Pos.size m) <= Zpos m~0).
  { rewrite <- Pos2Z.inj_pow. apply Pos2Z.pos_le_pos. exact Hle. }
  rewrite Pos2Z.inj_xO in Hz.
  destruct (Z_le_gt_dec (Zpos (Pos.size m)) 53) as [Hok | Hbig]; [exact Hok |].
  assert (2 ^ 54 <= 2 ^ Zpos (Pos.size m)) by (apply Z.pow_le_mono_r; lia).
  change (2 ^ 54) with (2 * 2 ^ 53) in H0. lia.
Qed.

Lemma iter_xO_value m k : Zpos (Pos.iter xO m k) = Zpos m * 2 ^ Zpos k.
Proof.
  revert m. induction k using Pos.peano_ind; intros m.
  - simpl. lia.
  - rewrite Pos.iter_succ. rewrite Pos2Z.inj_xO, IHk, Pos2Z.inj_succ, Z.pow_succ_r; lia.
Qed.

Lemma iter_xO_digits m k :
  Zpos (digits2_pos (Pos.iter xO m k)) = Zpos (digits2_pos m) + Zpos k.
Proof.
  revert m. induction k using Pos.peano_ind; intros m.
  - simpl. lia.
  - rewrite Pos.iter_succ. simpl digits2_pos. rewrite Pos2Z.inj_succ, IHk. lia.
Qed.

Lemma fexp_small d : -1021 <= d <= 1024 -> fexp prec emax d = d - 53.
Proof. intros H. unfold fexp, emin, prec, emax. lia. Qed.

Lemma binary_round_aux_canonical sg mz e :
  Zpos (digits2_pos mz) = 53 -> -1074 <= e <= 971 ->
  binary_round_aux prec emax sg (Zpos mz) e loc_Exact = S754_finite sg mz e.
Proof.
  intros Hd He. unfold binary_round_aux, shr_fexp.
  cbn [Zdigits2 shr_record_of_loc]. rewrite Hd.
  assert (Hf : fexp prec emax (53 + e) - e = 0).
  { unfold fexp, emin, prec, emax. lia. }
  rewrite Hf. cbn [shr shr_m loc_of_shr_record round_nearest_even Zdigits2 shr_record_of_loc].
  rewrite Hd, Hf. cbn [shr shr_m].
  assert (Hle : (e <=? emax - prec) = true) by (unfold emax, prec; lia).
  rewrite Hle. reflexivity.
Qed.

Lemma binary_round_exact sg m :
  Zpos m < 2 ^ 53 ->
  num2Z (binary_round prec emax sg m 0) = Some (cond_Zopp sg (Zpos m)).
Proof.
  intros Hm. pose proof (digits2_pos_bound m Hm) as Hd.
  unfold binary_round. rewrite Z.add_0_r, fexp_small by lia.
  unfold shl_align. rewrite Z.sub_0_r.
  destruct (Zpos (digits2_pos m) - 53) as [| k | k] eqn:Hk; try lia.
  - rewrite binary_round_aux_canonical by lia.
    unfold num2Z. cbn [Z.leb Z.compare]. rewrite Z.pow_0_r, Z.mul_1_r. reflexivity.
  - rewrite binary_round_aux_canonical; [| rewrite iter_xO_digits; lia | lia].
    unfold num2Z. cbn [Z.leb Z.compare]. rewrite iter_xO_value.
    cbn [Z.opp]. rewrite Z.mod_mul, Z.div_mul by lia. reflexivity.
Qed.

Lemma Z2num_exact n : - 2 ^ 53 <= n <= 2 ^ 53 -> num2Z (Z2num n) = Some n.
Proof.
  intros Hn. unfold Z2num, binary_normalize. destruct n as [| m | m].
  - reflexivity.
  - destruct (Z.eq_dec (Zpos m) (2 ^ 53)) as [E | E].
    + injection E as ->. vm_compute. reflexivity.
    + rewrite binary_round_exact by lia. reflexivity.
  - destruct (Z.eq_dec (Zpos m) (2 ^ 53)) as [E | E].
    + injection E as ->. vm_compute. reflexivity.
    + rewrite binary_round_exact by lia. reflexivity.
Qed.

Lemma chars_str l : chars (str l) = l.
Proof. apply list_ascii_of_string_of_list_ascii. Qed.

Lemma digit_char_spec d :
  0 <= d < 10 -> is_digit (digit_char d) = true /\ digit_val (digit_char d) = d.
Proof.
  intros H.
  assert (E : d = 0 \/ d = 1 \/ d = 2 \/ d = 3 \/ d = 4 \/ d = 5 \/ d = 6 \/ d = 7 \/ d = 8 \/ d = 9)
    by lia.
  repeat (destruct E as [-> | E]; [split; reflexivity |]). subst d. split; reflexivity.
Qed.

Lemma digits_value_snoc ds c : digits_value (ds ++ [c]) = digits_value ds * 10 + digit_val c.
Proof. unfold digits_value. rewrite fold_left_app. reflexivity. Qed.

Lemma digits_of_S f z acc :
  digits_of (S f) z acc =
  if z <? 10 then digit_char z :: acc
  else digits_of f (z / 10) (digit_char (z mod 10) :: acc).
Proof. reflexivity. Qed.

Lemma digits_of_spec fuel : forall z acc,
  0 <= z < 10 ^ Z.of_nat (S fuel) ->
  exists ds, digits_of (S fuel) z acc = ds ++ acc /\ ds <> [] /\
             forallb is_digit ds = true /\ digits_value ds = z.
Proof.
  induction fuel as [| f IH]; intros z acc Hz; rewrite digits_of_S; destruct (z <? 10) eqn:Hlt.
  1, 3: apply Z.ltb_lt in Hlt; destruct (digit_char_spec z ltac:(lia)) as [Hd Hv];
    exists [digit_char z]; repeat split;
    [discriminate | simpl; rewrite Hd; reflexivity | unfold digits_value; simpl; exact Hv].
  - apply Z.ltb_ge in Hlt. change (10 ^ Z.of_nat 1) with 10 in Hz. lia.
  - apply Z.ltb_ge in Hlt.
    assert (Hq : 0 <= z / 10 < 10 ^ Z.of_nat (S f)).
    { rewrite (Nat2Z.inj_succ (S f)), Z.pow_succ_r in Hz by lia.
      split; [apply Z.div_pos; lia | apply Z.div_lt_upper_bound; lia]. }
    destruct (IH (z / 10) (digit_char (z mod 10) :: acc) Hq) as [ds [E [Hne [Hall Hv]]]].
    destruct (digit_char_spec (z mod 10) ltac:(apply Z.mod_pos_bound; lia)) as [Hd Hdv].
    exists (ds ++ [digit_char (z mod 10)]). repeat split.
    + rewrite E, <- app_assoc. reflexivity.
    + destruct ds; discriminate.
    + rewrite forallb_app, Hall. simpl. rewrite Hd. reflexivity.
    + rewrite digits_value_snoc, Hv, Hdv. pose proof (Z.div_mod z 10). lia.
Qed.

Lemma decimal_spec z :
  0 <= z ->
  decimal z <> [] /\ forallb is_digit (decimal z) = true /\ digits_value (decimal z) = z.
Proof.
  intros Hz. unfold decimal.
  destruct (digits_of_spec (Z.to_nat (Z.log2 z)) z []) as [ds [E [Hne [Hall Hv]]]].
  - split; [exact Hz |]. rewrite Nat2Z.inj_succ, Z2Nat.id by apply Z.log2_nonneg.
    destruct (Z.eq_dec z 0) as [-> | Hnz]; [reflexivity |].
    pose proof (Z.log2_spec z ltac:(lia)) as [_ Hlt].
    eapply Z.lt_le_trans; [exact Hlt |].
    apply Z.pow_le_mono_l. lia.
  - rewrite E, app_nil_r. auto.
Qed.

Lemma take_digits_all ds : forallb is_digit ds = true -> take_digits ds = ds.
Proof.
  induction ds as [| c r IH]; simpl; [reflexivity |].
  destruct (is_digit c); simpl; [| discriminate]. intros H. rewrite IH by exact H. reflexivity.
Qed.

(** A text that starts with a digit or a minus sign has no white space to trim. *)
Lemma trim_start_digit c r :
  is_digit c || Ascii.eqb c "-" = true -> trim_start (c :: r) = c :: r.
Proof.
  intros H. unfold trim_start. cbn [length trim_start_fuel].
  assert (E : strip_any white_space (c :: r) = None); [| rewrite E; reflexivity].
  destruct c as [[] [] [] [] [] [] [] []]; try discriminate H; reflexivity.
Qed.

Lemma parseInt_decimal_text n :
  parseInt_string (decimal_text n) = if n =? 0 then S754_zero false else Z2num n.
Proof.
  unfold parseInt_string, decimal_text. destruct (n <? 0) eqn:Hneg.
  - apply Z.ltb_lt in Hneg.
    destruct (decimal_spec (- n) ltac:(lia)) as [Hne [Hall Hv]].
    change (chars (String "-" (str (decimal (- n))))) with ("-"%char :: chars (str (decimal (- n)))).
    rewrite chars_str, trim_start_digit by reflexivity.
    rewrite take_digits_all by exact Hall.
    destruct (decimal (- n)) as [| c r] eqn:E; [congruence |].
    rewrite Hv. destruct (- n =? 0) eqn:E0; [lia |].
    destruct (n =? 0) eqn:E1; [lia |]. simpl. rewrite Z.opp_involutive. reflexivity.
  - apply Z.ltb_ge in Hneg.
    destruct (decimal_spec n Hneg) as [Hne [Hall Hv]].
    rewrite chars_str.
    destruct (decimal n) as [| c r] eqn:E; [congruence |].
    assert (Hc : is_digit c = true) by (simpl in Hall; apply andb_true_iff in Hall; tauto).
    rewrite trim_start_digit by (rewrite Hc; reflexivity).
    assert (Hsign : match c :: r with
                    | "-"%char :: r0 => (true, r0)
                    | "+"%char :: r0 => (false, r0)
                    | _ => (false, c :: r)
                    end = (false, c :: r)).
    { destruct c as [[] [] [] [] [] [] [] []]; try discriminate Hc; reflexivity. }
    rewrite Hsign. rewrite take_digits_all by exact Hall. rewrite Hv. reflexivity.
Qed.

Lemma parse_numberLong s :
  parseMongoDBExtendedJSON (wrapper "$numberLong" s) = Ok (VNum (parseInt_string s)).
Proof. reflexivity. Qed.

(** C7, as amended: an integer between -2^53 and 2^53, wrapped as
    [{ "$numberLong": s }] with [s] its decimal text, is converted to the
    number of exactly that value. *)
Theorem numberLong_exact_up_to_2_53 n :
  - 2 ^ 53 <= n <= 2 ^ 53 ->
  exists x,
    parseMongoDBExtendedJSON (wrapper "$numberLong" (decimal_text n)) = Ok (VNum x) /\
    num2Z x = Some n.
Proof.
  intros Hn. rewrite parse_numberLong, parseInt_decimal_text.
  eexists. split; [reflexivity |].
  destruct (n =? 0) eqn:E.
  - apply Z.eqb_eq in E. subst n. reflexivity.
  - apply Z2num_exact. exact Hn.
Qed.

Lemma numberLong_exact_up_to_2_53_witness :
  exists x,
    parseMongoDBExtendedJSON (wrapper "$numberLong" (decimal_text 1728074791)) = Ok (VNum x) /\
    num2Z x = Some 1728074791.
Proof. apply (numberLong_exact_up_to_2_53 1728074791). lia. Defined.

(** C7 does not hold as stated: 2^53 + 1 is a 64-bit integer; wrapped as
    [{ "$numberLong": "9007199254740993" }] it is converted to the number
    2^53, the nearest double. *)
Lemma numberLong_rounds_above_2_53 :
  - 2 ^ 63 <= 9007199254740993 < 2 ^ 63 /\
  decimal_text 9007199254740993 = "9007199254740993" /\
  exists x,
    parseMongoDBExtendedJSON (wrapper "$numberLong" "9007199254740993") = Ok (VNum x) /\
    num2Z x = Some 9007199254740992 /\
    num2Z x <> Some 9007199254740993.
Proof.
  split; [lia |]. split; [vm_compute; reflexivity |].
  eexists. split; [vm_compute; reflexivity |]. split; [vm_compute; reflexivity |].
  vm_compute. discriminate.
Qed.

(** ** Wrappers inside objects and arrays *)

Lemma parse_array elems :
  parseMongoDBExtendedJSON (VArr elems) = result_map VArr (mapM parseMongoDBExtendedJSON elems).
Proof.
  cbn [parseMongoDBExtendedJSON truthy typeof_object andb has_property].
  f_equal. induction elems as [| x r IH]; [reflexivity |].
  cbn [mapM]. rewrite <- IH. reflexivity.
Qed.

Lemma parse_object p ms :
  has_wrapper_key (VObj p ms) = false ->
  parseMongoDBExtendedJSON (VObj p ms) = each_member ms (VObj ObjectPrototype []).
Proof.
  unfold has_wrapper_key, wrapper_keys. cbn [existsb]. rewrite !orb_false_iff.
  intros [H1 [H2 [H3 [H4 _]]]].
  cbn [parseMongoDBExtendedJSON truthy typeof_object andb].
  rewrite H1, H2, H3, H4. clear H1 H2 H3 H4.
  generalize (VObj ObjectPrototype []).
  induction ms as [| [k x] r IH]; intros o; [reflexivity |].
  cbn [each_member]. destruct (parseMongoDBExtendedJSON x); [| reflexivity].
  cbn [result_bind]. apply IH.
Qed.

Lemma parse_primitive v : typeof_object v = false -> parseMongoDBExtendedJSON v = Ok v.
Proof.
  destruct v; try discriminate; intros _;
    cbn [parseMongoDBExtendedJSON typeof_object]; rewrite andb_false_r; reflexivity.
Qed.

Lemma new_Date_throws v e : new_Date v = Throw e -> e = toPrimitive_error.
Proof.
  unfold new_Date. destruct v; try destruct (toPrimitive_throws _); congruence.
Qed.

Lemma parseInt10_throws v e : parseInt10 v = Throw e -> e = toPrimitive_error.
Proof. unfold parseInt10. destruct (toPrimitive_throws v); congruence. Qed.

Lemma mapM_throws {A B} (f : A -> result B) l e :
  mapM f l = Throw e -> exists x, In x l /\ f x = Throw e.
Proof.
  induction l as [| x r IH]; simpl; [discriminate |].
  destruct (f x) as [y | e'] eqn:E; simpl.
  - destruct (mapM f r) as [ys | e'']; simpl; [discriminate |].
    intros [= ->]. destruct (IH eq_refl) as [z [Hz Hf]]. exists z. split; [right |]; assumption.
  - intros [= ->]. exists x. split; [left; reflexivity | exact E].
Qed.

Lemma mapM_nth {A B} (f : A -> result B) l ys i x :
  mapM f l = Ok ys -> nth_error l i = Some x ->
  exists y, f x = Ok y /\ nth_error ys i = Some y.
Proof.
  revert ys i. induction l as [| a r IH]; intros ys i; simpl.
  - intros _. destruct i; discriminate.
  - destruct (f a) as [b | e] eqn:E; simpl; [| discriminate].
    destruct (mapM f r) as [bs | e] eqn:Er; simpl; [| discriminate].
    intros [= <-]. destruct i as [| i]; simpl.
    + intros [= <-]. exists b. split; [exact E | reflexivity].
    + intros Hi. exact (IH bs i eq_refl Hi).
Qed.

Lemma each_member_throws ms : forall o e,
  each_member ms o = Throw e ->
  exists x, In x (map snd ms) /\ parseMongoDBExtendedJSON x = Throw e.
Proof.
  induction ms as [| [k x] r IH]; intros o e; simpl; [discriminate |].
  destruct (parseMongoDBExtendedJSON x) as [y | e'] eqn:E; simpl.
  - intros H. destruct (IH _ _ H) as [z [Hz Hf]]. exists z. split; [right |]; assumption.
  - intros [= ->]. exists x. split; [left; reflexivity | exact E].
Qed.

(** The one error the conversion throws is the TypeError of a payload that
    cannot be made a primitive. *)
Lemma parse_throws v : forall e, parseMongoDBExtendedJSON v = Throw e -> e = toPrimitive_error.
Proof.
  induction v as [| | b | x | s | a IH | l IH | p ms IHp IH] using value_ind; intros e;
    try (rewrite parse_primitive by reflexivity; discriminate); try (simpl; discriminate).
  - rewrite parse_array. destruct (mapM parseMongoDBExtendedJSON l) as [ys | e'] eqn:E;
      simpl; [discriminate |].
    intros [= ->]. destruct (mapM_throws _ _ _ E) as [x [Hx Hf]].
    rewrite Forall_forall in IH. apply (IH x); [apply list_elem_of_In; exact Hx | exact Hf].
  - destruct (has_wrapper_key (VObj p ms)) eqn:Hw.
    + unfold has_wrapper_key, wrapper_keys in Hw. cbn [existsb] in Hw.
      cbn [parseMongoDBExtendedJSON truthy typeof_object andb].
      destruct (has_property "$date" (VObj p ms)); [apply new_Date_throws |].
      destruct (has_property "$numberLong" (VObj p ms)); [apply parseInt10_throws |].
      destruct (has_property "$numberInt" (VObj p ms)); [apply parseInt10_throws |].
      destruct (has_property "$oid" (VObj p ms)); [discriminate |]. discriminate Hw.
    + rewrite (parse_object p ms Hw). intros H.
      destruct (each_member_throws _ _ _ H) as [x [Hx Hf]].
      apply in_map_iff in Hx as [[k x'] [Hk Hin]]. simpl in Hk. subst x'.
      rewrite Forall_forall in IH.
      apply (IH (k, x)); [apply list_elem_of_In; exact Hin | exact Hf].
Qed.

Lemma lookup_set_member_eq k x ms : lookup_member k (set_member k x ms) = Some x.
Proof.
  induction ms as [| [j y] r IH]; simpl.
  - rewrite String.eqb_refl. reflexivity.
  - destruct (String.eqb j k) eqn:E; simpl; rewrite E; [reflexivity | exact IH].
Qed.

Lemma lookup_set_member_ne k k' x ms :
  k <> k' -> lookup_member k' (set_member k x ms) = lookup_member k' ms.
Proof.
  intros Hne. induction ms as [| [j y] r IH]; simpl.
  - destruct (String.eqb k k') eqn:E; [apply String.eqb_eq in E; contradiction | reflexivity].
  - destruct (String.eqb j k) eqn:E; simpl.
    + apply String.eqb_eq in E. subst j.
      destruct (String.eqb k k') eqn:E'; [apply String.eqb_eq in E'; contradiction | reflexivity].
    + destruct (String.eqb j k'); [reflexivity | exact IH].
Qed.

Lemma assign_own o key y k :
  is_obj o = true -> k <> "__proto__" ->
  is_obj (assign o key y) = true /\
  own (assign o key y) k = if String.eqb key k then Some y else own o k.
Proof.
  intros Ho Hk. destruct o as [| | | | | | | p ms]; try discriminate. unfold assign.
  destruct (String.eqb key "__proto__" && reaches_proto_setter p) eqn:E.
  - apply andb_true_iff in E as [E _]. apply String.eqb_eq in E. subst key.
    assert (String.eqb "__proto__" k = false) as ->.
    { apply String.eqb_neq. congruence. }
    destruct y; split; reflexivity.
  - split; [reflexivity |]. simpl.
    destruct (String.eqb key k) eqn:Ek.
    + apply String.eqb_eq in Ek. subst k. apply lookup_set_member_eq.
    + apply String.eqb_neq in Ek. apply lookup_set_member_ne. exact Ek.
Qed.

Lemma lookup_member_None k ms : ~ In k (map fst ms) -> lookup_member k ms = None.
Proof.
  induction ms as [| [j y] r IH]; simpl; [reflexivity |].
  intros H. destruct (String.eqb j k) eqn:E.
  - apply String.eqb_eq in E. tauto.
  - apply IH. tauto.
Qed.

Lemma each_member_own ms : forall o res k,
  is_obj o = true -> k <> "__proto__" -> NoDup (map fst ms) ->
  each_member ms o = Ok res ->
  is_obj res = true /\
  match lookup_member k ms with
  | Some x => exists y, parseMongoDBExtendedJSON x = Ok y /\ own res k = Some y
  | None => own res k = own o k
  end.
Proof.
  induction ms as [| [j x] r IH]; intros o res k Ho Hk Hnd; simpl.
  - intros [= <-]. split; [exact Ho | reflexivity].
  - destruct (parseMongoDBExtendedJSON x) as [y | e] eqn:E; simpl; [| discriminate].
    intros H. simpl in Hnd. apply NoDup_cons in Hnd as [Hj Hnd].
    destruct (assign_own o j y k Ho Hk) as [Ho' Hown].
    destruct (IH _ _ k Ho' Hk Hnd H) as [Hres Hlook]. split; [exact Hres |].
    destruct (String.eqb j k) eqn:Ejk.
    + apply String.eqb_eq in Ejk. subst j.
      rewrite lookup_member_None in Hlook
        by (intros Hin; apply Hj; apply list_elem_of_In; exact Hin).
      exists y. split; [exact E |]. rewrite Hlook. exact Hown.
    + destruct (lookup_member k r); [exact Hlook |]. rewrite Hlook. exact Hown.
Qed.

Lemma parse_wrapper key payload :
  In key wrapper_keys ->
  parseMongoDBExtendedJSON (wrapper key payload) = Ok (native key payload).
Proof.
  unfold wrapper_keys. simpl.
  intros [<- | [<- | [<- | [<- | []]]]]; reflexivity.
Qed.

Lemma converted_at_path p : forall v v' key payload,
  In key wrapper_keys ->
  plain_path v p ->
  at_path v p = Some (wrapper key payload) ->
  parseMongoDBExtendedJSON v = Ok v' ->
  at_path v' p = Some (native key payload).
Proof.
  induction p as [| h p IH]; intros v v' key payload Hkey Hplain Hat Hparse.
  - simpl in Hat. injection Hat as ->. rewrite (parse_wrapper _ _ Hkey) in Hparse.
    injection Hparse as <-. reflexivity.
  - destruct h as [k | i]; simpl in Hplain, Hat.
    + destruct v as [| | | | | | | pr ms]; try contradiction.
      destruct Hplain as [Hw [Hk [Hnd Hsub]]].
      rewrite (parse_object pr ms Hw) in Hparse.
      destruct (each_member_own ms (VObj ObjectPrototype []) v' k eq_refl Hk Hnd Hparse)
        as [Hobj Hlook].
      destruct (lookup_member k ms) as [x |]; [| contradiction].
      destruct Hlook as [y [Hy Hown]].
      destruct v' as [| | | | | | | pr' ms']; try discriminate.
      simpl in Hown. simpl. rewrite Hown.
      exact (IH x y key payload Hkey Hsub Hat Hy).
    + destruct v as [| | | | | | l |]; try contradiction.
      rewrite parse_array in Hparse.
      destruct (mapM parseMongoDBExtendedJSON l) as [ys | e] eqn:E; [| discriminate].
      simpl in Hparse. injection Hparse as <-.
      destruct (nth_error l i) as [x |] eqn:Hx; [| contradiction].
      destruct (mapM_nth _ _ _ _ _ E Hx) as [y [Hy Hn]].
      simpl. rewrite Hn. exact (IH x y key payload Hkey Hplain Hat Hy).
Qed.




(** A wrapper under the name [__proto__] is not converted in place either:
    the member is dropped. *)
Lemma wrapper_under_proto_is_dropped :
  parseMongoDBExtendedJSON (VObj ObjectPrototype [("__proto__", wrapper "$numberInt" "5")])
    = Ok (VObj ObjectPrototype []).
Proof. reflexivity. Qed.

(** Nor is the [$numberLong] wrapper inside a date in canonical form,
    [{ "$date": { "$numberLong": "1728074937118" } }]: the Date is built
    from the object as it stands. *)
Lemma wrapper_under_date_is_kept :
  parseMongoDBExtendedJSON
    (VObj ObjectPrototype [("$date", wrapper "$numberLong" "1728074937118")])
  = Ok (VDate (wrapper "$numberLong" "1728074937118")).
Proof. reflexivity. Qed.

(** ** Writes that repeat *)

Lemma apply_set_absorb (sa sb : list (string * jsval)) (d : document) :
  map fst sa = map fst sb -> apply_set sa (apply_set sb d) = apply_set sa d.
Proof.
  intros Hnames. unfold apply_set. apply map_eq. intros i.
  destruct ((list_to_map sa : document) !! i) as [x |] eqn:Ea.
  - rewrite !(lookup_union_Some_l _ _ _ _ Ea). reflexivity.
  - rewrite !(lookup_union_r _ _ _ Ea).
    apply lookup_union_r. apply not_elem_of_list_to_map.
    apply not_elem_of_list_to_map in Ea.
    change (sb.*1) with (map fst sb). rewrite <- Hnames. exact Ea.
Qed.

Lemma upsert_absorb key v sa sb docs :
  (list_to_map sa : document) !! key = Some v ->
  (list_to_map sb : document) !! key = Some v ->
  map fst sa = map fst sb ->
  upsert [(key, v)] sa (upsert [(key, v)] sb docs) = upsert [(key, v)] sa docs.
Proof.
  intros Ha Hb Hnames. induction docs as [| d rest IH]; cbn [upsert].
  - assert (Hm : matches [(key, v)] (apply_set sb (list_to_map [(key, v)])) = true).
    { apply matches_key. apply field_apply_set. exact Hb. }
    rewrite Hm. rewrite apply_set_absorb by exact Hnames. reflexivity.
  - destruct (matches [(key, v)] d) eqn:Hm; cbn [upsert].
    + assert (Hm' : matches [(key, v)] (apply_set sb d) = true).
      { apply matches_key. apply field_apply_set. exact Hb. }
      rewrite Hm'. rewrite apply_set_absorb by exact Hnames. reflexivity.
    + rewrite Hm, IH. reflexivity.
Qed.

Lemma matches_other key va vb s d :
  va <> vb -> (list_to_map s : document) !! key = Some va ->
  matches [(key, vb)] (apply_set s d) = false.
Proof.
  intros Hne Hs. destruct (matches [(key, vb)] (apply_set s d)) eqn:E; [| reflexivity].
  apply matches_key in E. rewrite (field_apply_set s d key va Hs) in E. contradiction.
Qed.

Lemma upsert_commute key va vb sa sb docs :
  va <> vb ->
  (list_to_map sa : document) !! key = Some va ->
  (list_to_map sb : document) !! key = Some vb ->
  In va (keys_of key docs) \/ In vb (keys_of key docs) ->
  upsert [(key, va)] sa (upsert [(key, vb)] sb docs)
  = upsert [(key, vb)] sb (upsert [(key, va)] sa docs).
Proof.
  intros Hne Ha Hb. induction docs as [| d rest IH]; intros Hin.
  - destruct Hin as [[] | []].
  - cbn [upsert].
    destruct (matches [(key, va)] d) eqn:Ma; destruct (matches [(key, vb)] d) eqn:Mb.
    + apply matches_key in Ma. apply matches_key in Mb. congruence.
    + cbn [upsert]. rewrite Ma. rewrite (matches_other key va vb sa d Hne Ha). reflexivity.
    + cbn [upsert]. rewrite Mb.
      rewrite (matches_other key vb va sb d (not_eq_sym Hne) Hb). reflexivity.
    + cbn [upsert]. rewrite Ma, Mb. rewrite IH; [reflexivity |].
      change (keys_of key (d :: rest)) with (field d key :: keys_of key rest) in Hin.
      destruct Hin as [[H | H] | [H | H]]; auto.
      * apply matches_key in H. congruence.
      * apply matches_key in H. congruence.
Qed.

Lemma keys_upsert_self key v set docs :
  (list_to_map set : document) !! key = Some v ->
  In v (keys_of key (upsert [(key, v)] set docs)).
Proof.
  intros Hs. induction docs as [| d rest IH]; cbn [upsert].
  - left. apply field_apply_set. exact Hs.
  - destruct (matches [(key, v)] d).
    + left. apply field_apply_set. exact Hs.
    + right. exact IH.
Qed.

Lemma keys_upsert_keeps key v set docs k :
  (list_to_map set : document) !! key = Some v ->
  In k (keys_of key docs) -> In k (keys_of key (upsert [(key, v)] set docs)).
Proof.
  intros Hs. induction docs as [| d rest IH]; [intros [] |].
  change (keys_of key (d :: rest)) with (field d key :: keys_of key rest).
  cbn [upsert]. destruct (matches [(key, v)] d) eqn:Hm.
  - intros [H | H]; [left | right; exact H].
    change (field (apply_set set d) key = k).
    rewrite (field_apply_set set d key v Hs). apply matches_key in Hm. congruence.
  - intros [H | H]; [left; exact H | right; apply IH; exact H].
Qed.

Lemma replay_snoc m a st : replay (m ++ [a]) st = apply_call a (replay m st).
Proof. unfold replay. rewrite fold_left_app. reflexivity. Qed.

Lemma replay_app m n st : replay (m ++ n) st = replay n (replay m st).
Proof. unfold replay. apply fold_left_app. Qed.

Lemma documents_insert (st : gmap (string * string) (list document)) c docs :
  default [] (<[c := docs]> st !! c) = docs.
Proof. rewrite lookup_insert_eq. reflexivity. Qed.

Lemma documents_insert_ne (st : gmap (string * string) (list document)) c c' docs :
  c <> c' -> default [] (<[c := docs]> st !! c') = default [] (st !! c').
Proof. intros H. rewrite lookup_insert_ne by exact H. reflexivity. Qed.

(** Two writes of the seed loops into one collection use the same key and
    set the same fields. *)
Lemma keyed_same_collection s t (c : string * string) :
  In s steps -> In t steps -> snd c = step_collection s -> snd c = step_collection t -> s = t.
Proof. intros Hs Ht H1 H2. apply steps_collection; congruence. Qed.

Lemma apply_call_absorb a b st :
  keyed a -> keyed b -> same_target a b ->
  apply_call a (apply_call b st) = apply_call a st.
Proof.
  destruct a as [| ca fa sa [] |]; try (intros _ _ H; exact (match H with end)).
  destruct b as [| cb fb sb [] |]; try (intros _ _ H; exact (match H with end)).
  intros [s [v [Hs [Hc [-> [Hv Hn]]]]]] [t [u [Ht [Hc' [Hf [Hu Hn']]]]]] [<- Heq].
  pose proof (keyed_same_collection s t ca Hs Ht Hc Hc') as <-.
  rewrite Hf in Heq. injection Heq as ->.
  cbn [apply_call]. rewrite documents_insert, insert_insert_eq. subst fb.
  rewrite upsert_absorb; [reflexivity | exact Hv | exact Hu | congruence].
Qed.

Lemma apply_call_commute a b st :
  keyed a -> keyed b -> ~ same_target a b -> present a st \/ present b st ->
  apply_call a (apply_call b st) = apply_call b (apply_call a st).
Proof.
  destruct a as [| ca fa sa [] |]; try reflexivity.
  destruct b as [| cb fb sb [] |]; try reflexivity.
  intros [s [v [Hs [Hc [-> [Hv Hn]]]]]] [t [u [Ht [Hc' [-> [Hu Hn']]]]]] Hdiff Hpres.
  cbn [apply_call]. destruct (decide (ca = cb)) as [<- | Hne].
  - pose proof (keyed_same_collection s t ca Hs Ht Hc Hc') as <-.
    rewrite !documents_insert, !insert_insert_eq. f_equal.
    apply upsert_commute; [| exact Hv | exact Hu | exact Hpres].
    intros ->. apply Hdiff. split; reflexivity.
  - rewrite documents_insert_ne by congruence.
    rewrite documents_insert_ne by congruence.
    apply insert_insert_ne. exact Hne.
Qed.

Lemma present_apply_self a st : keyed a -> present a (apply_call a st).
Proof.
  destruct a as [| ca fa sa [] |]; try (intros; exact I).
  intros [s [v [Hs [Hc [-> [Hv Hn]]]]]]. cbn [present apply_call].
  rewrite documents_insert. apply keys_upsert_self. exact Hv.
Qed.

Lemma present_apply_keeps a b st :
  keyed a -> keyed b -> present a st -> present a (apply_call b st).
Proof.
  destruct a as [| ca fa sa [] |]; try (intros; exact I).
  destruct b as [| cb fb sb [] |]; try (intros _ _ H; exact H).
  intros [s [v [Hs [Hc [-> [Hv Hn]]]]]] [t [u [Ht [Hc' [-> [Hu Hn']]]]]].
  cbn [present apply_call]. destruct (decide (cb = ca)) as [-> | Hne].
  - pose proof (keyed_same_collection s t ca Hs Ht Hc Hc') as <-.
    rewrite documents_insert. apply keys_upsert_keeps. exact Hu.
  - rewrite documents_insert_ne by exact Hne. auto.
Qed.

Lemma present_replay_keeps m : forall a st,
  keyed a -> Forall keyed m -> present a st -> present a (replay m st).
Proof.
  induction m as [| b m IH]; intros a st Ha Hm Hp; [exact Hp |].
  apply Forall_cons in Hm as [Hb Hm]. cbn [replay fold_left].
  apply IH; [exact Ha | exact Hm |]. apply present_apply_keeps; assumption.
Qed.

Lemma present_after_replay m : forall a st,
  Forall keyed m -> In a m -> present a (replay m st).
Proof.
  intros a st Hm Hin. apply in_split in Hin as [m1 [m2 ->]].
  apply Forall_app in Hm as [H1 H2]. apply Forall_cons in H2 as [Ha H2].
  rewrite replay_app. cbn [replay fold_left].
  apply present_replay_keeps; [exact Ha | exact H2 |].
  apply present_apply_self. exact Ha.
Qed.

#[global] Instance same_target_dec a b : Decision (same_target a b).
Proof.
  destruct a as [| ca fa sa [] |]; try (right; intros H; exact (match H with end)).
  destruct b as [| cb fb sb [] |]; try (right; intros H; exact (match H with end)).
  simpl. apply _.
Defined.

Lemma apply_call_twice r st : keyed r -> apply_call r (apply_call r st) = apply_call r st.
Proof.
  intros Hr. destruct r as [| c f s [] |]; try reflexivity.
  apply apply_call_absorb; [exact Hr | exact Hr | split; reflexivity].
Qed.

Lemma replay_between r m : forall x,
  keyed r -> Forall keyed m -> (forall a, In a m -> present a x) ->
  apply_call r (replay m (apply_call r x)) = apply_call r (replay m x).
Proof.
  induction m as [| a m IH] using rev_ind; intros x Hr Hm Hp;
    [apply apply_call_twice; exact Hr |].
  apply Forall_app in Hm as [Hm Ha]. apply Forall_cons in Ha as [Ha _].
  assert (Hp' : forall b, In b m -> present b x).
  { intros b Hb. apply Hp. apply in_or_app. left. exact Hb. }
  assert (Hpa : present a x).
  { apply Hp. apply in_or_app. right. left. reflexivity. }
  rewrite !replay_snoc.
  destruct (decide (same_target r a)) as [Hsame | Hdiff].
  - rewrite !(apply_call_absorb r a) by assumption. apply IH; assumption.
  - rewrite (apply_call_commute r a); [| exact Hr | exact Ha | exact Hdiff |].
    + rewrite (IH x Hr Hm Hp').
      symmetry. apply apply_call_commute; [exact Hr | exact Ha | exact Hdiff |].
      right. apply present_replay_keeps; assumption.
    + right. apply present_replay_keeps; [exact Ha | exact Hm |].
      apply present_apply_keeps; assumption.
Qed.

(** Sending the writes of a run a second time changes nothing. *)
Lemma replay_twice evs : forall st,
  Forall keyed evs -> replay evs (replay evs st) = replay evs st.
Proof.
  induction evs as [| r m IH] using rev_ind; intros st Hk; [reflexivity |].
  apply Forall_app in Hk as [Hm Hr]. apply Forall_cons in Hr as [Hr _].
  rewrite !replay_snoc.
  rewrite replay_between; [| exact Hr | exact Hm |].
  - rewrite IH by exact Hm. reflexivity.
  - intros a Ha. apply present_after_replay; assumption.
Qed.

(** ** The calls of a run depend on the files only *)

Lemma eval_init_pure r f i :
  (i = DateOrNow -> truthy (get_member r f) = true) ->
  exists res, forall w, eval_init r f i w = (res, w).
Proof.
  intros Hi. unfold eval_init.
  destruct (get r f) as [v | e] eqn:Eg.
  - assert (Hv : nullish r = false -> v = get_member r f).
    { intros Hr. rewrite (get_not_nullish r f Hr) in Eg. congruence. }
    destruct (nullish r) eqn:Hr.
    { destruct (get_nullish r f Hr) as [e He]. congruence. }
    specialize (Hv eq_refl). subst v.
    destruct i.
    + eexists. intros w. rewrite bind_run. reflexivity.
    + eexists. intros w. rewrite bind_run. reflexivity.
    + exists (if truthy (get_member r f) then new_Date (get_member r f) else Ok VNull).
      intros w. rewrite bind_run. unfold lift.
      destruct (truthy (get_member r f)); reflexivity.
    + exists (new_Date (get_member r f)).
      intros w. rewrite bind_run. unfold lift. rewrite (Hi eq_refl). reflexivity.
    + eexists. intros w. rewrite bind_run. reflexivity.
  - exists (Throw e). intros w. rewrite bind_run. reflexivity.
Qed.

Lemma literal_pure r fields :
  (forall f, In (f, DateOrNow) fields -> truthy (get_member r f) = true) ->
  exists res, forall w, literal r fields w = (res, w).
Proof.
  induction fields as [| [f i] rest IH]; intros Hst.
  - exists (Ok []). reflexivity.
  - destruct (eval_init_pure r f i) as [res1 H1].
    { intros ->. apply Hst. left. reflexivity. }
    destruct IH as [res2 H2].
    { intros g Hg. apply Hst. right. exact Hg. }
    exists (result_bind res1 (fun v => result_bind res2 (fun vs => Ok ((f, v) :: vs)))).
    intros w. cbn [literal]. rewrite bind_run, H1.
    destruct res1 as [v | e]; [| reflexivity].
    rewrite bind_run, H2. destruct res2 as [vs | e]; reflexivity.
Qed.

Lemma set_console_same w : set_console (console w ++ []) w = w.
Proof. rewrite app_nil_r. destruct w; reflexivity. Qed.

Lemma parseJSON_read path w :
  parseJSON path w =
  (fst (read_export (files w) path),
   set_console (console w ++ snd (read_export (files w) path)) w).
Proof.
  unfold parseJSON, read_export. rewrite bind_run. unfold fs_existsSync.
  destruct (files w !! path) as [[content | e] |] eqn:Hf.
  - rewrite bool_decide_eq_true_2; [| eexists; reflexivity].
    cbn [negb]. rewrite bind_run. unfold fs_readFileSync. rewrite Hf.
    destruct (truthy (VStr (trim content))); cbn [negb]; [| reflexivity].
    unfold try_catch. rewrite bind_run. unfold lift.
    destruct (JSON_parse content) as [data | e]; cbn [result_bind]; [| reflexivity].
    destruct (mapM parseMongoDBExtendedJSON _); cbn [fst snd];
      [rewrite set_console_same |]; reflexivity.
  - rewrite bool_decide_eq_true_2; [| eexists; reflexivity].
    cbn [negb]. rewrite bind_run. unfold fs_readFileSync. rewrite Hf.
    cbn [fst snd]. rewrite set_console_same. reflexivity.
  - rewrite bool_decide_eq_false_2; [| intros [x Hx]; discriminate]. reflexivity.
Qed.

Section SameCalls.

Variable fs : gmap string file.
Hypothesis Hstamped : all_stamped fs.

(** Two worlds with the same files, in which no driver call fails. *)
Definition alike (a b : world) : Prop :=
  files a = fs /\ files b = fs /\ quiet a /\ quiet b.

(** Run in two such worlds, the program makes the same calls to the driver
    and returns the same result. *)
Definition same_calls {A} (m : M A) : Prop :=
  forall a b, alike a b ->
    exists evs,
      trace (snd (m a)) = trace a ++ evs /\
      trace (snd (m b)) = trace b ++ evs /\
      store (snd (m a)) = replay evs (store a) /\
      store (snd (m b)) = replay evs (store b) /\
      Forall keyed evs /\
      fst (m a) = fst (m b) /\
      alike (snd (m a)) (snd (m b)).

Lemma same_calls_pure {A} (m : M A) res :
  (forall w, m w = (res, w)) -> same_calls m.
Proof.
  intros H a b Hab. exists []. rewrite !H. simpl. rewrite !app_nil_r.
  repeat split; auto; apply Hab.
Qed.

Lemma same_calls_print l text v : same_calls (print l text v).
Proof.
  intros a b Hab. exists []. simpl. rewrite !app_nil_r.
  repeat split; auto; apply Hab.
Qed.

Lemma same_calls_bind_when {A B} (P : A -> Prop) (m : M A) (f : A -> M B) :
  same_calls m ->
  (forall w x w', files w = fs -> m w = (Ok x, w') -> P x) ->
  (forall x, P x -> same_calls (f x)) ->
  same_calls (m ≫= f).
Proof.
  intros Hm HP Hf a b Hab. rewrite !bind_run.
  destruct (Hm a b Hab) as [e1 [Ta [Tb [Sa [Sb [K1 [Hres Hab1]]]]]]].
  destruct (m a) as [[x | e] a1] eqn:Ea; destruct (m b) as [[y | e'] b1] eqn:Eb;
    simpl in *; try discriminate.
  - injection Hres as <-.
    assert (Px : P x) by (eapply HP; [| exact Ea]; apply Hab).
    destruct (Hf x Px a1 b1 Hab1) as [e2 [Ta2 [Tb2 [Sa2 [Sb2 [K2 [Hres2 Hab2]]]]]]].
    exists (e1 ++ e2). rewrite Ta2, Tb2, Sa2, Sb2, Ta, Tb, Sa, Sb, !replay_app, !app_assoc.
    repeat split; simpl; auto; try (apply Forall_app; split; assumption); apply Hab2.
  - exists e1. repeat split; simpl; auto; try congruence; apply Hab1.
Qed.

Lemma same_calls_bind {A B} (m : M A) (f : A -> M B) :
  same_calls m -> (forall x, same_calls (f x)) -> same_calls (m ≫= f).
Proof.
  intros Hm Hf. apply (same_calls_bind_when (fun _ => True)); auto.
Qed.

Lemma same_calls_try_catch {A} (m : M A) (h : jsval -> M A) :
  same_calls m -> (forall e, same_calls (h e)) -> same_calls (try_catch m h).
Proof.
  intros Hm Hh a b Hab. unfold try_catch.
  destruct (Hm a b Hab) as [e1 [Ta [Tb [Sa [Sb [K1 [Hres Hab1]]]]]]].
  destruct (m a) as [[x | e] a1] eqn:Ea; destruct (m b) as [[y | e'] b1] eqn:Eb;
    simpl in *; try discriminate.
  - exists e1. repeat split; simpl; auto; try congruence; apply Hab1.
  - injection Hres as <-.
    destruct (Hh e a1 b1 Hab1) as [e2 [Ta2 [Tb2 [Sa2 [Sb2 [K2 [Hres2 Hab2]]]]]]].
    exists (e1 ++ e2). rewrite Ta2, Tb2, Sa2, Sb2, Ta, Tb, Sa, Sb, !replay_app, !app_assoc.
    repeat split; simpl; auto; try (apply Forall_app; split; assumption); apply Hab2.
Qed.

Lemma same_calls_for_of {A B} (xs : list A) (body : A -> B -> M B) :
  (forall x acc, In x xs -> same_calls (body x acc)) ->
  forall acc, same_calls (for_of xs acc body).
Proof.
  induction xs as [| x xs IH]; intros Hb acc; cbn [for_of].
  - apply (same_calls_pure _ (Ok acc)). reflexivity.
  - apply same_calls_bind; [apply Hb; left; reflexivity |].
    intros acc'. apply IH. intros y c Hy. apply Hb. right. exact Hy.
Qed.

Lemma same_calls_parseJSON path : same_calls (parseJSON path).
Proof.
  intros a b [Fa [Fb [Qa Qb]]]. exists [].
  rewrite (parseJSON_read path a), (parseJSON_read path b), Fa, Fb. simpl.
  rewrite !app_nil_r. repeat split; auto.
Qed.

Lemma same_calls_seed_record s db r n :
  In s steps -> stamped s r ->
  same_calls (seed_record s (db, step_collection s) r n).
Proof.
  intros Hs Hst a b Hab.
  destruct (literal_pure r [(step_key s, Member)]) as [res1 H1].
  { intros f [[= _ H] | []]. }
  destruct (literal_pure r (step_set s) Hst) as [res2 H2].
  assert (Hcatch : forall e, same_calls (fun w : world =>
            (key ← lift (get r (step_key s));
             text ← lift (interpolate key);
             console_error [Lit (step_failed s); text; Lit ":"] e;;
             ret n) w)).
  { intros e. apply same_calls_bind; [apply (same_calls_pure _ (get r (step_key s))); reflexivity |].
    intros k. apply same_calls_bind; [apply (same_calls_pure _ (interpolate k)); reflexivity |].
    intros t. apply same_calls_bind; [apply same_calls_print |].
    intros _. apply (same_calls_pure _ (Ok n)). reflexivity. }
  unfold seed_record, try_catch. rewrite !bind_run, !H1.
  destruct res1 as [filter | e]; [| exact (Hcatch e a b Hab)].
  rewrite !bind_run, !H2.
  destruct res2 as [set | e]; [| exact (Hcatch e a b Hab)].
  rewrite !bind_run. unfold updateOne, driver_call.
  destruct Hab as [Fa [Fb [Qa Qb]]]. rewrite Qa, Qb.
  exists [EvUpdateOne (db, step_collection s) (serialize filter) (serialize set) true].
  repeat split; simpl; auto.
  constructor; [| constructor].
  destruct (literal_key _ _ _ _ _ (H1 a)) as [-> _].
  destruct (literal_lookup _ _ _ _ _ _ _ (steps_distinct s Hs) (H2 a) (steps_key s Hs))
    as [x [Hx Hy]].
  unfold yields in Hy. subst x.
  exists s, (toBSON (get_member r (step_key s))).
  repeat split; auto. rewrite serialize_names. exact (literal_names _ _ _ _ _ (H2 a)).
Qed.

Lemma same_calls_seed s db : In s steps -> same_calls (seed s db).
Proof.
  intros Hs. unfold seed.
  apply same_calls_bind; [apply same_calls_print |]. intros _.
  apply (same_calls_bind_when (Forall (stamped s))); [apply same_calls_parseJSON | |].
  - intros w records w' Hw Hp. exact (Hstamped s w records w' Hs Hw Hp).
  - intros records Hrec. case_if; [apply same_calls_print |].
    apply same_calls_bind; [| intros k; apply same_calls_print].
    apply same_calls_for_of. intros r n Hr.
    apply same_calls_seed_record; [exact Hs |].
    rewrite Forall_forall in Hrec. apply Hrec. apply list_elem_of_In. exact Hr.
Qed.

Lemma same_calls_connect : same_calls client_connect.
Proof.
  intros a b [Fa [Fb [Qa Qb]]]. unfold client_connect, driver_call. rewrite Qa, Qb.
  exists [EvConnect true]. repeat split; simpl; auto.
  repeat constructor.
Qed.

Lemma same_calls_main_try url : same_calls (main_try url).
Proof.
  unfold main_try. apply same_calls_try_catch.
  - rewrite seedCounter_seed, seedDepartmentParent_seed, seedDepartmentChild_seed,
      seedEmployee_seed, seedProject_seed, seedProjectEmployee_seed.
    apply same_calls_bind; [exact same_calls_connect |]. intros _.
    apply same_calls_bind; [apply same_calls_print |]. intros _. cbv zeta.
    repeat (apply same_calls_bind;
            [apply same_calls_seed; unfold steps; simpl; tauto | intros _]).
    apply same_calls_print.
  - intros e. apply same_calls_bind; [apply same_calls_print |]. intros _.
    apply (same_calls_pure _ (Throw e)). reflexivity.
Qed.

Lemma same_calls_finally {A} (m : M A) :
  same_calls m -> same_calls (try_finally m client_close).
Proof.
  intros Hm a b Hab.
  destruct (Hm a b Hab) as [evs [Ta [Tb [Sa [Sb [K [Hres [Fa [Fb [Qa Qb]]]]]]]]]].
  unfold try_finally, client_close.
  destruct (m a) as [ra a2], (m b) as [rb b2]. simpl in *.
  exists (evs ++ [EvClose]). rewrite Ta, Tb, Sa, Sb, !replay_snoc, !app_assoc.
  repeat split; simpl; auto.
  apply Forall_app. split; [exact K | repeat constructor].
Qed.

Lemma same_calls_main url : same_calls (main url).
Proof.
  change (main url) with
    (console_log [Lit ("🚀 Starting database seed..." ++ nl)];;
     try_finally (main_try url) client_close).
  apply same_calls_bind; [apply same_calls_print |]. intros _.
  apply same_calls_finally, same_calls_main_try.
Qed.

End SameCalls.

Lemma stampedb_spec s r : stampedb s r = true -> stamped s r.
Proof.
  unfold stampedb, stamped. rewrite forallb_forall. intros H f Hf.
  exact (H (f, DateOrNow) Hf).
Qed.

Lemma all_stampedb_spec fs : all_stampedb fs = true -> all_stamped fs.
Proof.
  unfold all_stampedb, all_stamped. rewrite forallb_forall.
  intros H s w records w' Hs Hw Hp.
  specialize (H s Hs). rewrite parseJSON_read, Hw in Hp.
  injection Hp as Hp _. rewrite Hp in H.
  rewrite forallb_forall in H. apply List.Forall_forall.
  intros r Hr. apply stampedb_spec, H, Hr.
Qed.

(** ** Running the script again over stamped records *)



(** * Further properties of the conversion of Extended JSON *)

Lemma set_member_fresh k x ms :
  ~ In k (map fst ms) -> set_member k x ms = ms ++ [(k, x)].
Proof.
  induction ms as [| [j y] r IH]; simpl; intros Hk; [reflexivity |].
  destruct (String.eqb j k) eqn:E.
  - apply String.eqb_eq in E. tauto.
  - rewrite IH by tauto. reflexivity.
Qed.

Lemma existsb_eqb_In k l : existsb (String.eqb k) l = false -> ~ In k l.
Proof.
  induction l as [| x r IH]; simpl; [tauto |].
  rewrite orb_false_iff. intros [Hx Hr] [-> | H]; [| exact (IH Hr H)].
  rewrite String.eqb_refl in Hx. discriminate.
Qed.

Lemma each_member_plain ms : forall acc,
  Forall (fun km => parseMongoDBExtendedJSON (snd km) = Ok (snd km)) ms ->
  ~ In "__proto__" (map fst ms) ->
  NoDup (map fst acc ++ map fst ms) ->
  each_member ms (VObj ObjectPrototype acc) = Ok (VObj ObjectPrototype (acc ++ ms)).
Proof.
  induction ms as [| [k x] r IH]; intros acc Hall Hproto Hnd; simpl.
  - rewrite app_nil_r. reflexivity.
  - inversion Hall as [| ? ? Hx Hr]; subst. simpl in Hx. rewrite Hx. simpl.
    destruct (String.eqb k "__proto__") eqn:E.
    { apply String.eqb_eq in E. subst k. simpl in Hproto. tauto. }
    simpl. simpl in Hnd. apply NoDup_app in Hnd as [Hacc [Hdis Hkr]].
    rewrite set_member_fresh.
    + rewrite IH.
      * rewrite <- app_assoc. reflexivity.
      * exact Hr.
      * simpl in Hproto. tauto.
      * rewrite map_app. simpl. rewrite <- app_assoc. simpl.
        apply NoDup_app. repeat split; [exact Hacc | exact Hdis | exact Hkr].
    + intros Hin. apply (Hdis k); [apply list_elem_of_In; exact Hin | left].
Qed.

(** X1: a value with nothing to convert comes back as it is. *)
Theorem plain_value_unchanged v :
  plain v = true -> parseMongoDBExtendedJSON v = Ok v.
Proof.
  induction v as [| | b | x | s | a IH | l IH | p ms IHp IH] using value_ind;
    intros Hp; try (apply parse_primitive; reflexivity); try reflexivity;
    try discriminate.
  - rewrite parse_array. simpl in Hp.
    assert (H : mapM parseMongoDBExtendedJSON l = Ok l).
    { induction IH as [| x r Hx _ IHr]; [reflexivity |].
      simpl in Hp. apply andb_true_iff in Hp as [Hpx Hpr].
      simpl. rewrite (Hx Hpx), (IHr Hpr). reflexivity. }
    rewrite H. reflexivity.
  - destruct p; try discriminate.
    cbn [plain] in Hp. rewrite !andb_true_iff, !negb_true_iff in Hp.
    destruct Hp as [[[Hw Hproto] Hd] Hms].
    rewrite (parse_object _ _ Hw).
    rewrite (each_member_plain ms []); [reflexivity | | |].
    + clear Hw Hproto Hd IHp. induction IH as [| [k x] r Hx _ IHr]; constructor.
      * apply andb_true_iff in Hms as [Hpx _]. exact (Hx Hpx).
      * apply andb_true_iff in Hms as [_ Hpr]. exact (IHr Hpr).
    + apply existsb_eqb_In. exact Hproto.
    + simpl. apply distinct_NoDup. exact Hd.
Qed.

Lemma plain_value_unchanged_witness :
  parseMongoDBExtendedJSON ada = Ok ada.
Proof. apply (plain_value_unchanged ada). reflexivity. Defined.

(** X2: a 32-bit integer wrapped as [{ "$numberInt": s }], [s] its decimal text,
    is converted to the number of exactly that value. *)
Theorem numberInt_exact n :
  - 2 ^ 31 <= n < 2 ^ 31 ->
  exists x,
    parseMongoDBExtendedJSON (wrapper "$numberInt" (decimal_text n)) = Ok (VNum x) /\
    num2Z x = Some n.
Proof.
  intros Hn.
  rewrite (parse_wrapper "$numberInt" (decimal_text n)) by (simpl; tauto).
  change (native "$numberInt" (decimal_text n)) with (VNum (parseInt_string (decimal_text n))).
  rewrite parseInt_decimal_text. eexists. split; [reflexivity |].
  destruct (n =? 0) eqn:E.
  - apply Z.eqb_eq in E. subst n. reflexivity.
  - apply Z2num_exact. lia.
Qed.

Lemma numberInt_exact_witness :
  exists x,
    parseMongoDBExtendedJSON (wrapper "$numberInt" (decimal_text (-2147483648))) = Ok (VNum x) /\
    num2Z x = Some (-2147483648).
Proof. apply (numberInt_exact (-2147483648)). lia. Defined.

(** * Further properties of the reading of the export files *)

Lemma read_export_lines fs path :
  (length (snd (read_export fs path)) <= 1)%nat /\
  (snd (read_export fs path) <> [] -> fst (read_export fs path) = Ok []).
Proof.
  unfold read_export. destruct (fs !! path) as [[content | e] |];
    [| simpl; split; [lia | congruence] | simpl; split; [lia | reflexivity]].
  case_if; [simpl; split; [lia | reflexivity] |].
  destruct (result_bind _ _); simpl; split; try lia; congruence.
Qed.

(** X3: [parseJSON] changes nothing but the console, where it prints one line
    at most, and a line only when it returns the empty list. *)
Theorem parseJSON_only_prints path w :
  exists ls,
    snd (parseJSON path w) = set_console (console w ++ ls) w /\
    (length ls <= 1)%nat /\
    (ls <> [] -> fst (parseJSON path w) = Ok []).
Proof.
  exists (snd (read_export (files w) path)). rewrite parseJSON_read. simpl.
  split; [reflexivity |]. apply read_export_lines.
Qed.

(** * Further properties of the seed loops *)

Lemma set_clock_reads_same w : set_clock_reads (clock_reads w) w = w.
Proof. destruct w. reflexivity. Qed.

(** Building a literal moves nothing but the count of the clock readings. *)
Lemma literal_moves_clock r fields w :
  snd (literal r fields w) = set_clock_reads (clock_reads (snd (literal r fields w))) w.
Proof.
  apply (respects_literal (fun a b => b = set_clock_reads (clock_reads b) a)).
  - intros a. symmetry. apply set_clock_reads_same.
  - intros a b c Hab Hbc. rewrite Hbc at 1. rewrite Hab at 1.
    apply set_clock_reads_twice.
  - intros n a. reflexivity.
Qed.

Lemma interpolate_printable s r :
  printable s r -> exists t, interpolate (get_member r (step_key s)) = Ok t.
Proof.
  intros [_ Hp]. unfold interpolate. rewrite Hp.
  destruct (get_member r (step_key s)); eexists; reflexivity.
Qed.

(** One turn of a seed loop over a record that can be reported: the record is
    written and counted, or a line is printed about it and the count stays. *)
Lemma seed_record_turn s coll r n w :
  printable s r ->
  exists w',
    (seed_record s coll r n w = (Ok (S n), w') /\ console w' = console w /\
     exists f st, trace w' = trace w ++ [EvUpdateOne coll f st true]) \/
    (exists t e,
       seed_record s coll r n w = (Ok n, w') /\
       interpolate (get_member r (step_key s)) = Ok t /\
       console w' = console w ++ [Line Error [Lit (step_failed s); t; Lit ":"] (Some e)] /\
       (trace w' = trace w \/ exists f st, trace w' = trace w ++ [EvUpdateOne coll f st false])).
Proof.
  intros Hp. destruct (interpolate_printable s r Hp) as [t Ht]. destruct Hp as [Hr _].
  assert (Hcatch : forall e w1,
            (key ← lift (get r (step_key s));
             text ← lift (interpolate key);
             console_error [Lit (step_failed s); text; Lit ":"] e;;
             ret n) w1
            = (Ok n, set_console (console w1 ++
                       [Line Error [Lit (step_failed s); t; Lit ":"] (Some e)]) w1)).
  { intros e w1. rewrite bind_run. unfold lift at 1.
    rewrite (get_not_nullish r _ Hr). rewrite bind_run. unfold lift at 1. rewrite Ht.
    reflexivity. }
  unfold seed_record, try_catch. rewrite bind_run.
  pose proof (literal_moves_clock r [(step_key s, Member)] w) as M1.
  destruct (literal r [(step_key s, Member)] w) as [[filter | e] w2]; simpl in M1.
  2:{ eexists. right. exists t, e. rewrite Hcatch. split; [reflexivity |].
      split; [exact Ht |]. simpl. rewrite M1. split; [reflexivity | left; reflexivity]. }
  rewrite bind_run.
  pose proof (literal_moves_clock r (step_set s) w2) as M2.
  destruct (literal r (step_set s) w2) as [[set | e] w3]; simpl in M2.
  2:{ eexists. right. exists t, e. rewrite Hcatch. split; [reflexivity |].
      split; [exact Ht |]. simpl. rewrite M2, M1.
      split; [reflexivity | left; reflexivity]. }
  assert (T3 : trace w3 = trace w) by (rewrite M2, M1; reflexivity).
  assert (C3 : console w3 = console w) by (rewrite M2, M1; reflexivity).
  rewrite bind_run. unfold updateOne, driver_call.
  destruct (faults w3 (length (trace w3))) as [e |].
  - eexists. right. exists t, e. rewrite Hcatch. split; [reflexivity |].
    split; [exact Ht |]. simpl. rewrite T3, C3. split; [reflexivity | right; eauto].
  - eexists. left. split; [reflexivity |]. simpl. rewrite T3, C3. eauto.
Qed.

Lemma failure_line_mono s rs rs' l :
  (forall r, In r rs -> In r rs') -> failure_line s rs l -> failure_line s rs' l.
Proof. intros Hsub [r [t [e [Hr H]]]]. exists r, t, e. split; [apply Hsub, Hr | exact H]. Qed.

Lemma loop_counts s coll records : forall n w,
  Forall (printable s) records ->
  exists k evs ls w',
    for_of records n (seed_record s coll) w = (Ok (n + k)%nat, w') /\
    trace w' = trace w ++ evs /\
    Forall (fun ev => exists f st ok, ev = EvUpdateOne coll f st ok) evs /\
    k = length (List.filter accepted evs) /\
    console w' = console w ++ ls /\
    Forall (failure_line s records) ls /\
    (length ls + k = length records)%nat.
Proof.
  induction records as [| r rest IH]; intros n w Hall.
  - exists 0%nat, [], [], w. simpl. rewrite Nat.add_0_r, !app_nil_r.
    repeat split; constructor.
  - inversion Hall as [| ? ? Hr Hrest]; subst.
    cbn [for_of]. rewrite bind_run.
    destruct (seed_record_turn s coll r n w Hr)
      as [w1 [[E [C [f [st T]]]] | [t [e [E [Ht [C T]]]]]]]; rewrite E.
    + destruct (IH (S n) w1 Hrest) as [k [evs [ls [w' [L [T' [U [K [C' [F N]]]]]]]]]].
      exists (S k), (EvUpdateOne coll f st true :: evs), ls, w'.
      rewrite L, T', T, C', C, <- app_assoc. simpl.
      repeat split; auto; try lia.
      * f_equal. f_equal. lia.
      * constructor; [eauto | exact U].
      * eapply Forall_impl; [exact F |]. intros l. apply failure_line_mono.
        intros x Hx. right. exact Hx.
    + destruct (IH n w1 Hrest) as [k [evs [ls [w' [L [T' [U [K [C' [F N]]]]]]]]]].
      assert (Hl : failure_line s (r :: rest)
                     (Line Error [Lit (step_failed s); t; Lit ":"] (Some e))).
      { exists r, t, e. split; [left; reflexivity | split; [exact Ht | reflexivity]]. }
      assert (F' : Forall (failure_line s (r :: rest)) ls).
      { eapply Forall_impl; [exact F |]. intros l. apply failure_line_mono.
        intros x Hx. right. exact Hx. }
      destruct T as [T | [f [st T]]].
      * exists k, evs, (Line Error [Lit (step_failed s); t; Lit ":"] (Some e) :: ls), w'.
        rewrite L, T', T, C', C, <- app_assoc. simpl.
        repeat split; auto; try lia.
      * exists k, (EvUpdateOne coll f st false :: evs),
               (Line Error [Lit (step_failed s); t; Lit ":"] (Some e) :: ls), w'.
        rewrite L, T', T, C', C, <- !app_assoc. simpl.
        repeat split; auto; try lia; constructor; eauto.
Qed.

Lemma read_export_records fs path records :
  fst (read_export fs path) = Ok records -> records <> [] -> snd (read_export fs path) = [].
Proof.
  intros H Hne. destruct (read_export_lines fs path) as [_ Hl].
  destruct (snd (read_export fs path)) as [| l ls]; [reflexivity |].
  rewrite Hl in H by discriminate. congruence.
Qed.

(** X4: a seed function whose file holds records that can all be reported goes
    through every one of them: it returns, every record leaves either a
    write the driver accepted or a line about its failure, and the last line
    gives the number of accepted writes against the number of records. *)
Theorem seed_counts_every_record s db w records :
  fst (parseJSON (path_join JSON_DIR (step_file s)) w) = Ok records ->
  records <> [] ->
  Forall (printable s) records ->
  exists k evs ls w',
    seed s db w = (Ok tt, w') /\
    trace w' = trace w ++ evs /\
    Forall (fun ev => exists f st ok, ev = EvUpdateOne (db, step_collection s) f st ok) evs /\
    k = length (List.filter accepted evs) /\
    console w' = console w ++ [Line Log [Lit (step_start s)] None] ++ ls ++
                 [Line Log [Lit (step_seeded s); count k; Lit "/"; count (length records);
                            Lit (step_what s)] None] /\
    Forall (failure_line s records) ls /\
    (length ls + k = length records)%nat.
Proof.
  intros Hread Hne Hall. rewrite parseJSON_read in Hread. simpl in Hread.
  pose proof (read_export_records _ _ _ Hread Hne) as Hquiet.
  unfold seed. rewrite bind_run. unfold console_log at 1, print at 1.
  rewrite bind_run, parseJSON_read.
  cbn [files set_console console]. rewrite Hread, Hquiet, app_nil_r.
  destruct records as [| r rest]; [congruence |].
  cbn [length Nat.eqb]. rewrite bind_run.
  match goal with |- context [for_of _ _ _ ?w1] =>
    destruct (loop_counts s (db, step_collection s) (r :: rest) 0%nat w1 Hall)
      as [k [evs [ls [w' [L [T [U [K [C [F N]]]]]]]]]] end.
  rewrite L. exists k, evs, ls. eexists. split; [reflexivity |].
  simpl in T, C. simpl. rewrite T, C, <- !app_assoc. simpl.
  repeat split; auto.
Qed.

Lemma seed_counts_every_record_witness :
  exists k evs ls w',
    seed Counter_step "hr" (first_call_fails (world_of two_counters)) = (Ok tt, w') /\
    trace w' = trace (first_call_fails (world_of two_counters)) ++ evs /\
    Forall (fun ev => exists f st ok,
              ev = EvUpdateOne ("hr", step_collection Counter_step) f st ok) evs /\
    k = length (List.filter accepted evs) /\
    console w' = console (first_call_fails (world_of two_counters))
                 ++ [Line Log [Lit (step_start Counter_step)] None] ++ ls ++
                 [Line Log [Lit (step_seeded Counter_step); count k; Lit "/";
                            count (length [counter "emp" 1; counter "proj" 7]);
                            Lit (step_what Counter_step)] None] /\
    Forall (failure_line Counter_step [counter "emp" 1; counter "proj" 7]) ls /\
    (length ls + k = length [counter "emp" 1; counter "proj" 7])%nat.
Proof.
  apply (seed_counts_every_record Counter_step "hr" (first_call_fails (world_of two_counters))
           [counter "emp" 1; counter "proj" 7]).
  - vm_compute. reflexivity.
  - discriminate.
  - repeat constructor.
Defined.

(** * The calls of a run, and what they leave alone *)

Section Touches.

(** A relation that every step of the script keeps, and that the writes to
    one collection keep. *)
Variable R : world -> world -> Prop.
Hypothesis R_refl : forall w, R w w.
Hypothesis R_trans : forall a b c, R a b -> R b c -> R a c.
Hypothesis R_console : forall c w, R w (set_console c w).
Hypothesis R_clock : forall n w, R w (set_clock_reads n w).
Variable coll : string * string.
Hypothesis R_write : forall filter set, respects R (updateOne coll filter set).

Ltac keep :=
  first [ apply (respects_literal R R_refl R_trans R_clock)
        | apply (respects_parseJSON R R_refl R_trans R_console)
        | apply R_write
        | apply (respects_print R R_console)
        | apply (respects_ret R R_refl)
        | apply (respects_lift R R_refl)
        | apply (respects_try_catch R R_trans); [| intros ?; cbv beta]
        | apply (respects_bind R R_trans); [| intros ?; cbv beta] ].

Lemma touches_seed_record s r n : respects R (seed_record s coll r n).
Proof. unfold seed_record, console_error. repeat keep. Qed.

Lemma touches_seed s db : coll = (db, step_collection s) -> respects R (seed s db).
Proof.
  intros E. unfold seed, console_log. keep; [keep |]. keep; [keep |].
  case_if; [keep |]. keep; [| keep]. rewrite <- E.
  apply (respects_for_of R R_refl R_trans). intros r n _. apply touches_seed_record.
Qed.

End Touches.

Lemma journal_refl (allowed : list driver_event -> Prop) w : allowed [] -> journal allowed w w.
Proof. intros H. exists []. rewrite app_nil_r. auto. Qed.

Lemma journal_trans (P Q PQ : list driver_event -> Prop) a b c :
  (forall e1 e2, P e1 -> Q e2 -> PQ (e1 ++ e2)) ->
  journal P a b -> journal Q b c -> journal PQ a c.
Proof.
  intros H [e1 [T1 [S1 A1]]] [e2 [T2 [S2 A2]]]. exists (e1 ++ e2).
  rewrite T2, T1, S2, S1, replay_app, app_assoc. auto.
Qed.

(** A seed function calls the driver for updates of its own collection only. *)
Lemma seed_journal s db w :
  journal (Forall (writes_to (db, step_collection s))) w (snd (seed s db w)).
Proof.
  apply (touches_seed (journal (Forall (writes_to (db, step_collection s))))) with
    (coll := (db, step_collection s)); [| | | | | reflexivity].
  - intros a. apply journal_refl. constructor.
  - intros a b c. apply journal_trans. intros e1 e2 H1 H2. apply Forall_app. auto.
  - intros c a. apply (journal_refl _ a). constructor.
  - intros n a. apply (journal_refl _ a). constructor.
  - intros filter set a. unfold updateOne, driver_call.
    destruct (faults a (length (trace a))).
    + eexists. split; [reflexivity |]. split; [reflexivity |]. repeat constructor.
    + eexists. split; [reflexivity |]. split; [reflexivity |]. repeat constructor.
Qed.

Lemma in_order_nil db ss : in_order db ss [].
Proof.
  induction ss as [| s ss IH]; simpl; [reflexivity |].
  exists [], []. split; [reflexivity |]. split; [constructor | exact IH].
Qed.

Lemma in_order_seq db s ss {B} (m1 : M unit) (m2 : M B) :
  respects (journal (Forall (writes_to (db, step_collection s)))) m1 ->
  respects (journal (in_order db ss)) m2 ->
  respects (journal (in_order db (s :: ss))) (m1 ;; m2).
Proof.
  intros H1 H2 w. rewrite bind_run. specialize (H1 w).
  destruct (m1 w) as [[[] | e] w1]; simpl in *.
  - eapply journal_trans; [| exact H1 | apply H2].
    intros e1 e2 P Q. exists e1, e2. auto.
  - destruct H1 as [evs [T [S A]]]. exists evs. split; [exact T |]. split; [exact S |].
    exists evs, []. rewrite app_nil_r. split; [reflexivity |]. split; [exact A |].
    apply in_order_nil.
Qed.

Lemma journal_after_print P {B} l text v (m : M B) :
  respects (journal P) m -> respects (journal P) (print l text v ;; m).
Proof. intros H w. rewrite bind_run. exact (H (set_console _ w)). Qed.

Lemma main_try_journal url w :
  journal (connected_then (database_name url)) w (snd (main_try url w)).
Proof.
  assert (Hbody : respects (journal (in_order (database_name url) steps))
            (console_log [Lit ("✅ Connected to MongoDB" ++ nl)];;
             seedCounter (database_name url);;
             seedDepartmentParent (database_name url);;
             seedDepartmentChild (database_name url);;
             seedEmployee (database_name url);;
             seedProject (database_name url);;
             seedProjectEmployee (database_name url);;
             console_log [Lit (nl ++ "✨ Database seeded successfully!")])).
  { apply journal_after_print.
    rewrite seedCounter_seed, seedDepartmentParent_seed, seedDepartmentChild_seed,
      seedEmployee_seed, seedProject_seed, seedProjectEmployee_seed.
    unfold steps.
    repeat (apply in_order_seq; [intros a; apply seed_journal |]).
    intros a. apply (journal_refl _ a). reflexivity. }
  unfold main_try, try_catch. cbv zeta. rewrite bind_run.
  unfold client_connect at 1, driver_call.
  destruct (faults w (length (trace w))) as [e |].
  - exists [EvConnect false]. split; [reflexivity |]. split; [reflexivity |].
    exists false, []. split; [reflexivity |]. split; [apply in_order_nil | reflexivity].
  - specialize (Hbody (set_trace (trace w ++ [EvConnect true]) w)).
    match goal with H : journal _ _ (snd ?run) |- _ =>
      destruct run as [[[] | e] w2] end;
      cbn [snd] in Hbody; destruct Hbody as [evs [T [S A]]];
      exists (EvConnect true :: evs); cbn [snd bind_run]; rewrite ?bind_run;
      cbn [snd console_error print throw set_console trace store];
      rewrite T, S; unfold set_trace; cbn [trace store]; rewrite <- app_assoc;
      (split; [reflexivity |]); (split; [reflexivity |]);
      exists true, evs; (split; [reflexivity |]); (split; [exact A | discriminate]).
Qed.

Lemma main_journal url w : journal (run_calls (database_name url)) w (snd (main url w)).
Proof.
  rewrite main_run. unfold try_finally.
  match goal with |- context [main_try url ?w0] =>
    pose proof (main_try_journal url w0) as Hj; destruct (main_try url w0) as [r w1] end.
  destruct Hj as [evs [T [S [ok [rest [-> [Ho Hf]]]]]]]. cbn [snd] in T, S.
  exists ((EvConnect ok :: rest) ++ [EvClose]). unfold client_close. cbn [snd trace store set_trace].
  rewrite T, S, replay_snoc, <- app_assoc. split; [reflexivity |]. split; [reflexivity |].
  exists ok, rest. auto.
Qed.


Lemma in_order_writes db ss : forall evs,
  in_order db ss evs ->
  Forall (fun ev => exists s, In s ss /\ writes_to (db, step_collection s) ev) evs.
Proof.
  induction ss as [| s ss IH]; intros evs H; simpl in H.
  - subst. constructor.
  - destruct H as [e1 [e2 [-> [H1 H2]]]]. apply Forall_app. split.
    + eapply Forall_impl; [exact H1 |]. intros ev Hev. exists s. split; [left; reflexivity | exact Hev].
    + eapply Forall_impl; [exact (IH e2 H2) |]. intros ev [t [Ht Hev]].
      exists t. split; [right; exact Ht | exact Hev].
Qed.

Lemma replay_frame c evs : forall st,
  Forall (fun ev => ~ writes_to c ev) evs -> replay evs st !! c = st !! c.
Proof.
  induction evs as [| ev evs IH]; intros st H; [reflexivity |].
  inversion H as [| ? ? Hev Hevs]; subst.
  change (replay (ev :: evs) st) with (replay evs (apply_call ev st)).
  rewrite (IH _ Hevs). destruct ev as [ok | coll f s [] |]; try reflexivity.
  simpl. apply lookup_insert_ne. exact Hev.
Qed.

(** X6: a run leaves every collection other than the six of the database named
    in the URL as it is. *)
Theorem main_leaves_other_collections url w c :
  ~ In c (seeded_collections (database_name url)) ->
  store (snd (main url w)) !! c = store w !! c.
Proof.
  intros Hc. destruct (main_journal url w) as [evs [_ [S [ok [rest [-> [Ho _]]]]]]].
  rewrite S. apply replay_frame. constructor; [simpl; tauto |].
  apply Forall_app. split; [| repeat constructor; simpl; tauto].
  eapply Forall_impl; [exact (in_order_writes _ _ _ Ho) |].
  intros ev [s [Hs Hev]] Hw. apply Hc.
  destruct ev as [? | coll f st o |]; [contradiction | | contradiction].
  cbn [writes_to] in Hev, Hw. subst c. subst coll.
  exact (in_map (fun s => (database_name url, step_collection s)) steps s Hs).
Qed.

Lemma main_leaves_other_collections_witness :
  store (snd (main "mongodb://localhost:27017/hr" (world_of two_counters))) !! ("hr", "AuditLog")
  = store (world_of two_counters) !! ("hr", "AuditLog").
Proof.
  apply (main_leaves_other_collections "mongodb://localhost:27017/hr" (world_of two_counters)
           ("hr", "AuditLog")).
  vm_compute. intuition discriminate.
Defined.

(** * What a run keeps of the database *)

Lemma keeps_documents_refl w : keeps_documents w w.
Proof. intros c i d H. exists d. auto. Qed.

Lemma keeps_documents_trans a b c :
  keeps_documents a b -> keeps_documents b c -> keeps_documents a c.
Proof.
  intros Hab Hbc k i d H.
  destruct (Hab k i d H) as [d1 [H1 [D1 U1]]].
  destruct (Hbc k i d1 H1) as [d2 [H2 [D2 U2]]].
  exists d2. split; [exact H2 |]. split.
  - intros f Hf. apply D2, D1, Hf.
  - intros f Hf. rewrite (U2 f Hf). apply U1, Hf.
Qed.

Lemma upsert_lookup filter set docs : forall (i : nat) d,
  docs !! i = Some d ->
  exists d', upsert filter set docs !! i = Some d' /\ (d' = d \/ d' = apply_set set d).
Proof.
  induction docs as [| x rest IH]; intros i d H; [discriminate |].
  cbn [upsert]. destruct (matches filter x).
  - destruct i as [| i]; simpl in *.
    + injection H as <-. eauto.
    + eauto.
  - destruct i as [| i]; simpl in *.
    + injection H as <-. eauto.
    + apply IH, H.
Qed.

Lemma apply_set_keeps set d f : is_Some (d !! f) -> is_Some (apply_set set d !! f).
Proof. intros H. unfold apply_set. apply lookup_union_is_Some. right. exact H. Qed.

Lemma apply_set_other (set : list (string * jsval)) (d : document) f :
  ~ In f (map fst set) -> apply_set set d !! f = d !! f.
Proof.
  intros H. unfold apply_set. apply lookup_union_r.
  apply not_elem_of_list_to_map_1. intros Hin. apply H. apply list_elem_of_In. exact Hin.
Qed.

Lemma updateOne_keeps_documents s db r filter set w1 w2 w3 :
  In s steps ->
  literal r [(step_key s, Member)] w1 = (Ok filter, w2) ->
  literal r (step_set s) w2 = (Ok set, w3) ->
  keeps_documents w3 (snd (updateOne (db, step_collection s) filter set w3)).
Proof.
  intros Hs _ Hset c i d H. unfold documents in *.
  destruct (updateOne_store (db, step_collection s) filter set w3) as [-> | ->].
  { exists d. auto. }
  destruct (decide ((db, step_collection s) = c)) as [<- | Hne].
  - rewrite documents_insert.
    destruct (upsert_lookup (serialize filter) (serialize set) _ i d H) as [d' [H' Hd']].
    exists d'. split; [exact H' |]. destruct Hd' as [-> | ->]; [auto |]. split.
    + intros f Hf. apply apply_set_keeps, Hf.
    + intros f Hf. apply apply_set_other.
      rewrite serialize_names, (literal_names _ _ _ _ _ Hset). apply (Hf s Hs). reflexivity.
  - rewrite documents_insert_ne by exact Hne. exists d. auto.
Qed.

Lemma main_try_keeps_documents url w : keeps_documents w (snd (main_try url w)).
Proof.
  apply respects_main_try.
  - exact keeps_documents_refl.
  - exact keeps_documents_trans.
  - intros c w0. exact (keeps_documents_refl w0).
  - intros n w0. exact (keeps_documents_refl w0).
  - exact updateOne_keeps_documents.
  - intros w0. unfold client_connect, driver_call.
    destruct (faults w0 (length (trace w0))); exact (keeps_documents_refl w0).
Qed.

(** X7: a run removes no document and no field: whatever the files hold and
    whichever calls fail, a document that is in the database before the run
    is there after it, at its place in its collection, with every field it
    had; and a field that the [$set] literal of its collection does not name
    still has its value. *)
Theorem main_keeps_documents url w c (i : nat) (d : document) :
  documents w c !! i = Some d ->
  exists d' : document,
    documents (snd (main url w)) c !! i = Some d' /\
    (forall f, is_Some (d !! f) -> is_Some (d' !! f)) /\
    (forall f, (forall s, In s steps -> snd c = step_collection s ->
                          ~ In f (map fst (step_set s))) ->
               d' !! f = d !! f).
Proof.
  intros H. rewrite main_run. unfold try_finally.
  match goal with |- context [main_try url ?w0] =>
    pose proof (main_try_keeps_documents url w0 c i d H) as Hk;
    destruct (main_try url w0) as [r w1] end.
  exact Hk.
Qed.

Lemma main_keeps_documents_witness :
  exists d' : document,
    documents (snd (main "mongodb://localhost:27017/hr"
                      (with_store {[ ("hr", "Counter") := [noted_counter] ]}
                                  (world_of two_counters))))
              ("hr", "Counter") !! 0%nat = Some d' /\
    (forall f, is_Some (noted_counter !! f) -> is_Some (d' !! f)) /\
    (forall f, (forall s, In s steps -> snd ("hr", "Counter") = step_collection s ->
                          ~ In f (map fst (step_set s))) ->
               d' !! f = noted_counter !! f).
Proof.
  apply (main_keeps_documents "mongodb://localhost:27017/hr"
           (with_store {[ ("hr", "Counter") := [noted_counter] ]} (world_of two_counters))
           ("hr", "Counter") 0%nat noted_counter).
  reflexivity.
Defined.

(** * How a run ends *)

Lemma bind_ok {A B} (m : M A) (f : A -> M B) w b w' :
  (m ≫= f) w = (Ok b, w') -> exists a w1, m w = (Ok a, w1) /\ f a w1 = (Ok b, w').
Proof.
  rewrite bind_run. destruct (m w) as [[a | e] w1]; [eauto | discriminate].
Qed.


Lemma same_process_refl w : same_process w w.
Proof. repeat split. Qed.

Lemma same_process_trans a b c : same_process a b -> same_process b c -> same_process a c.
Proof.
  intros [E1 [F1 [C1 [N1 X1]]]] [E2 [F2 [C2 [N2 X2]]]].
  repeat split; congruence.
Qed.

Lemma main_same_process url w : same_process w (snd (main url w)).
Proof.
  rewrite main_run. unfold try_finally, client_close.
  match goal with |- context [main_try url ?w0] =>
    assert (H : same_process w0 (snd (main_try url w0))) end.
  { apply respects_main_try.
    - exact same_process_refl.
    - exact same_process_trans.
    - intros c w0. exact (same_process_refl w0).
    - intros n w0. exact (same_process_refl w0).
    - intros s db r filter set w1 w2 w3 _ _ _. unfold updateOne, driver_call.
      destruct (faults w3 (length (trace w3))); exact (same_process_refl w3).
    - intros w0. unfold client_connect, driver_call.
      destruct (faults w0 (length (trace w0))); exact (same_process_refl w0). }
  match goal with |- context [main_try url ?w0] => destruct (main_try url w0) as [r w1] end.
  exact H.
Qed.

(** X10: the script as a whole.  Without a [DATABASE_URL], or with an empty one,
    it throws at once, before it prints or calls anything.  With one, it does
    not throw: when [main] throws, the script prints the error and exits
    with code 1; when [main] returns, the exit code is left as it was. *)
Theorem script_outcome w :
  match env w !! "DATABASE_URL" with
  | None => script w = (Throw no_DATABASE_URL, w)
  | Some url =>
      if String.eqb url EmptyString then script w = (Throw no_DATABASE_URL, w)
      else
        fst (script w) = Ok tt /\
        match fst (main url w) with
        | Ok _ => snd (script w) = snd (main url w) /\
                  exit_code (snd (script w)) = exit_code w
        | Throw e => exit_code (snd (script w)) = Some 1 /\
                     console (snd (script w))
                     = console (snd (main url w)) ++ [Line Error [] (Some e)]
        end
  end.
Proof.
  unfold script. destruct (env w !! "DATABASE_URL") as [url |]; [| reflexivity].
  cbn [truthy]. destruct (String.eqb url EmptyString); [reflexivity |].
  cbn [negb]. unfold try_catch.
  pose proof (main_same_process url w) as [_ [_ [_ [_ X]]]].
  destruct (main url w) as [[[] | e] w1]; cbn [fst snd] in *; auto.
Qed.

(** X11: when the connection cannot be made, [main] writes nothing and seeds
    nothing: it prints the error under its banner, closes the client and
    throws the error of the driver. *)
Theorem connection_failure_stops_the_run url w e :
  faults w (length (trace w)) = Some e ->
  exists w',
    main url w = (Throw e, w') /\
    trace w' = trace w ++ [EvConnect false; EvClose] /\
    store w' = store w /\
    console w' = console w ++ [starting_line; failed_line e].
Proof.
  intros Hf. rewrite main_run. unfold try_finally, main_try, try_catch.
  rewrite bind_run. unfold client_connect at 1, driver_call.
  cbn [faults trace set_console]. rewrite Hf, bind_run.
  eexists. split; [reflexivity |].
  cbn [trace store console set_console set_trace client_close snd].
  rewrite <- !app_assoc. auto.
Qed.

Lemma connection_failure_stops_the_run_witness :
  exists w',
    main "mongodb://localhost:27017/hr" (first_call_fails (world_of two_counters))
    = (Throw (mkError "MongoNetworkError" "connection reset"), w') /\
    trace w' = trace (first_call_fails (world_of two_counters)) ++ [EvConnect false; EvClose] /\
    store w' = store (first_call_fails (world_of two_counters)) /\
    console w' = console (first_call_fails (world_of two_counters))
                 ++ [starting_line; failed_line (mkError "MongoNetworkError" "connection reset")].
Proof.
  apply (connection_failure_stops_the_run "mongodb://localhost:27017/hr"
           (first_call_fails (world_of two_counters))).
  reflexivity.
Defined.

Lemma seed_missing s db w :
  files w !! path_join JSON_DIR (step_file s) = None ->
  seed s db w = (Ok tt, set_console (console w ++ nothing_to_seed s) w).
Proof.
  intros H. rewrite (seed_unusable s db w (not_found _)) by (apply file_missing; exact H).
  unfold say, nothing_to_seed. cbn [console set_console].
  rewrite <- !app_assoc. reflexivity.
Qed.



(** * The name of the database *)

Lemma chars_append a b : chars (a ++ b) = chars a ++ chars b.
Proof. induction a as [| c a IH]; simpl; [reflexivity | unfold chars in *; simpl; f_equal; exact IH]. Qed.

Lemma str_chars s : str (chars s) = s.
Proof. apply string_of_list_ascii_of_string. Qed.

Lemma last_segment_plain sep s : forall acc,
  ~ In sep s -> last_segment sep s acc = rev acc ++ s.
Proof.
  induction s as [| c r IH]; intros acc H; simpl.
  - rewrite app_nil_r. reflexivity.
  - destruct (Ascii.eqb c sep) eqn:E.
    + apply Ascii.eqb_eq in E. subst. simpl in H. tauto.
    + rewrite IH by (simpl in H; tauto). simpl. rewrite <- app_assoc. reflexivity.
Qed.

Lemma last_segment_after sep a b : forall acc,
  ~ In sep b -> last_segment sep (a ++ sep :: b) acc = b.
Proof.
  induction a as [| c r IH]; intros acc H; simpl.
  - rewrite Ascii.eqb_refl. apply (last_segment_plain sep b [] H).
  - destruct (Ascii.eqb c sep); apply IH, H.
Qed.

Lemma first_segment_plain sep s : ~ In sep s -> first_segment sep s = s.
Proof.
  induction s as [| c r IH]; intros H; simpl; [reflexivity |].
  destruct (Ascii.eqb c sep) eqn:E.
  - apply Ascii.eqb_eq in E. subst. simpl in H. tauto.
  - rewrite IH by (simpl in H; tauto). reflexivity.
Qed.

Lemma first_segment_before sep a b : ~ In sep a -> first_segment sep (a ++ sep :: b) = a.
Proof.
  induction a as [| c r IH]; intros H; simpl.
  - rewrite Ascii.eqb_refl. reflexivity.
  - destruct (Ascii.eqb c sep) eqn:E.
    + apply Ascii.eqb_eq in E. subst. simpl in H. tauto.
    + rewrite IH by (simpl in H; tauto). reflexivity.
Qed.

(** X13: the database is named by the text of the URL after its last slash, up to
    the first question mark if there is one; the name
    [employee_management_db] stands in only when that text is empty. *)
Theorem database_name_of_url base name opts :
  ~ In "/"%char (chars name) -> ~ In "?"%char (chars name) -> ~ In "/"%char (chars opts) ->
  database_name (base ++ "/" ++ name)
    = (if String.eqb name EmptyString then "employee_management_db" else name) /\
  database_name (base ++ "/" ++ name ++ "?" ++ opts)
    = (if String.eqb name EmptyString then "employee_management_db" else name).
Proof.
  intros Hn Hq Ho. unfold database_name. rewrite !chars_append.
  change (chars "/") with ["/"%char]. change (chars "?") with ["?"%char]. simpl app.
  split.
  - rewrite last_segment_after by exact Hn.
    rewrite first_segment_plain by exact Hq. rewrite str_chars. cbn [truthy].
    destruct (String.eqb name EmptyString); reflexivity.
  - rewrite last_segment_after.
    + rewrite first_segment_before by exact Hq. rewrite str_chars. cbn [truthy].
      destruct (String.eqb name EmptyString); reflexivity.
    + intros H. apply in_app_or in H as [H | [H | H]]; [tauto | discriminate | tauto].
Qed.

Lemma database_name_of_url_witness :
  database_name ("mongodb://db.example.com:27017" ++ "/" ++ "hr")
    = (if String.eqb "hr" EmptyString then "employee_management_db" else "hr") /\
  database_name ("mongodb://db.example.com:27017" ++ "/" ++ "hr" ++ "?" ++ "retryWrites=true")
    = (if String.eqb "hr" EmptyString then "employee_management_db" else "hr").
Proof.
  apply (database_name_of_url "mongodb://db.example.com:27017" "hr" "retryWrites=true");
    simpl; intuition discriminate.
Defined.

(** * Further properties of the serverless entry point *)

Lemma same_header_trans a b c :
  same_header a b = true -> same_header b c = false -> same_header a c = false.
Proof.
  unfold same_header. intros H1 H2. apply String.eqb_eq in H1. rewrite H1. exact H2.
Qed.

Lemma same_header_sym a b : same_header a b = same_header b a.
Proof. unfold same_header. apply String.eqb_sym. Qed.

Lemma header_kept name other value hs :
  same_header name other = false ->
  header name (List.filter (fun kv => negb (same_header (fst kv) other)) hs ++ [(other, value)])
  = header name hs.
Proof.
  intros Hne. unfold header. induction hs as [| [k v] hs IH]; simpl.
  - rewrite same_header_sym, Hne. reflexivity.
  - destruct (same_header k name) eqn:E.
    + rewrite (same_header_trans k name other E Hne). simpl. rewrite E. reflexivity.
    + destruct (same_header k other); simpl; [exact IH |]. rewrite E. exact IH.
Qed.

(** X14: when the wrapped handler throws a value other than null or undefined
    before it has written the head of the response out, the 500 answer of
    the entry point carries the headers the wrapped handler had set, except
    a Content-Type under any spelling, which is replaced; what was written
    of the body stays in front of the JSON text; and the thrown value is
    printed once. *)
Theorem handler_keeps_headers inner req s e s1 :
  inner req (announced req s) = (Throw e, s1) ->
  nullish e = false ->
  head (res s1) = None ->
  finished (res s1) = false ->
  exists s2 hs,
    handler inner req s = (Ok VUndefined, s2) /\
    head (res s2) = Some (500, hs) /\
    (forall name, same_header name "Content-Type" = false ->
                  header name hs = header name (pending (res s1))) /\
    body (res s2) = body (res s1) ++ [error_body (get_member e "message")] /\
    output s2 = output s1 ++ [handler_error_line e].
Proof.
  intros Hin He Hhead Hfin.
  rewrite handler_calls. unfold try_catch. rewrite Hin.
  destruct s1 as [[code hs hd bd fin] out]. simpl in Hhead, Hfin. subst hd fin.
  unfold mbind, ST_bind, bind, server_log, res_set_statusCode, res_setHeader,
    update_res, res_end, lift, ret. simpl.
  rewrite (get_not_nullish e "message" He). simpl.
  eexists _, _. split; [reflexivity |]. simpl.
  repeat split; try reflexivity. intros name Hname. apply header_kept, Hname.
Qed.

Lemma handler_keeps_headers_witness :
  exists s2 hs,
    handler failing_with_headers some_request fresh_server = (Ok VUndefined, s2) /\
    head (res s2) = Some (500, hs) /\
    (forall name, same_header name "Content-Type" = false ->
       header name hs
       = header name (pending (res (snd (failing_with_headers some_request
                                           (announced some_request fresh_server)))))) /\
    body (res s2)
    = body (res (snd (failing_with_headers some_request (announced some_request fresh_server))))
      ++ [error_body (get_member (mkError "Error" "boom") "message")] /\
    output s2
    = output (snd (failing_with_headers some_request (announced some_request fresh_server)))
      ++ [handler_error_line (mkError "Error" "boom")].
Proof.
  apply (handler_keeps_headers failing_with_headers some_request fresh_server
           (mkError "Error" "boom")); reflexivity.
Defined.

(** X15: when the wrapped handler throws null or undefined, the entry point
    itself throws, a TypeError, on reading the message: the status is set to
    500 and the Content-Type to application/json, but the response is not
    ended and nothing is written to it. *)
Theorem handler_thrown_null_leaves_response_open inner req s e s1 :
  inner req (announced req s) = (Throw e, s1) ->
  nullish e = true ->
  head (res s1) = None ->
  exists err s2,
    handler inner req s = (Throw err, s2) /\
    get e "message" = Throw err /\
    statusCode (res s2) = 500 /\
    header "Content-Type" (pending (res s2)) = Some "application/json" /\
    head (res s2) = None /\
    body (res s2) = body (res s1) /\
    finished (res s2) = finished (res s1).
Proof.
  intros Hin He Hhead. destruct (get_nullish e "message" He) as [err Herr].
  rewrite handler_calls. unfold try_catch. rewrite Hin.
  destruct s1 as [[code hs hd bd fin] out]. simpl in Hhead. subst hd.
  unfold mbind, ST_bind, bind, server_log, res_set_statusCode, res_setHeader,
    update_res, res_end, lift, ret. simpl.
  rewrite Herr. simpl.
  exists err. eexists. split; [reflexivity |]. simpl.
  repeat split; try reflexivity. apply header_set.
Qed.

Lemma handler_thrown_null_leaves_response_open_witness :
  exists err s2,
    handler throwing_null some_request fresh_server = (Throw err, s2) /\
    get VNull "message" = Throw err /\
    statusCode (res s2) = 500 /\
    header "Content-Type" (pending (res s2)) = Some "application/json" /\
    head (res s2) = None /\
    body (res s2) = body (res (announced some_request fresh_server)) /\
    finished (res s2) = finished (res (announced some_request fresh_server)).
Proof.
  apply (handler_thrown_null_leaves_response_open throwing_null some_request fresh_server
           VNull (announced some_request fresh_server)); reflexivity.
Defined.

(** X16: when the thrown value has no message (a string, a number, an object
    without that member), the body of the 500 answer is the JSON text of
    [{ error: "Internal server error" }] alone: the member is left out. *)
Theorem handler_omits_missing_message inner req s e s1 :
  inner req (announced req s) = (Throw e, s1) ->
  get e "message" = Ok VUndefined ->
  head (res s1) = None ->
  finished (res s1) = false ->
  exists s2 hs chunk,
    handler inner req s = (Ok VUndefined, s2) /\
    head (res s2) = Some (500, hs) /\
    body (res s2) = body (res s1) ++ [chunk] /\
    flatten chunk = Some bare_error_text /\
    finished (res s2) = true.
Proof.
  intros Hin Hmsg Hhead Hfin.
  rewrite handler_calls. unfold try_catch. rewrite Hin.
  destruct s1 as [[code hs hd bd fin] out]. simpl in Hhead, Hfin. subst hd fin.
  unfold mbind, ST_bind, bind, server_log, res_set_statusCode, res_setHeader,
    update_res, res_end, lift, ret. simpl.
  rewrite Hmsg. simpl.
  eexists _, _, _. split; [reflexivity |]. simpl.
  repeat split; reflexivity.
Qed.

Lemma handler_omits_missing_message_witness :
  exists s2 hs chunk,
    handler throwing_a_string some_request fresh_server = (Ok VUndefined, s2) /\
    head (res s2) = Some (500, hs) /\
    body (res s2) = body (res (announced some_request fresh_server)) ++ [chunk] /\
    flatten chunk = Some bare_error_text /\
    finished (res s2) = true.
Proof.
  apply (handler_omits_missing_message throwing_a_string some_request fresh_server
           (VStr "boom") (announced some_request fresh_server)); reflexivity.
Defined.

(** * What a run has written is there when it ends *)

Lemma updateOne_keyed s db r filter set w1 w2 w3 :
  In s steps ->
  literal r [(step_key s, Member)] w1 = (Ok filter, w2) ->
  literal r (step_set s) w2 = (Ok set, w3) ->
  journal (Forall keyed) w3 (snd (updateOne (db, step_collection s) filter set w3)).
Proof.
  intros Hs H1 H2. unfold updateOne, driver_call.
  destruct (faults w3 (length (trace w3))).
  - eexists. split; [reflexivity |]. split; [reflexivity |]. repeat constructor.
  - eexists. split; [reflexivity |]. split; [reflexivity |].
    constructor; [| constructor].
    destruct (literal_key _ _ _ _ _ H1) as [-> _].
    destruct (literal_lookup _ _ _ _ _ _ _ (steps_distinct s Hs) H2 (steps_key s Hs))
      as [x [Hx Hy]].
    unfold yields in Hy. subst x.
    exists s, (toBSON (get_member r (step_key s))).
    repeat split; auto. rewrite serialize_names. exact (literal_names _ _ _ _ _ H2).
Qed.

Lemma main_journal_keyed url w : journal (Forall keyed) w (snd (main url w)).
Proof.
  rewrite main_run. unfold try_finally, client_close.
  match goal with |- context [main_try url ?w0] =>
    assert (H : journal (Forall keyed) w0 (snd (main_try url w0))) end.
  { apply respects_main_try.
    - intros a. apply journal_refl. constructor.
    - intros a b c. apply journal_trans. intros e1 e2 H1 H2. apply Forall_app. auto.
    - intros c a. apply (journal_refl _ a). constructor.
    - intros n a. apply (journal_refl _ a). constructor.
    - exact updateOne_keyed.
    - intros a. unfold client_connect, driver_call.
      destruct (faults a (length (trace a)));
        (eexists; split; [reflexivity |]; split; [reflexivity |]; repeat constructor). }
  match goal with |- context [main_try url ?w0] => destruct (main_try url w0) as [r w1] end.
  destruct H as [evs [T [S K]]]. cbn [snd] in T, S. exists (evs ++ [EvClose]).
  cbn [snd trace store set_trace]. rewrite T, S, replay_snoc, <- app_assoc.
  split; [reflexivity |]. split; [reflexivity |].
  apply Forall_app. split; [exact K | repeat constructor].
Qed.


(** * Nothing appears that was not written *)

Lemma replay_keys s (coll : string * string) k evs : forall st,
  In s steps -> snd coll = step_collection s ->
  Forall keyed evs ->
  In k (keys_of (step_key s) (default [] (replay evs st !! coll))) ->
  In k (keys_of (step_key s) (default [] (st !! coll))) \/
  exists set, In (EvUpdateOne coll [(step_key s, k)] set true) evs.
Proof.
  induction evs as [| ev evs IH]; intros st Hs Hc Hk Hin; [left; exact Hin |].
  inversion Hk as [| ? ? Hev Hevs]; subst.
  change (replay (ev :: evs) st) with (replay evs (apply_call ev st)) in Hin.
  destruct (IH _ Hs Hc Hevs Hin) as [H | [set H]]; [| right; exists set; right; exact H].
  destruct ev as [ok | c f set [] |]; try (left; exact H).
  cbn [apply_call] in H.
  destruct (decide (c = coll)) as [-> | Hne].
  - rewrite documents_insert in H.
    destruct Hev as [t [v [Ht [Hct [-> [Hv _]]]]]].
    assert (t = s) by (exact (keyed_same_collection t s coll Ht Hs Hct Hc)). subst t.
    destruct (keys_upsert _ _ _ _ Hv k H) as [-> | Hold]; [| left; exact Hold].
    right. exists set. left. reflexivity.
  - rewrite documents_insert_ne in H by exact Hne. left. exact H.
Qed.

(** X17: a run adds no document but by a write of its own: a value that is
    the business key of a document of one of the six collections when the
    run ends was the key of a document of that collection before the run,
    or is the value that an accepted update of the run on that collection
    filtered on. *)
Theorem main_adds_only_what_it_wrote url w s db k :
  In s steps ->
  In k (keys_of (step_key s) (documents (snd (main url w)) (db, step_collection s))) ->
  In k (keys_of (step_key s) (documents w (db, step_collection s))) \/
  exists set, In (EvUpdateOne (db, step_collection s) [(step_key s, k)] set true)
                 (drop (length (trace w)) (trace (snd (main url w)))).
Proof.
  intros Hs Hin. destruct (main_journal_keyed url w) as [evs [T [S K]]].
  rewrite T, drop_app_length. unfold documents in *. rewrite S in Hin.
  exact (replay_keys s (db, step_collection s) k evs (store w) Hs eq_refl K Hin).
Qed.

Lemma main_adds_only_what_it_wrote_witness :
  In (VStr "proj")
     (keys_of (step_key Counter_step)
        (documents (world_of two_counters) ("hr", step_collection Counter_step))) \/
  exists set,
    In (EvUpdateOne ("hr", step_collection Counter_step)
                    [(step_key Counter_step, VStr "proj")] set true)
       (drop (length (trace (world_of two_counters)))
             (trace (snd (main "mongodb://localhost:27017/hr" (world_of two_counters))))).
Proof.
  apply (main_adds_only_what_it_wrote "mongodb://localhost:27017/hr" (world_of two_counters)
           Counter_step "hr" (VStr "proj")).
  - left. reflexivity.
  - vm_compute. right. left. reflexivity.
Defined.
